(** * Entropic optimal transport by iterative proportional fitting (IPFP)

    A shallow embedding of the three IPFP cells of the notebook
    (matrix IPFP, log-domain IPFP, IPFP with the log-sum-exp trick)
    and the properties of the scaling engine proved about them.

    The arrays of the notebook are numpy arrays of IEEE doubles.  The
    embedding keeps the shapes, the broadcasting rules, the exceptions
    numpy raises on incompatible shapes and on empty reductions, and the
    special values of IEEE arithmetic (both infinities and NaN).  It does
    not keep rounding: a finite value is a real number, and arithmetic on
    finite values is exact.  Zeros carry no sign, and an array with no row
    has no column either.

    After the three cells come the cells around them and those of the
    two other notebooks of the repository: the marginals the notebook
    sets up, the linear programs handed to the solver (their matrices and
    vectors; the solver is not modelled), and, from the discrete choice
    notebook, the likelihood of the logit model, its gradient, and the
    standardization and layout of its data.

    Some statements turn on the outcome of a test or on whether a value
    is finite.  Those say under which hypothesis the doubles give the
    outcome the real numbers give: a tolerance below 2^53 in size where
    a loop has to be entered ([entering_tol]), whole numbers small enough
    to be summed exactly, entries of a coupling no smaller than exp(-700)
    where their logarithm is taken. *)

From Stdlib Require Import Reals Lra Lia List Bool Arith PeanoNat.
Import ListNotations.
Local Open Scope R_scope.

(** ** Extended reals: the values a numpy float can take *)

Inductive xreal : Type :=
| Fin (r : R)
| PInf
| NInf
| NaN.

Definition Rltb (a b : R) : bool := if Rlt_dec a b then true else false.

Definition xneg (a : xreal) : xreal :=
  match a with
  | Fin x => Fin (- x)
  | PInf => NInf
  | NInf => PInf
  | NaN => NaN
  end.

Definition xadd (a b : xreal) : xreal :=
  match a, b with
  | Fin x, Fin y => Fin (x + y)
  | NaN, _ => NaN
  | _, NaN => NaN
  | PInf, NInf => NaN
  | NInf, PInf => NaN
  | PInf, _ => PInf
  | _, PInf => PInf
  | NInf, _ => NInf
  | _, NInf => NInf
  end.

Definition xsub (a b : xreal) : xreal := xadd a (xneg b).

(** The sign of an infinity scaled by the finite [x]; zero times an
    infinity is NaN. *)
Definition scale_inf (x : R) (pos : bool) : xreal :=
  if Rlt_dec 0 x then (if pos then PInf else NInf)
  else if Rlt_dec x 0 then (if pos then NInf else PInf)
  else NaN.

Definition xmul (a b : xreal) : xreal :=
  match a, b with
  | Fin x, Fin y => Fin (x * y)
  | NaN, _ => NaN
  | _, NaN => NaN
  | Fin x, PInf => scale_inf x true
  | Fin x, NInf => scale_inf x false
  | PInf, Fin y => scale_inf y true
  | NInf, Fin y => scale_inf y false
  | PInf, PInf => PInf
  | NInf, NInf => PInf
  | PInf, NInf => NInf
  | NInf, PInf => NInf
  end.

(** Division; numpy warns and carries on.  A zero divisor is taken as +0. *)
Definition xdiv (a b : xreal) : xreal :=
  match a, b with
  | NaN, _ => NaN
  | _, NaN => NaN
  | Fin x, Fin y =>
      if Req_dec_T y 0 then
        (if Rlt_dec 0 x then PInf else if Rlt_dec x 0 then NInf else NaN)
      else Fin (x / y)
  | Fin _, PInf => Fin 0
  | Fin _, NInf => Fin 0
  | PInf, Fin y => if Rlt_dec y 0 then NInf else PInf
  | NInf, Fin y => if Rlt_dec y 0 then PInf else NInf
  | PInf, PInf => NaN
  | PInf, NInf => NaN
  | NInf, PInf => NaN
  | NInf, NInf => NaN
  end.

(** [np.exp].  On a finite value it is the exponential of the real
    numbers: that [np.exp] overflows to +inf above 709.78 and underflows
    to 0 below -745.13 is rounding, which is not kept. *)
Definition xexp (a : xreal) : xreal :=
  match a with
  | Fin x => Fin (exp x)
  | PInf => PInf
  | NInf => Fin 0
  | NaN => NaN
  end.

(** [np.log]: minus infinity at zero, NaN below zero. *)
Definition xlog (a : xreal) : xreal :=
  match a with
  | Fin x => if Rlt_dec 0 x then Fin (ln x)
             else if Rlt_dec x 0 then NaN else NInf
  | PInf => PInf
  | NInf => NaN
  | NaN => NaN
  end.

Definition xabs (a : xreal) : xreal :=
  match a with
  | Fin x => Fin (Rabs x)
  | PInf => PInf
  | NInf => PInf
  | NaN => NaN
  end.

(** The maximum as [np.max] takes it: a NaN wins. *)
Definition xmax (a b : xreal) : xreal :=
  match a, b with
  | NaN, _ => NaN
  | _, NaN => NaN
  | PInf, _ => PInf
  | _, PInf => PInf
  | NInf, y => y
  | x, NInf => x
  | Fin x, Fin y => Fin (Rmax x y)
  end.

(** [a > b] as Python evaluates it: false as soon as a NaN is involved. *)
Definition xgt (a b : xreal) : bool :=
  match a, b with
  | NaN, _ => false
  | _, NaN => false
  | Fin x, Fin y => Rltb y x
  | PInf, PInf => false
  | PInf, _ => true
  | _, PInf => false
  | NInf, _ => false
  | Fin _, NInf => true
  end.

(** ** Outcomes of a computation *)

Inductive exn : Type :=
| ValueError   (* numpy: operands could not be broadcast, shapes not
                  aligned, zero-size array to reduction operation *)
| NameError.   (* Python: a name read before it was bound *)

Inductive exec (X : Type) : Type :=
| Done (x : X)
| Raise (e : exn)
| Unfinished.  (* the fuel of a loop ran out *)

Arguments Done {X} x.
Arguments Raise {X} e.
Arguments Unfinished {X}.

Definition bind {X Y : Type} (c : exec X) (k : X -> exec Y) : exec Y :=
  match c with
  | Done x => k x
  | Raise e => Raise e
  | Unfinished => Unfinished
  end.

Notation "x <- c ;; k" := (bind c (fun x => k))
  (at level 61, c at next level, right associativity).

(** [while guard: body], on a state; every turn of the loop costs one
    unit of fuel. *)
Fixpoint while_loop {S : Type} (fuel : nat) (guard : S -> bool)
  (body : S -> exec S) (s : S) : exec S :=
  match fuel with
  | O => Unfinished
  | S fuel' =>
      if guard s then
        s' <- body s ;;
        while_loop fuel' guard body s'
      else Done s
  end.

(** The loop body run [k] times, whatever the guard says. *)
Fixpoint iterate {S : Type} (k : nat) (body : S -> exec S) (s : S) : exec S :=
  match k with
  | O => Done s
  | S k' => s' <- iterate k' body s ;; body s'
  end.

(** ** numpy arrays: one-dimensional as lists, two-dimensional as lists of rows *)

Definition vec : Type := list xreal.
Definition mat : Type := list (list xreal).

Definition nrows (M : mat) : nat := length M.
Definition ncols (M : mat) : nat := length (hd [] M).
Definition vget (v : vec) (i : nat) : xreal := nth i v NaN.
Definition get (M : mat) (i j : nat) : xreal := nth j (nth i M []) NaN.

Definition tabv {X : Type} (n : nat) (f : nat -> X) : list X :=
  map f (seq 0 n).
Definition tab2 {X : Type} (n m : nat) (f : nat -> nat -> X) : list (list X) :=
  tabv n (fun i => tabv m (f i)).

Definition map_mat (f : xreal -> xreal) (M : mat) : mat := map (map f) M.

(** The broadcasting rule for one axis: equal lengths, or one of them 1. *)
Definition bdim (a b : nat) : option nat :=
  if (a =? b)%nat then Some a
  else if (a =? 1)%nat then Some b
  else if (b =? 1)%nat then Some a
  else None.

(** An axis of length 1 is read at index 0 whatever the index asked. *)
Definition bidx (dim i : nat) : nat := if (dim =? 1)%nat then 0%nat else i.

Definition bcast1 (f : xreal -> xreal -> xreal) (u v : vec) : exec vec :=
  match bdim (length u) (length v) with
  | Some n =>
      Done (tabv n (fun i => f (vget u (bidx (length u) i))
                               (vget v (bidx (length v) i))))
  | None => Raise ValueError
  end.

Definition bcast2 (f : xreal -> xreal -> xreal) (M N : mat) : exec mat :=
  match bdim (nrows M) (nrows N), bdim (ncols M) (ncols N) with
  | Some r, Some c =>
      Done (tab2 r c (fun i j =>
              f (get M (bidx (nrows M) i) (bidx (ncols M) j))
                (get N (bidx (nrows N) i) (bidx (ncols N) j))))
  | _, _ => Raise ValueError
  end.

(** A one-dimensional operand of a two-dimensional operation is a single row. *)
Definition as_row (v : vec) : mat := [v].

(** [X.T] *)
Definition transpose (M : mat) : mat :=
  tab2 (ncols M) (nrows M) (fun j i => get M i j).

(** [np.reshape(X, (X.size, 1))], the notebook's [two_d], on a
    one-dimensional array. *)
Definition two_d (v : vec) : mat := map (fun x => [x]) v.

(** [X.flatten()] and [X.flatten(order='F')] *)
Definition flatten (M : mat) : vec := concat M.
Definition flattenF (M : mat) : vec := concat (transpose M).

(** [np.repeat(x, k)] of a scalar, and [np.repeat(M, k, axis = 1)] *)
Definition np_repeat (x : xreal) (k : nat) : vec := repeat x k.
Definition repeat_axis1 (M : mat) (k : nat) : mat :=
  tab2 (nrows M) (ncols M * k) (fun i j => get M i (j / k)).

Definition xsum (l : vec) : xreal := fold_right xadd (Fin 0) l.

Definition column (M : mat) (j : nat) : vec := map (fun r => vget r j) M.

(** [np.sum(M)], [np.sum(M, axis=0)], [np.sum(M, axis=1)] *)
Definition np_sum (M : mat) : xreal := xsum (flatten M).
Definition sum_axis0 (M : mat) : vec :=
  tabv (ncols M) (fun j => xsum (column M j)).
Definition sum_axis1 (M : mat) : vec := map xsum M.

(** The maximum of a list that is not empty. *)
Definition fold_max (l : vec) : xreal :=
  match l with
  | [] => NaN
  | x :: l' => fold_left xmax l' x
  end.

(** [np.max(v)] and [np.max(M)]: an empty array has no maximum. *)
Definition np_max1 (v : vec) : exec xreal :=
  match v with
  | [] => Raise ValueError
  | _ => Done (fold_max v)
  end.
Definition np_max (M : mat) : exec xreal := np_max1 (flatten M).

(** [np.max(M, axis=0)] *)
Definition max_axis0 (M : mat) : exec vec :=
  match M with
  | [] => Raise ValueError
  | _ => Done (tabv (ncols M) (fun j => fold_max (column M j)))
  end.

(** [M @ N] *)
Definition matmul (M N : mat) : exec mat :=
  if (ncols M =? nrows N)%nat then
    Done (tab2 (nrows M) (ncols N) (fun i j =>
            xsum (tabv (ncols M) (fun l => xmul (get M i l) (get N l j)))))
  else Raise ValueError.

(** ** The outcome of a solve *)

Inductive status : Type := Converged | MaxIterationsExceeded.

(** What the cell prints: the cap reached, or convergence. *)
Definition status_of (ite maxite : nat) : status :=
  if (maxite <=? ite)%nat then MaxIterationsExceeded else Converged.

(** ** Cell 5: matrix IPFP *)

Definition kernel (Phi : mat) (sigma : xreal) : mat :=
  map_mat xexp (map_mat (fun x => xdiv x sigma) Phi).

Record matrix_state : Type := {
  mA : option mat;    (* [A], unbound until the loop body has run *)
  mB : mat;
  merror : xreal;
  mite : nat
}.

(** The loop body: A, KA, error, B, in that order. *)
Definition matrix_body (K : mat) (p q : vec) (s : matrix_state)
  : exec matrix_state :=
  KB <- matmul K (mB s) ;;
  a <- bcast1 xdiv p (flattenF KB) ;;
  let A := two_d a in
  KA <- matmul (transpose A) K ;;
  bq <- bcast1 xdiv (flatten (mB s)) q ;;
  t <- bcast2 xmul KA (as_row bq) ;;
  error <- np_max (map_mat xabs (map_mat (fun x => xsub x (Fin 1)) t)) ;;
  qKA <- bcast2 xdiv (as_row q) KA ;;
  Done {| mA := Some A; mB := transpose qKA; merror := error;
          mite := S (mite s) |}.

(** [error > tol and ite < maxite] *)
Definition matrix_guard (tol : xreal) (maxite : nat) (s : matrix_state) : bool :=
  xgt (merror s) tol && (mite s <? maxite)%nat.

Definition matrix_loop (fuel : nat) (K : mat) (p q : vec) (tol : xreal)
  (maxite : nat) (s : matrix_state) : exec matrix_state :=
  while_loop fuel (matrix_guard tol maxite) (matrix_body K p q) s.

Record matrix_result : Type := {
  r_u : mat;
  r_v : mat;
  r_pi : mat;
  r_val : xreal;
  r_ite : nat;
  r_status : status
}.

(** [B = two_d(np.repeat(1, nbY))], [error = tol + 1], [ite = 0].  The
    sum is the exact one, always above [tol]; in doubles it is above
    [tol] for |tol| < 2^53 and can round back to [tol] from there on
    (see [entering_tol]). *)
Definition matrix_init (nbY : nat) (tol : xreal) : matrix_state :=
  {| mA := None; mB := two_d (np_repeat (Fin 1) nbY);
     merror := xadd tol (Fin 1); mite := 0 |}.

(** [pi = (K * A) * np.repeat(B, 5, axis = 1).T] *)
Definition matrix_pi (K A B : mat) : exec mat :=
  KA <- bcast2 xmul K A ;;
  bcast2 xmul KA (transpose (repeat_axis1 B 5)).

(** [val = np.sum(pi * Phi) - sigma * np.sum(pi * np.log(pi))] *)
Definition objective (Phi pi : mat) (sigma : xreal) : exec xreal :=
  piPhi <- bcast2 xmul pi Phi ;;
  pilog <- bcast2 xmul pi (map_mat xlog pi) ;;
  Done (xsub (np_sum piPhi) (xmul sigma (np_sum pilog))).

Definition matrix_IPFP (Phi : mat) (p q : vec) (nbY : nat) (tol : xreal)
  (maxite : nat) (sigma : xreal) : exec matrix_result :=
  let K := kernel Phi sigma in
  s <- matrix_loop (S maxite) K p q tol maxite (matrix_init nbY tol) ;;
  A <- match mA s with Some A => Done A | None => Raise NameError end ;;
  let u := map_mat (xmul (xneg sigma)) (map_mat xlog A) in
  let v := map_mat (xmul (xneg sigma)) (map_mat xlog (mB s)) in
  pi <- matrix_pi K A (mB s) ;;
  val <- objective Phi pi sigma ;;
  Done {| r_u := u; r_v := v; r_pi := pi; r_val := val; r_ite := mite s;
          r_status := status_of (mite s) maxite |}.

(** ** Cells 6 and 7: what they share *)

(** [np.repeat(two_d(v), nbX, axis = 1).T]: the row [v], [nbX] times. *)
Definition rows_of (v : vec) (nbX : nat) : mat :=
  transpose (repeat_axis1 (two_d v) nbX).

(** [X / sigma] and [np.exp(X / sigma)] on a matrix *)
Definition over_sigma (sigma : xreal) (M : mat) : mat :=
  map_mat (fun x => xdiv x sigma) M.
Definition exp_over_sigma (sigma : xreal) (M : mat) : mat :=
  map_mat xexp (over_sigma sigma M).

(** [- sigma * np.log(p)] *)
Definition neg_sigma_log (sigma : xreal) (p : vec) : vec :=
  map (xmul (xneg sigma)) (map xlog p).

(** [sigma * np.log(s)] *)
Definition sigma_log (sigma : xreal) (s : vec) : vec :=
  map (xmul sigma) (map xlog s).

(** [pi = np.exp((Phi - two_d(u) - np.repeat(two_d(v), nbX, axis = 1).T) / sigma)] *)
Definition coupling (Phi : mat) (u v : vec) (nbX : nat) (sigma : xreal)
  : exec mat :=
  d <- bcast2 xsub Phi (two_d u) ;;
  d' <- bcast2 xsub d (rows_of v nbX) ;;
  Done (exp_over_sigma sigma d').

Record log_result : Type := {
  l_u : vec;
  l_v : vec;
  l_pi : mat;
  l_val : xreal;
  l_ite : nat;
  l_status : status
}.


(** ** Cell 6: log-domain IPFP *)

Record log_state : Type := {
  lu : option vec;    (* [u], unbound until the loop body has run *)
  lv : vec;
  lerror : xreal;
  lite : nat
}.

Definition log_body (Phi : mat) (q mu nu : vec) (nbX : nat) (sigma : xreal)
  (s : log_state) : exec log_state :=
  d <- bcast2 xsub Phi (rows_of (lv s) nbX) ;;
  u <- bcast1 xadd mu (sigma_log sigma (sum_axis1 (exp_over_sigma sigma d))) ;;
  d' <- bcast2 xsub Phi (two_d u) ;;
  let KA := sum_axis0 (exp_over_sigma sigma d') in
  t <- bcast1 xmul KA (map xexp (map (fun x => xdiv (xneg x) sigma) (lv s))) ;;
  t' <- bcast1 xdiv t q ;;
  error <- np_max1 (map xabs (map (fun x => xsub x (Fin 1)) t')) ;;
  v <- bcast1 xadd nu (sigma_log sigma KA) ;;
  Done {| lu := Some u; lv := v; lerror := error; lite := S (lite s) |}.

Definition log_guard (tol : xreal) (maxite : nat) (s : log_state) : bool :=
  xgt (lerror s) tol && (lite s <? maxite)%nat.

Definition log_loop (fuel : nat) (Phi : mat) (q mu nu : vec) (nbX : nat)
  (sigma tol : xreal) (maxite : nat) (s : log_state) : exec log_state :=
  while_loop fuel (log_guard tol maxite) (log_body Phi q mu nu nbX sigma) s.

(** [v = np.repeat(0, nbY)], [error = tol + 1], [ite = 0]; the sum is exact,
    as in [matrix_init]. *)
Definition log_init (nbY : nat) (tol : xreal) : log_state :=
  {| lu := None; lv := np_repeat (Fin 0) nbY;
     lerror := xadd tol (Fin 1); lite := 0 |}.

Definition log_IPFP (Phi : mat) (p q : vec) (nbX nbY : nat) (tol : xreal)
  (maxite : nat) (sigma : xreal) : exec log_result :=
  let mu := neg_sigma_log sigma p in
  let nu := neg_sigma_log sigma q in
  s <- log_loop (S maxite) Phi q mu nu nbX sigma tol maxite (log_init nbY tol) ;;
  u <- match lu s with Some u => Done u | None => Raise NameError end ;;
  pi <- coupling Phi u (lv s) nbX sigma ;;
  val <- objective Phi pi sigma ;;
  Done {| l_u := u; l_v := lv s; l_pi := pi; l_val := val; l_ite := lite s;
          l_status := status_of (lite s) maxite |}.

(** ** Cell 7: IPFP with the log-sum-exp trick *)

(** [uprec] is the scalar [np.NINF] at first and an array afterwards. *)
Inductive previous : Type :=
| Scalar (x : xreal)
| Array (u : vec).

(** [u - uprec] *)
Definition sub_previous (u : vec) (uprec : previous) : exec vec :=
  match uprec with
  | Scalar x => Done (map (fun y => xsub y x) u)
  | Array w => bcast1 xsub u w
  end.

Record lse_state : Type := {
  su : option vec;    (* [u], unbound until the loop body has run *)
  sv : vec;
  suprec : previous;
  serror : xreal;
  site : nat
}.

(** [vstar = np.max(Phi.T - two_d(v), axis = 0)] *)
Definition lse_vstar (Phi : mat) (v : vec) : exec vec :=
  d <- bcast2 xsub (transpose Phi) (two_d v) ;;
  max_axis0 d.

(** [ustar = np.max(Phi - two_d(u), axis = 0)] *)
Definition lse_ustar (Phi : mat) (u : vec) : exec vec :=
  d <- bcast2 xsub Phi (two_d u) ;;
  max_axis0 d.

(** What the u-update hands to [np.exp]:
    [(Phi - np.repeat(two_d(v), nbX, axis = 1).T - two_d(vstar)) / sigma] *)
Definition lse_u_exponents (Phi : mat) (v vstar : vec) (nbX : nat)
  (sigma : xreal) : exec mat :=
  d <- bcast2 xsub Phi (rows_of v nbX) ;;
  d' <- bcast2 xsub d (two_d vstar) ;;
  Done (over_sigma sigma d').

(** What the v-update hands to [np.exp]:
    [(Phi - two_d(u) - np.repeat(two_d(ustar), nbX, axis = 1).T) / sigma] *)
Definition lse_v_exponents (Phi : mat) (u ustar : vec) (nbX : nat)
  (sigma : xreal) : exec mat :=
  d <- bcast2 xsub Phi (two_d u) ;;
  d' <- bcast2 xsub d (rows_of ustar nbX) ;;
  Done (over_sigma sigma d').

Definition lse_body (Phi : mat) (mu nu : vec) (nbX : nat) (sigma : xreal)
  (s : lse_state) : exec lse_state :=
  vstar <- lse_vstar Phi (sv s) ;;
  t <- bcast1 xadd mu vstar ;;
  e <- lse_u_exponents Phi (sv s) vstar nbX sigma ;;
  u <- bcast1 xadd t (sigma_log sigma (sum_axis1 (map_mat xexp e))) ;;
  d <- sub_previous u (suprec s) ;;
  error <- np_max1 (map xabs d) ;;
  ustar <- lse_ustar Phi u ;;
  e' <- lse_v_exponents Phi u ustar nbX sigma ;;
  let KA := sum_axis0 (map_mat xexp e') in
  t' <- bcast1 xadd nu ustar ;;
  v <- bcast1 xadd t' (sigma_log sigma KA) ;;
  Done {| su := Some u; sv := v; suprec := Array u; serror := error;
          site := S (site s) |}.

Definition lse_guard (tol : xreal) (maxite : nat) (s : lse_state) : bool :=
  xgt (serror s) tol && (site s <? maxite)%nat.

Definition lse_loop (fuel : nat) (Phi : mat) (mu nu : vec) (nbX : nat)
  (sigma tol : xreal) (maxite : nat) (s : lse_state) : exec lse_state :=
  while_loop fuel (lse_guard tol maxite) (lse_body Phi mu nu nbX sigma) s.

(** [v = np.repeat(0, nbY)], [uprec = np.NINF], [error = tol + 1],
    [ite = 0]; the sum is exact, as in [matrix_init]. *)
Definition lse_init (nbY : nat) (tol : xreal) : lse_state :=
  {| su := None; sv := np_repeat (Fin 0) nbY; suprec := Scalar NInf;
     serror := xadd tol (Fin 1); site := 0 |}.

Definition lse_IPFP (Phi : mat) (p q : vec) (nbX nbY : nat) (tol : xreal)
  (maxite : nat) (sigma : xreal) : exec log_result :=
  let mu := neg_sigma_log sigma p in
  let nu := neg_sigma_log sigma q in
  s <- lse_loop (S maxite) Phi mu nu nbX sigma tol maxite (lse_init nbY tol) ;;
  u <- match su s with Some u => Done u | None => Raise NameError end ;;
  pi <- coupling Phi u (sv s) nbX sigma ;;
  val <- objective Phi pi sigma ;;
  Done {| l_u := u; l_v := sv s; l_pi := pi; l_val := val; l_ite := site s;
          l_status := status_of (site s) maxite |}.

(** What cell 7 does once its loop is over. *)
Definition lse_finish (Phi : mat) (nbX : nat) (sigma : xreal) (maxite : nat)
  (s : lse_state) : exec log_result :=
  u <- match su s with Some u => Done u | None => Raise NameError end ;;
  pi <- coupling Phi u (sv s) nbX sigma ;;
  val <- objective Phi pi sigma ;;
  Done {| l_u := u; l_v := sv s; l_pi := pi; l_val := val; l_ite := site s;
          l_status := status_of (site s) maxite |}.

(** ** The cells index by index, on values of any kind

    What the array expressions of the loop bodies compute at each index
    when the shapes fit, special values included. *)

Definition x_scale_rows (m : nat) (K : nat -> nat -> xreal) (p b : nat -> xreal)
  : nat -> xreal :=
  fun i => xdiv (p i) (xsum (tabv m (fun l => xmul (K i l) (b l)))).

Definition x_col_mass (n : nat) (K : nat -> nat -> xreal) (a : nat -> xreal)
  : nat -> xreal :=
  fun j => xsum (tabv n (fun l => xmul (a l) (K l j))).

Definition x_marginal_error (n m : nat) (K : nat -> nat -> xreal)
  (q a b : nat -> xreal) : xreal :=
  fold_max (tabv m (fun j =>
    xabs (xsub (xmul (x_col_mass n K a j) (xdiv (b j) (q j))) (Fin 1)))).

Definition x_scale_cols (n : nat) (K : nat -> nat -> xreal) (q a : nat -> xreal)
  : nat -> xreal :=
  fun j => xdiv (q j) (x_col_mass n K a j).

(** The previous u, as the loop of cell 7 keeps it. *)
Definition previous_at (n : nat) (w : nat -> xreal) (first : bool) : previous :=
  if first then Scalar NInf else Array (tabv n w).

Definition x_row_max (m : nat) (F : nat -> nat -> xreal) (v : nat -> xreal)
  : nat -> xreal :=
  fun i => fold_max (tabv m (fun j => xsub (F i j) (v j))).

Definition x_stab_u (m : nat) (F : nat -> nat -> xreal) (mu v : nat -> xreal)
  (sigma : xreal) : nat -> xreal :=
  fun i =>
    xadd (xadd (mu i) (x_row_max m F v i))
      (xmul sigma
         (xlog (xsum (tabv m (fun j =>
            xexp (xdiv (xsub (xsub (F i j) (v j)) (x_row_max m F v i)) sigma)))))).

Definition x_col_max (n : nat) (F : nat -> nat -> xreal) (u : nat -> xreal)
  : nat -> xreal :=
  fun j => fold_max (tabv n (fun i => xsub (F i j) (u i))).

Definition x_stab_v (n : nat) (F : nat -> nat -> xreal) (nu u : nat -> xreal)
  (sigma : xreal) : nat -> xreal :=
  fun j =>
    xadd (xadd (nu j) (x_col_max n F u j))
      (xmul sigma
         (xlog (xsum (tabv n (fun i =>
            xexp (xdiv (xsub (xsub (F i j) (u i)) (x_col_max n F u j)) sigma)))))).

Definition x_change (n : nat) (u w : nat -> xreal) (first : bool) : xreal :=
  fold_max (tabv n (fun i => xabs (xsub (u i) (if first then NInf else w i)))).

(** The states of cell 5 whose arrays have the lengths of the problem. *)
Definition matrix_shaped (n m : nat) (s : matrix_state) : Prop :=
  (exists b, mB s = two_d (tabv m b)) /\
  ((0 < mite s)%nat -> exists a, mA s = Some (two_d (tabv n a))).

(** The states of cell 7 whose arrays have the lengths of the problem. *)
Definition lse_shaped (n m : nat) (s : lse_state) : Prop :=
  (exists v, sv s = tabv m v) /\
  (exists w first, suprec s = previous_at n w first) /\
  ((0 < site s)%nat -> exists U, su s = Some (tabv n U)).

(** The states of cell 7 with a v of length [m] and a u, bound or not
    yet, of length [k]. *)
Definition lse_lengths (k m : nat) (s : lse_state) : Prop :=
  (exists v, sv s = tabv m v) /\
  (exists w first, suprec s = previous_at k w first) /\
  (su s = None \/ exists U, su s = Some (tabv k U)).

Definition pinf_or_nan (x : xreal) : Prop := x = PInf \/ x = NaN.

(** The states of cell 7 whose u, once bound, is plus infinity or NaN
    at index [i]. *)
Definition lse_unbounded_at (n m i : nat) (s : lse_state) : Prop :=
  (exists v, sv s = tabv m v) /\
  (exists w first, suprec s = previous_at n w first) /\
  ((0 < site s)%nat ->
   exists U, su s = Some (tabv n U) /\ pinf_or_nan (U i)).

(** ** The scaling engine on real numbers

    The three iterations as section 4 of the specification writes them:
    index by index, on real numbers, with sums and maxima over the index
    ranges.  The cells above are compared with these. *)

Definition Rsum (n : nat) (f : nat -> R) : R :=
  fold_right Rplus 0 (map f (seq 0 n)).

(** The maximum of [f 0 .. f (n-1)], for [n] at least 1. *)
Definition Rmaxn (n : nat) (f : nat -> R) : R :=
  match map f (seq 0 n) with
  | [] => 0
  | x :: l => fold_left Rmax l x
  end.

(** Arrays of finite values. *)
Definition evec (n : nat) (f : nat -> R) : vec := tabv n (fun i => Fin (f i)).
Definition emat (n m : nat) (F : nat -> nat -> R) : mat :=
  tab2 n m (fun i j => Fin (F i j)).
Definition of_list (l : list R) : nat -> R := fun i => nth i l 0.
Definition of_rows (L : list (list R)) : nat -> nat -> R :=
  fun i j => nth j (nth i L []) 0.

Section Engine.

Variables n m : nat.
Variable phi : nat -> nat -> R.
Variables p q : nat -> R.
Variable sigma : R.

(** Kernel matrix, K = exp(Phi / sigma) *)
Definition Kernel (i j : nat) : R := exp (phi i j / sigma).

(** *** 4.1, linear domain *)

(** a_i <- p_i / sum_j K_ij b_j *)
Definition scale_rows (b : nat -> R) : nat -> R :=
  fun i => p i / Rsum m (fun j => Kernel i j * b j).

(** sum_i a_i K_ij *)
Definition col_mass (a : nat -> R) : nat -> R :=
  fun j => Rsum n (fun i => a i * Kernel i j).

(** max over j of |(sum_i a_i K_ij) b_j / q_j - 1| *)
Definition marginal_error (a b : nat -> R) : R :=
  Rmaxn m (fun j => Rabs (col_mass a j * (b j / q j) - 1)).

(** b_j <- q_j / sum_i K_ij a_i *)
Definition scale_cols (a : nat -> R) : nat -> R :=
  fun j => q j / col_mass a j.

(** b after [k] iterations, from b = all-ones. *)
Fixpoint sinkhorn_b (k : nat) : nat -> R :=
  match k with
  | O => fun _ => 1
  | S k' => scale_cols (scale_rows (sinkhorn_b k'))
  end.

(** a after [S k] iterations. *)
Definition sinkhorn_a (k : nat) : nat -> R := scale_rows (sinkhorn_b k).

(** pi_ij = a_i K_ij b_j *)
Definition scaled_kernel (a b : nat -> R) (i j : nat) : R :=
  Kernel i j * a i * b j.

(** *** 4.2, plain log domain *)

Definition mu_ (i : nat) : R := (- sigma) * ln (p i).
Definition nu_ (j : nat) : R := (- sigma) * ln (q j).

(** u_i <- mu_i + sigma log sum_j exp((Phi_ij - v_j) / sigma) *)
Definition log_u (v : nat -> R) : nat -> R :=
  fun i => mu_ i + sigma * ln (Rsum m (fun j => exp ((phi i j - v j) / sigma))).

Definition log_col (u : nat -> R) : nat -> R :=
  fun j => Rsum n (fun i => exp ((phi i j - u i) / sigma)).

(** v_j <- zeta_j + sigma log sum_i exp((Phi_ij - u_i) / sigma) *)
Definition log_v (u : nat -> R) : nat -> R :=
  fun j => nu_ j + sigma * ln (log_col u j).

Definition log_error (u v : nat -> R) : R :=
  Rmaxn m (fun j => Rabs (log_col u j * exp (- v j / sigma) / q j - 1)).

Fixpoint log_v_iter (k : nat) : nat -> R :=
  match k with
  | O => fun _ => 0
  | S k' => log_v (log_u (log_v_iter k'))
  end.

(** pi_ij = exp((Phi_ij - u_i - v_j) / sigma) *)
Definition gibbs (u v : nat -> R) (i j : nat) : R :=
  exp ((phi i j - u i - v j) / sigma).

(** *** 4.3, stabilized log domain *)

(** max_j (Phi_ij - v_j) *)
Definition row_max (v : nat -> R) : nat -> R :=
  fun i => Rmaxn m (fun j => phi i j - v j).

(** max_i (Phi_ij - u_i) *)
Definition col_max (u : nat -> R) : nat -> R :=
  fun j => Rmaxn n (fun i => phi i j - u i).

Definition u_exponent (v : nat -> R) (i j : nat) : R :=
  (phi i j - v j - row_max v i) / sigma.

Definition v_exponent (u : nat -> R) (i j : nat) : R :=
  (phi i j - u i - col_max u j) / sigma.

Definition stab_u (v : nat -> R) : nat -> R :=
  fun i => mu_ i + row_max v i
           + sigma * ln (Rsum m (fun j => exp (u_exponent v i j))).

Definition stab_v (u : nat -> R) : nat -> R :=
  fun j => nu_ j + col_max u j
           + sigma * ln (Rsum n (fun i => exp (v_exponent u i j))).

Fixpoint stab_v_iter (k : nat) : nat -> R :=
  match k with
  | O => fun _ => 0
  | S k' => stab_v (stab_u (stab_v_iter k'))
  end.

(** max_i |u_i - uprec_i| *)
Definition change (u u' : nat -> R) : R :=
  Rmaxn n (fun i => Rabs (u i - u' i)).

End Engine.

(** Scaling factors: a = exp(-u / sigma), b = exp(-v / sigma) *)
Definition scaling (sigma : R) (u : nat -> R) : nat -> R :=
  fun i => exp (- u i / sigma).

(** What a valid problem is here: at least one row and one column, a
    positive sigma, and marginals whose entries are all positive (with a
    zero entry [- sigma * np.log(p)] is infinite, and cells 5 and 6 divide
    by q).  The marginals are asked to sum to 1 only where a statement
    says so. *)
Definition valid (n m : nat) (p q : nat -> R) (sigma : R) : Prop :=
  (0 < n)%nat /\ (0 < m)%nat /\
  (forall i, (i < n)%nat -> 0 < p i) /\
  (forall j, (j < m)%nat -> 0 < q j) /\
  0 < sigma.

Definition positive_on (k : nat) (f : nat -> R) : Prop :=
  forall i, (i < k)%nat -> 0 < f i.

(** The tolerances at which the first test of the loops, [tol + 1 > tol],
    holds in doubles as it does on real numbers: those below 2^53 in
    size.  From 2^53 on the doubles are 2 apart or more, [tol + 1] can
    round back to [tol], and the loop is then not entered. *)
Definition entering_tol (tol : R) : Prop := Rabs tol < 2 ^ 53.

(** The regularized objective of a coupling with positive entries:
    sum_ij pi_ij Phi_ij - sigma sum_ij pi_ij log pi_ij *)
Definition Robjective (r m : nat) (F P : nat -> nat -> R) (sigma : R) : R :=
  Rsum r (fun i => Rsum m (fun j => P i j * F i j))
  - sigma * Rsum r (fun i => Rsum m (fun j => P i j * ln (P i j))).

(** The number of turns a loop takes when its guard at turn [k] is
    [continue k]: the first [k], counted from the start, where the guard
    fails. *)
Fixpoint first_exit (continue : nat -> bool) (k fuel : nat) : nat :=
  match fuel with
  | O => k
  | S fuel' => if continue k then first_exit continue (S k) fuel' else k
  end.

(** ** The runs of the three cells on a valid problem

    The states the loops go through, written from the iterates on real
    numbers: [k] is the number of turns done. *)

Section Runs.

Variables n m : nat.
Variable phi : nat -> nat -> R.
Variables p q : nat -> R.
Variable sigma : R.
Variable tol : R.
Variable maxite : nat.

(** *** Cell 5 *)

Definition sinkhorn_error (k : nat) : R :=
  match k with
  | O => tol + 1
  | S k' => marginal_error n m phi q sigma
              (sinkhorn_a n m phi p q sigma k') (sinkhorn_b n m phi p q sigma k')
  end.

Definition sinkhorn_continue (k : nat) : bool :=
  Rltb tol (sinkhorn_error k) && (k <? maxite)%nat.

Definition sinkhorn_turns : nat := first_exit sinkhorn_continue 0 maxite.

(** The coupling the cell builds from the last a and the last b. *)
Definition sinkhorn_pi (i j : nat) : R :=
  Kernel phi sigma i j
  * sinkhorn_a n m phi p q sigma (sinkhorn_turns - 1) i
  * sinkhorn_b n m phi p q sigma sinkhorn_turns j.

Definition matrix_state_at (k : nat) : matrix_state :=
  {| mA := match k with
           | O => None
           | S k' => Some (two_d (evec n (sinkhorn_a n m phi p q sigma k')))
           end;
     mB := two_d (evec m (sinkhorn_b n m phi p q sigma k));
     merror := Fin (sinkhorn_error k);
     mite := k |}.

(** *** Cell 6 *)

(** u after [S k] turns. *)
Definition log_u_iter (k : nat) : nat -> R :=
  log_u m phi p sigma (log_v_iter n m phi p q sigma k).





(** *** Cell 7 *)

(** u after [S k] turns. *)
Definition stab_u_iter (k : nat) : nat -> R :=
  stab_u m phi p sigma (stab_v_iter n m phi p q sigma k).

(** The error after [k] turns: [tol + 1] before the loop, the distance
    to [np.NINF] after the first turn, the change of u afterwards. *)
Definition stab_error_at (k : nat) : xreal :=
  match k with
  | O => Fin (tol + 1)
  | S O => PInf
  | S (S k') => Fin (change n (stab_u_iter (S k')) (stab_u_iter k'))
  end.

Definition stab_continue (k : nat) : bool :=
  xgt (stab_error_at k) (Fin tol) && (k <? maxite)%nat.

Definition stab_turns : nat := first_exit stab_continue 0 maxite.

Definition lse_state_at (k : nat) : lse_state :=
  {| su := match k with
           | O => None
           | S k' => Some (evec n (stab_u_iter k'))
           end;
     sv := evec m (stab_v_iter n m phi p q sigma k);
     suprec := match k with
               | O => Scalar NInf
               | S k' => Array (evec n (stab_u_iter k'))
               end;
     serror := stab_error_at k;
     site := k |}.

End Runs.

(** ** The smallest problem: one row, one column, no surplus *)

Definition zero_phi : nat -> nat -> R := fun _ _ => 0.
Definition ones : nat -> R := fun _ => 1.
Definition fifths : nat -> R := fun _ => 1 / 5.

(** ** The linear programs of the notebooks

    What the cells hand to the solver: the constraint matrix, built with
    Kronecker products, the objective vector and the right-hand side.
    The solver itself is not modelled; [A @ x] and [obj @ x] are read at
    a given point [x].  A scipy sparse matrix is written out in full,
    zeros included; the products below are taken at finite points, where
    a stored zero and a missing entry give the same sum. *)

(** [np.ones((r, c))] and [spr.identity(k)] *)
Definition np_ones (r c : nat) : mat := tab2 r c (fun _ _ => Fin 1).
Definition identity (k : nat) : mat :=
  tab2 k k (fun i j => if (i =? j)%nat then Fin 1 else Fin 0).

(** [spr.kron(A, B)] *)
Definition kron (A B : mat) : mat :=
  tab2 (nrows A * nrows B) (ncols A * ncols B) (fun i j =>
    xmul (get A (i / nrows B) (j / ncols B))
         (get B (i mod nrows B) (j mod ncols B))).

(** [spr.vstack([A, B])] *)
Definition vstack (A B : mat) : exec mat :=
  if (ncols A =? ncols B)%nat then Done (A ++ B) else Raise ValueError.

(** [np.hstack([p, q])] and [np.concatenate((p, q), axis = None)] of
    one-dimensional arrays *)
Definition hstack (p q : vec) : vec := p ++ q.

(** [A @ x] for a one-dimensional [x], and [obj @ x] *)
Definition matvec (A : mat) (x : vec) : exec vec :=
  if (ncols A =? length x)%nat then
    Done (tabv (nrows A) (fun i =>
            xsum (tabv (ncols A) (fun l => xmul (get A i l) (vget x l)))))
  else Raise ValueError.
Definition dot (a b : vec) : exec xreal :=
  if (length a =? length b)%nat then
    Done (xsum (tabv (length a) (fun l => xmul (vget a l) (vget b l))))
  else Raise ValueError.

(** [np.array(x).reshape([r, c])] of a one-dimensional [x] *)
Definition reshape (x : vec) (r c : nat) : exec mat :=
  if (length x =? r * c)%nat then
    Done (tab2 r c (fun i j => vget x (i * c + j)))
  else Raise ValueError.

(** The program of the regularization notebook: rows of [A1] pick a row of
    the coupling out of its column-major flattening, rows of [A2] a
    column. *)
Definition transport_A (nbX nbY : nat) : exec mat :=
  vstack (kron (np_ones 1 nbY) (identity nbX))
         (kron (identity nbY) (np_ones 1 nbX)).
Definition transport_obj (Phi : mat) : vec := flattenF Phi.
Definition transport_rhs (p q : vec) : vec := hstack p q.

(** The program of the assignment notebook, on the row-major flattening:
    [N = Phi.shape[0]], [M = Phi.shape[1]]; the one-dimensional
    [np.repeat(1, M)] is a single row to [spr.kron]. *)
Definition assignment_A (Phi : mat) : exec mat :=
  let N := nrows Phi in
  let M := ncols Phi in
  vstack (kron (identity N) (as_row (np_repeat (Fin 1) M)))
         (kron (as_row (np_repeat (Fin 1) N)) (identity M)).
Definition assignment_obj (Phi : mat) : vec := flatten Phi.

(** [solution = np.array(m.getAttr('x')).reshape(N, M)] *)
Definition assignment_solution (Phi : mat) (x : vec) : exec mat :=
  reshape x (nrows Phi) (ncols Phi).

(** [np.argwhere(row != 0)[0][0] + 1]: the place, counted from 1, of the
    first entry of the row that is not zero; None stands for the
    IndexError Python raises when there is none.  A NaN is not equal to
    zero. *)
Definition is_zero (x : xreal) : bool :=
  match x with
  | Fin r => if Req_dec_T r 0 then true else false
  | _ => false
  end.
Fixpoint first_nonzero (row : vec) : option nat :=
  match row with
  | [] => None
  | x :: row' =>
      if is_zero x then option_map S (first_nonzero row') else Some 0%nat
  end.
Definition partner (solution : mat) : option nat :=
  option_map S (first_nonzero (nth 0 solution [])).

(** ** The discrete choice notebook: the likelihood of the logit model

    [log_likelihood] and [grad_log_likelihood] read the globals
    [Phi_iy_k], [sigma], [nbchoices], [ninds] and [muhat_iy]; here they are
    the variables of a section.  The rows of [Phi_iy_k] go alternative by
    alternative: row [y * ninds + i] is individual [i] facing
    alternative [y]. *)

(** [np.amax(M, axis = 1)]: a row with no entry has no maximum. *)
Definition max_axis1 (M : mat) : exec vec :=
  if (ncols M =? 0)%nat then Raise ValueError else Done (map fold_max M).

(** [M[a:b,]]: the rows from [a] up to [b], as many as there are. *)
Definition slice_rows (M : mat) (a b : nat) : mat := firstn (b - a) (skipn a M).

(** The sum of two arrays of one shape. *)
Definition add_same (A B : mat) : exec mat :=
  if ((nrows A =? nrows B) && (ncols A =? ncols B))%nat then
    Done (tab2 (nrows A) (ncols A) (fun i j => xadd (get A i j) (get B i j)))
  else Raise ValueError.

(** [np.sum(blocks, axis = 0)] of a list of two-dimensional arrays, which
    numpy stacks first: they must have one shape.  (Of no block at all
    numpy returns the scalar 0.0, written here as a one-by-one array; the
    functions below never get there, [np.amax] has failed before.) *)
Definition sum_stack (blocks : list mat) : exec mat :=
  match blocks with
  | [] => Done [[Fin 0]]
  | M :: rest =>
      fold_left (fun acc B => A <- acc ;; add_same A B) rest (Done M)
  end.

(** [np.append(v, x)] and [v[:-1]] *)
Definition np_append (v : vec) (x : xreal) : vec := v ++ [x].
Definition drop_last (v : vec) : vec := removelast v.

Section Choice.

Variable Phi_iy_k : mat.
Variable sigma : xreal.
Variables nbchoices ninds : nat.
Variable muhat_iy : vec.

(** The lines the two functions share: [Xtheta], [max_i], [expPhi_iy]
    and [d_i]. *)
Definition choice_terms (theta : vec) : exec (vec * vec * mat * vec) :=
  Pt <- matvec Phi_iy_k theta ;;
  let Xtheta := map (fun x => xdiv x sigma) Pt in
  Xr <- reshape Xtheta nbchoices ninds ;;
  let Xthetamat_iy := transpose Xr in
  max_i <- max_axis1 Xthetamat_iy ;;
  d <- bcast2 xsub (transpose Xthetamat_iy) (as_row max_i) ;;
  let expPhi_iy := map_mat xexp (transpose d) in
  let d_i := sum_axis1 expPhi_iy in
  Done (Xtheta, max_i, expPhi_iy, d_i).

Definition log_likelihood (theta : vec) : exec xreal :=
  t <- choice_terms theta ;;
  let '(Xtheta, max_i, expPhi_iy, d_i) := t in
  Xmu <- bcast1 xmul Xtheta muhat_iy ;;
  let val := xsub (xsub (xsum Xmu) (xsum max_i))
               (xmul sigma (xsum (map xlog d_i))) in
  Done (xneg val).

Definition grad_log_likelihood (theta : vec) : exec vec :=
  t <- choice_terms theta ;;
  let '(Xtheta, max_i, expPhi_iy, d_i) := t in
  tm <- bcast2 xmul (transpose Phi_iy_k)
          (as_row (flatten (transpose expPhi_iy))) ;;
  let temp_mat := transpose tm in
  let list_temp :=
    map (fun i => slice_rows temp_mat (i * ninds) ((i + 1) * ninds))
      (seq 0 nbchoices) in
  n_i_k <- sum_stack list_temp ;;
  mrow <- reshape muhat_iy 1 (nbchoices * ninds) ;;
  mPhi <- matmul mrow Phi_iy_k ;;
  nd <- bcast2 xdiv (transpose n_i_k) (as_row d_i) ;;
  thegrad <- bcast1 xsub (flatten mPhi) (sum_axis1 nd) ;;
  Done (map xneg thegrad).

(** [temp] is the tuple of the extra arguments; the caller passes one, a
    numpy float, so that [1 / temp[0]] is numpy's division. *)
Definition log_likelihood_fixedtemp (subsetoftheta : vec) (temp0 : xreal)
  : exec xreal :=
  log_likelihood (np_append subsetoftheta (xdiv (Fin 1) temp0)).

Definition grad_log_likelihood_fixedtemp (subsetoftheta : vec) (temp0 : xreal)
  : exec vec :=
  g <- grad_log_likelihood (np_append subsetoftheta (xdiv (Fin 1) temp0)) ;;
  Done (drop_last g).

End Choice.

(** *** The likelihood on real numbers *)

Section Logit.

Variables C N K : nat.          (* nbchoices, ninds, the number of columns *)
Variable phi : nat -> nat -> R.
Variable mu : nat -> R.
Variable s : R.

(** (Phi theta)_r / sigma *)
Definition utility (theta : nat -> R) (r : nat) : R :=
  Rsum K (fun k => phi r k * theta k) / s.

(** The utility individual [i] has of alternative [y]. *)
Definition utility_of (theta : nat -> R) (i y : nat) : R :=
  utility theta (y * N + i).

Definition best (theta : nat -> R) (i : nat) : R :=
  Rmaxn C (utility_of theta i).

Definition weight (theta : nat -> R) (i y : nat) : R :=
  exp (utility_of theta i y - best theta i).

Definition weight_sum (theta : nat -> R) (i : nat) : R :=
  Rsum C (weight theta i).

(** log sum_y exp(utility of y), without the maximum taken out *)
Definition log_sum_utilities (theta : nat -> R) (i : nat) : R :=
  ln (Rsum C (fun y => exp (utility_of theta i y))).

Definition neg_log_lik (theta : nat -> R) : R :=
  - (Rsum (C * N) (fun r => utility theta r * mu r)
     - Rsum N (best theta)
     - s * Rsum N (fun i => ln (weight_sum theta i))).

Definition neg_grad (theta : nat -> R) (k : nat) : R :=
  - (Rsum (C * N) (fun r => mu r * phi r k)
     - Rsum N (fun i =>
         Rsum C (fun y => phi (y * N + i) k * weight theta i y)
         / weight_sum theta i)).

End Logit.

(** theta with [t] added to its k-th entry *)
Definition bump (theta : nat -> R) (k : nat) (t : R) : nat -> R :=
  fun k' => if (k' =? k)%nat then theta k' + t else theta k'.

(** theta made of [sub] followed by [x], as [np.append] writes it *)
Definition appended (k : nat) (sub : nat -> R) (x : R) : nat -> R :=
  fun j => if (j <? k)%nat then sub j else x.

(** *** The columns of the data brought to mean 0 and deviation 1 *)

(** [np.sqrt] *)
Definition xsqrt (a : xreal) : xreal :=
  match a with
  | Fin x => if Rlt_dec x 0 then NaN else Fin (sqrt x)
  | PInf => PInf
  | NInf => NaN
  | NaN => NaN
  end.

(** [M.mean(axis = 0)].  The sum and the quotient are the exact ones;
    numpy's are rounded, so that its mean of a column that holds one
    value all along can differ from that value in the last place. *)
Definition mean_axis0 (M : mat) : vec :=
  tabv (ncols M) (fun j => xdiv (xsum (column M j)) (Fin (INR (nrows M)))).

(** [M.std(axis = 0, ddof = k)]: the squares of the gaps to the mean,
    summed, divided by the number of rows less [k], under a square root.
    Exact as well: it is 0 on every constant column, where numpy's can be
    a tiny positive number when its mean is rounded. *)
Definition std_axis0 (M : mat) (ddof : nat) : vec :=
  tabv (ncols M) (fun j =>
    let mean := xdiv (xsum (column M j)) (Fin (INR (nrows M))) in
    let gaps := map (fun x => xsub x mean) (column M j) in
    xsqrt (xdiv (xsum (map (fun d => xmul d d) gaps))
                (Fin (INR (nrows M - ddof))))).

(** [((Phi_iy_k - phi_mean).T / phi_stdev[:,None]).T] *)
Definition standardize (Phi : mat) : exec mat :=
  let phi_mean := mean_axis0 Phi in
  let phi_stdev := std_axis0 Phi 1 in
  d <- bcast2 xsub Phi (as_row phi_mean) ;;
  z <- bcast2 xdiv (transpose d) (two_d phi_stdev) ;;
  Done (transpose z).

Section Moments.

Variable rows : nat.
Variable col : nat -> R.

Definition mean_of : R := Rsum rows col / INR rows.
Definition squares_of : R :=
  Rsum rows (fun r => (col r - mean_of) * (col r - mean_of)).
Definition deviation_of : R := sqrt (squares_of / INR (rows - 1)).
Definition standardized (r : nat) : R := (col r - mean_of) / deviation_of.

End Moments.

(** ** The marginals of the regularization notebook

    [np.repeat(1 / nbX, nbX)]; with nbX = 0 Python raises
    ZeroDivisionError before numpy is called, which None stands for. *)
Definition uniform_marginal (nbX : nat) : option vec :=
  if (nbX =? 0)%nat then None
  else Some (np_repeat (Fin (1 / INR nbX)) nbX).

(** ** A surplus with no interaction *)

(** Phi_ij = f_i + g_j *)
Definition separable (f g : nat -> R) : nat -> nat -> R := fun i j => f i + g j.

(** What the first update adds to every u_i on such a surplus:
    sigma log sum_j exp(g_j / sigma) *)
Definition first_shift (m : nat) (g : nat -> R) (sigma : R) : R :=
  sigma * ln (Rsum m (fun j => exp (g j / sigma))).

(** ** The layout of the discrete choice data and its linear program *)

(** [M[:, a:b]]: the columns from [a] up to [b], as many as there are. *)
Definition slice_cols (M : mat) (a b : nat) : mat :=
  map (fun row => firstn (b - a) (skipn a row)) M.

(** [muhat_iy]: the choices, read individual by individual, are laid out
    alternative by alternative:
    [choice.reshape(ninds, nbchoices).T.flatten()] *)
Definition muhat_of (choice : vec) (ninds nbchoices : nat) : exec vec :=
  M <- reshape choice ninds nbchoices ;;
  Done (flatten (transpose M)).

(** The first three columns of [Phi_iy_k], one dummy for each alternative
    but the first:
    [np.kron(np.identity(4)[0:4,1:4], np.repeat(1, ninds).reshape(ninds,1))] *)
Definition alternative_dummies (ninds : nat) : mat :=
  kron (slice_cols (slice_rows (identity 4) 0 4) 1 4)
       (two_d (np_repeat (Fin 1) ninds)).

(** [spr.hstack((A, B))] of two matrices *)
Definition mat_hstack (A B : mat) : exec mat :=
  if (nrows A =? nrows B)%nat then
    Done (tab2 (nrows A) (ncols A + ncols B) (fun i j =>
            if (j <? ncols A)%nat then get A i j else get B i (j - ncols A)))
  else Raise ValueError.

Section ChoiceProgram.

Variable Phi_iy_k : mat.
Variables nbchoices ninds nbK : nat.
Variable muhat_iy : vec.

(** [c], the objective: muhat Phi, then -1 for every individual *)
Definition choice_c : exec vec :=
  mrow <- reshape muhat_iy 1 (nbchoices * ninds) ;;
  mPhi <- matmul mrow Phi_iy_k ;;
  Done (hstack (flatten mPhi) (np_repeat (Fin (-1)) ninds)).

(** [cstMat]: minus the data, beside one identity for every alternative *)
Definition choice_cstMat : exec mat :=
  mat_hstack (map_mat xneg Phi_iy_k)
    (kron (two_d (np_repeat (Fin 1) nbchoices)) (identity ninds)).

(** [const_2]: zeros, a 1 at the last entry of theta, zeros *)
Definition choice_const_2 : vec :=
  np_repeat (Fin 0) (nbK - 1) ++ [Fin 1] ++ np_repeat (Fin 0) ninds.

End ChoiceProgram.

(** ** Cell 6 index by index, on values of any kind *)

Definition x_log_u (m : nat) (F : nat -> nat -> xreal) (mu v : nat -> xreal)
  (sigma : xreal) : nat -> xreal :=
  fun i =>
    xadd (mu i)
      (xmul sigma
         (xlog (xsum (tabv m (fun j => xexp (xdiv (xsub (F i j) (v j)) sigma)))))).

Definition x_log_col (n : nat) (F : nat -> nat -> xreal) (u : nat -> xreal)
  (sigma : xreal) : nat -> xreal :=
  fun j => xsum (tabv n (fun i => xexp (xdiv (xsub (F i j) (u i)) sigma))).

Definition x_log_error (n m : nat) (F : nat -> nat -> xreal)
  (q u v : nat -> xreal) (sigma : xreal) : xreal :=
  fold_max (tabv m (fun j =>
    xabs (xsub (xdiv (xmul (x_log_col n F u sigma j)
                        (xexp (xdiv (xneg (v j)) sigma)))
                  (q j))
            (Fin 1)))).

Definition x_log_v (n : nat) (F : nat -> nat -> xreal) (nu u : nat -> xreal)
  (sigma : xreal) : nat -> xreal :=
  fun j => xadd (nu j) (xmul sigma (xlog (x_log_col n F u sigma j))).

(** * Properties *)

(** ** Tabulated lists *)

Lemma tabv_length {X} n (f : nat -> X) : length (tabv n f) = n.
Proof. unfold tabv. now rewrite length_map, length_seq. Qed.

Lemma tabv_nth {X} n (f : nat -> X) i d :
  (i < n)%nat -> nth i (tabv n f) d = f i.
Proof.
  intros Hi. unfold tabv.
  rewrite (nth_indep _ d (f 0%nat)) by now rewrite length_map, length_seq.
  rewrite map_nth. now rewrite seq_nth.
Qed.

Lemma tabv_ext {X} n (f g : nat -> X) :
  (forall i, (i < n)%nat -> f i = g i) -> tabv n f = tabv n g.
Proof.
  intros H. unfold tabv. apply map_ext_in.
  intros i Hi. apply in_seq in Hi. apply H. lia.
Qed.

Lemma tab2_ext {X} n m (f g : nat -> nat -> X) :
  (forall i j, (i < n)%nat -> (j < m)%nat -> f i j = g i j) ->
  tab2 n m f = tab2 n m g.
Proof.
  intros H. unfold tab2. apply tabv_ext. intros i Hi.
  apply tabv_ext. intros j Hj. now apply H.
Qed.

Lemma tabv_map {X Y} (g : X -> Y) n (f : nat -> X) :
  map g (tabv n f) = tabv n (fun i => g (f i)).
Proof. unfold tabv. now rewrite map_map. Qed.

Lemma tabv_S {X} n (f : nat -> X) :
  tabv (S n) f = f 0%nat :: tabv n (fun i => f (S i)).
Proof.
  unfold tabv. simpl. f_equal. rewrite <- seq_shift. now rewrite map_map.
Qed.

Lemma tabv_self {X} (l : list X) d :
  tabv (length l) (fun i => nth i l d) = l.
Proof.
  apply (nth_ext _ _ d d).
  - apply tabv_length.
  - intros i Hi. rewrite tabv_length in Hi.
    exact (tabv_nth _ (fun k => nth k l d) i d Hi).
Qed.

Lemma evec_ext k f g :
  (forall i, (i < k)%nat -> f i = g i) -> evec k f = evec k g.
Proof. intros H. apply tabv_ext. intros i Hi. now rewrite H. Qed.

Lemma emat_ext n m F G :
  (forall i j, (i < n)%nat -> (j < m)%nat -> F i j = G i j) ->
  emat n m F = emat n m G.
Proof. intros H. apply tab2_ext. intros i j Hi Hj. now rewrite H. Qed.

(** Every array is a tabulated array: the theorems below, stated on
    tabulated arrays, are about all arrays of the shapes they name. *)
Lemma vec_tabulated (v : vec) : v = tabv (length v) (vget v).
Proof. symmetry. apply (tabv_self v NaN). Qed.

Lemma finite_vec_tabulated (l : list R) :
  map Fin l = evec (length l) (of_list l).
Proof.
  apply (nth_ext _ _ NaN NaN).
  - unfold evec. now rewrite length_map, tabv_length.
  - intros i Hi. rewrite length_map in Hi. unfold evec, of_list.
    rewrite (tabv_nth (length l) (fun i => Fin (nth i l 0)) i NaN Hi).
    rewrite (nth_indep _ NaN (Fin 0)) by now rewrite length_map.
    apply (map_nth Fin l 0 i).
Qed.

Lemma finite_mat_tabulated (L : list (list R)) (m : nat) :
  Forall (fun r => length r = m) L ->
  map (map Fin) L = emat (length L) m (of_rows L).
Proof.
  intros H. apply (nth_ext _ _ [] []).
  - unfold emat, tab2. now rewrite length_map, tabv_length.
  - intros i Hi. rewrite length_map in Hi. unfold emat, tab2.
    rewrite (tabv_nth (length L) (fun i => tabv m (fun j => Fin (of_rows L i j)))
               i [] Hi).
    rewrite (nth_indep _ [] (map Fin [])) by now rewrite length_map.
    rewrite (map_nth (map Fin) L [] i).
    assert (Hlen : length (nth i L []) = m).
    { rewrite Forall_forall in H. apply H. now apply nth_In. }
    rewrite finite_vec_tabulated, Hlen. reflexivity.
Qed.

(** ** Comparisons *)

Lemma Rltb_succ tol : Rltb tol (tol + 1) = true.
Proof.
  unfold Rltb. destruct (Rlt_dec tol (tol + 1)); [reflexivity|exfalso; lra].
Qed.

Lemma Rltb_false a b : Rltb a b = false <-> b <= a.
Proof.
  unfold Rltb. destruct (Rlt_dec a b); split; intros; try discriminate;
    try reflexivity; lra.
Qed.

Lemma Rltb_true a b : Rltb a b = true <-> a < b.
Proof.
  unfold Rltb. destruct (Rlt_dec a b); split; intros; try discriminate;
    try reflexivity; try assumption; contradiction.
Qed.

(** ** numpy operations on tabulated arrays *)

Lemma tab2_nrows n m (f : nat -> nat -> xreal) : nrows (tab2 n m f) = n.
Proof. apply tabv_length. Qed.

Lemma tab2_ncols n m (f : nat -> nat -> xreal) :
  (0 < n)%nat -> ncols (tab2 n m f) = m.
Proof.
  intros Hn. destruct n as [|n']; [lia|].
  unfold ncols, tab2. rewrite tabv_S. simpl. apply tabv_length.
Qed.

Lemma tab2_get n m (f : nat -> nat -> xreal) i j :
  (i < n)%nat -> (j < m)%nat -> get (tab2 n m f) i j = f i j.
Proof.
  intros Hi Hj. unfold get, tab2.
  rewrite (tabv_nth n (fun i => tabv m (f i)) i [] Hi).
  exact (tabv_nth m (f i) j NaN Hj).
Qed.

Lemma tabv_vget n (f : nat -> xreal) i : (i < n)%nat -> vget (tabv n f) i = f i.
Proof. intros Hi. exact (tabv_nth n f i NaN Hi). Qed.

Lemma two_d_tabv n (f : nat -> xreal) :
  two_d (tabv n f) = tab2 n 1 (fun i _ => f i).
Proof. unfold two_d. now rewrite tabv_map. Qed.

Lemma as_row_tabv m (f : nat -> xreal) :
  as_row (tabv m f) = tab2 1 m (fun _ j => f j).
Proof. reflexivity. Qed.

Lemma map_mat_tab2 g n m (f : nat -> nat -> xreal) :
  map_mat g (tab2 n m f) = tab2 n m (fun i j => g (f i j)).
Proof.
  unfold map_mat, tab2. rewrite tabv_map. apply tabv_ext.
  intros i _. apply tabv_map.
Qed.

Lemma transpose_tab2 n m (f : nat -> nat -> xreal) :
  (0 < n)%nat -> transpose (tab2 n m f) = tab2 m n (fun j i => f i j).
Proof.
  intros Hn. unfold transpose. rewrite tab2_nrows, tab2_ncols by assumption.
  apply tab2_ext. intros j i Hj Hi. now apply tab2_get.
Qed.

Lemma flatten_col n (g : nat -> nat -> xreal) :
  flatten (tab2 n 1 g) = tabv n (fun i => g i 0%nat).
Proof.
  unfold flatten, tab2, tabv. change (seq 0 1) with [0%nat].
  generalize (seq 0 n) as l.
  induction l as [|i l IH]; simpl; [reflexivity|]. f_equal. exact IH.
Qed.

Lemma flatten_row m (g : nat -> nat -> xreal) :
  flatten (tab2 1 m g) = tabv m (g 0%nat).
Proof. unfold flatten, tab2. simpl. apply app_nil_r. Qed.

Lemma flattenF_col n (g : nat -> nat -> xreal) :
  (0 < n)%nat -> flattenF (tab2 n 1 g) = tabv n (fun i => g i 0%nat).
Proof.
  intros Hn. unfold flattenF. rewrite transpose_tab2 by assumption.
  apply (flatten_row n (fun j i => g i j)).
Qed.

Lemma bidx_lt d i : (i < d)%nat -> bidx d i = i.
Proof.
  intros Hi. unfold bidx. destruct (Nat.eqb_spec d 1); [lia|reflexivity].
Qed.

Lemma bdim_refl a : bdim a a = Some a.
Proof. unfold bdim. now rewrite Nat.eqb_refl. Qed.

Lemma bdim_one_r a : bdim a 1 = Some a.
Proof.
  unfold bdim. destruct (Nat.eqb_spec a 1); [now subst|reflexivity].
Qed.

Lemma bdim_none a b : a <> b -> a <> 1%nat -> b <> 1%nat -> bdim a b = None.
Proof.
  intros H H1 H2. unfold bdim.
  destruct (Nat.eqb_spec a b); [contradiction|].
  destruct (Nat.eqb_spec a 1); [contradiction|].
  destruct (Nat.eqb_spec b 1); [contradiction|]. reflexivity.
Qed.

Lemma bdim_five n r : bdim n 5 = Some r -> r = 5%nat /\ (n = 5%nat \/ n = 1%nat).
Proof.
  unfold bdim. destruct (Nat.eqb_spec n 5); destruct (Nat.eqb_spec n 1);
    simpl; intros H; inversion H; subst; auto.
Qed.

Lemma bdim_bound a b r i :
  bdim a b = Some r -> (i < r)%nat -> (bidx a i < a)%nat /\ (bidx b i < b)%nat.
Proof.
  unfold bdim, bidx. intros H Hi.
  destruct (Nat.eqb_spec a b); destruct (Nat.eqb_spec a 1);
    destruct (Nat.eqb_spec b 1); inversion H; subst; lia.
Qed.

Lemma bcast2_tab2 op n m f n' m' g r c :
  (0 < n)%nat -> (0 < n')%nat ->
  bdim n n' = Some r -> bdim m m' = Some c ->
  bcast2 op (tab2 n m f) (tab2 n' m' g)
  = Done (tab2 r c (fun i j => op (f (bidx n i) (bidx m j))
                                  (g (bidx n' i) (bidx m' j)))).
Proof.
  intros Hn Hn' Hr Hc. unfold bcast2.
  rewrite !tab2_nrows, !tab2_ncols by assumption. rewrite Hr, Hc.
  f_equal. apply tab2_ext. intros i j Hi Hj.
  destruct (bdim_bound _ _ _ _ Hr Hi), (bdim_bound _ _ _ _ Hc Hj).
  now rewrite !tab2_get.
Qed.

Lemma bcast2_same op n m f g :
  (0 < n)%nat ->
  bcast2 op (tab2 n m f) (tab2 n m g)
  = Done (tab2 n m (fun i j => op (f i j) (g i j))).
Proof.
  intros Hn.
  rewrite (bcast2_tab2 op n m f n m g n m Hn Hn (bdim_refl n) (bdim_refl m)).
  f_equal. apply tab2_ext. intros i j Hi Hj. now rewrite !bidx_lt.
Qed.

Lemma bcast2_col op n m f g :
  (0 < n)%nat ->
  bcast2 op (tab2 n m f) (tab2 n 1 g)
  = Done (tab2 n m (fun i j => op (f i j) (g i 0%nat))).
Proof.
  intros Hn.
  rewrite (bcast2_tab2 op n m f n 1 g n m Hn Hn (bdim_refl n) (bdim_one_r m)).
  f_equal. apply tab2_ext. intros i j Hi Hj.
  rewrite (bidx_lt n i), (bidx_lt m j) by assumption. reflexivity.
Qed.

Lemma bcast2_mismatch op n m f n' m' g :
  (0 < n)%nat -> (0 < n')%nat -> bdim n n' = None ->
  bcast2 op (tab2 n m f) (tab2 n' m' g) = Raise ValueError.
Proof.
  intros Hn Hn' H. unfold bcast2. rewrite !tab2_nrows. now rewrite H.
Qed.

Lemma bcast1_tabv op n f g :
  bcast1 op (tabv n f) (tabv n g) = Done (tabv n (fun i => op (f i) (g i))).
Proof.
  unfold bcast1. rewrite !tabv_length, bdim_refl. f_equal.
  apply tabv_ext. intros i Hi. now rewrite !bidx_lt, !tabv_vget.
Qed.

Lemma bcast1_mismatch op k n f g :
  k <> n -> k <> 1%nat -> n <> 1%nat ->
  bcast1 op (tabv k f) (tabv n g) = Raise ValueError.
Proof.
  intros. unfold bcast1. rewrite !tabv_length. now rewrite bdim_none.
Qed.

Lemma column_tab2 n m (f : nat -> nat -> xreal) j :
  (j < m)%nat -> column (tab2 n m f) j = tabv n (fun i => f i j).
Proof.
  intros Hj. unfold column, tab2. rewrite tabv_map. apply tabv_ext.
  intros i _. now apply tabv_vget.
Qed.

Lemma sum_axis1_tab2 n m (f : nat -> nat -> xreal) :
  sum_axis1 (tab2 n m f) = tabv n (fun i => xsum (tabv m (f i))).
Proof. unfold sum_axis1, tab2. apply tabv_map. Qed.

Lemma sum_axis0_tab2 n m (f : nat -> nat -> xreal) :
  (0 < n)%nat ->
  sum_axis0 (tab2 n m f) = tabv m (fun j => xsum (tabv n (fun i => f i j))).
Proof.
  intros Hn. unfold sum_axis0. rewrite tab2_ncols by assumption.
  apply tabv_ext. intros j Hj. now rewrite column_tab2.
Qed.

Lemma max_axis0_tab2 n m (f : nat -> nat -> xreal) :
  (0 < n)%nat ->
  max_axis0 (tab2 n m f)
  = Done (tabv m (fun j => fold_max (tabv n (fun i => f i j)))).
Proof.
  intros Hn. unfold max_axis0.
  destruct (tab2 n m f) eqn:E.
  - apply (f_equal (@length _)) in E. unfold tab2 in E.
    rewrite tabv_length in E. simpl in E. lia.
  - rewrite <- E. rewrite tab2_ncols by assumption. f_equal.
    apply tabv_ext. intros j Hj. now rewrite column_tab2.
Qed.

Lemma matmul_tab2 n k m f g :
  (0 < n)%nat -> (0 < k)%nat ->
  matmul (tab2 n k f) (tab2 k m g)
  = Done (tab2 n m (fun i j => xsum (tabv k (fun l => xmul (f i l) (g l j))))).
Proof.
  intros Hn Hk. unfold matmul.
  rewrite !tab2_nrows, !tab2_ncols by assumption. rewrite Nat.eqb_refl.
  f_equal. apply tab2_ext. intros i j Hi Hj. f_equal.
  apply tabv_ext. intros l Hl. now rewrite !tab2_get.
Qed.

Lemma repeat_axis1_col r k (g : nat -> nat -> xreal) :
  (0 < r)%nat ->
  repeat_axis1 (tab2 r 1 g) k = tab2 r k (fun i _ => g i 0%nat).
Proof.
  intros Hr. unfold repeat_axis1.
  rewrite tab2_nrows, tab2_ncols by assumption. rewrite Nat.mul_1_l.
  apply tab2_ext. intros i j Hi Hj.
  rewrite Nat.div_small by assumption. apply tab2_get; [assumption|lia].
Qed.

Lemma np_repeat_tabv x k : np_repeat x k = tabv k (fun _ => x).
Proof.
  unfold np_repeat, tabv. generalize 0%nat as s.
  induction k as [|k IH]; intros s; simpl; [reflexivity|]. now rewrite <- IH.
Qed.

Lemma rows_of_tabv m (f : nat -> xreal) nbX :
  (0 < m)%nat -> rows_of (tabv m f) nbX = tab2 nbX m (fun _ j => f j).
Proof.
  intros Hm. unfold rows_of. rewrite two_d_tabv.
  rewrite repeat_axis1_col by assumption. now rewrite transpose_tab2.
Qed.

Lemma np_max1_tabv n (f : nat -> xreal) :
  (0 < n)%nat -> np_max1 (tabv n f) = Done (fold_max (tabv n f)).
Proof.
  intros Hn. destruct n as [|n']; [lia|]. now rewrite tabv_S.
Qed.

Lemma np_max_row m (f : nat -> nat -> xreal) :
  (0 < m)%nat -> np_max (tab2 1 m f) = Done (fold_max (tabv m (f 0%nat))).
Proof.
  intros Hm. unfold np_max. rewrite flatten_row. now apply np_max1_tabv.
Qed.

Lemma over_sigma_tab2 sigma n m (f : nat -> nat -> xreal) :
  over_sigma sigma (tab2 n m f) = tab2 n m (fun i j => xdiv (f i j) sigma).
Proof. apply map_mat_tab2. Qed.

Lemma exp_over_sigma_tab2 sigma n m (f : nat -> nat -> xreal) :
  exp_over_sigma sigma (tab2 n m f)
  = tab2 n m (fun i j => xexp (xdiv (f i j) sigma)).
Proof. unfold exp_over_sigma, over_sigma. now rewrite !map_mat_tab2. Qed.

Lemma sigma_log_tabv sigma k (f : nat -> xreal) :
  sigma_log sigma (tabv k f) = tabv k (fun i => xmul sigma (xlog (f i))).
Proof. unfold sigma_log. now rewrite !tabv_map. Qed.

Lemma neg_sigma_log_tabv sigma k (f : nat -> xreal) :
  neg_sigma_log sigma (tabv k f)
  = tabv k (fun i => xmul (xneg sigma) (xlog (f i))).
Proof. unfold neg_sigma_log. now rewrite !tabv_map. Qed.

(** The lemmas above as a rewriting system: [numpy] pushes the array
    operations of a cell through tabulated arrays, as far as shapes
    allow. *)
Create Rewrite HintDb numpy.
#[local] Hint Rewrite two_d_tabv as_row_tabv map_mat_tab2 flatten_col
  flatten_row bcast1_tabv sum_axis1_tab2 over_sigma_tab2 exp_over_sigma_tab2
  sigma_log_tabv neg_sigma_log_tabv (@tabv_map xreal xreal) np_repeat_tabv
  : numpy.
#[local] Hint Rewrite transpose_tab2 flattenF_col bcast2_same bcast2_col
  sum_axis0_tab2 max_axis0_tab2 matmul_tab2 repeat_axis1_col rows_of_tabv
  np_max1_tabv np_max_row using (assumption || lia) : numpy.

Ltac numpy := repeat (autorewrite with numpy; cbn [bind]).

(** ** Loops *)

Section Loops.

Context {S : Type}.
Variable guard : S -> bool.
Variable body : S -> exec S.

(** A loop whose states are known in advance runs through them up to
    the first one that fails the guard. *)
Lemma while_run (st : nat -> S) (N : nat) :
  forall fuel k,
    (N - k < fuel)%nat -> (k <= N)%nat ->
    (forall j, (k <= j < N)%nat ->
               guard (st j) = true /\ body (st j) = Done (st (Datatypes.S j))) ->
    guard (st N) = false ->
    while_loop fuel guard body (st k) = Done (st N).
Proof.
  induction fuel as [|fuel IH]; intros k Hf Hk Hstep Hexit; [lia|].
  simpl. destruct (Nat.eq_dec k N) as [->|Hne].
  - now rewrite Hexit.
  - destruct (Hstep k) as [Hg Hb]; [lia|]. rewrite Hg, Hb. simpl.
    apply IH; try lia; [|assumption]. intros j Hj. apply Hstep. lia.
Qed.

(** A loop whose body keeps an invariant and counts its turns below a
    cap comes to an end within the cap. *)
Lemma while_total (I : S -> Prop) (turns : S -> nat) (cap : nat) :
  (forall s, I s -> guard s = true ->
             exists s', body s = Done s' /\ I s' /\ turns s' = Datatypes.S (turns s)) ->
  (forall s, guard s = true -> (turns s < cap)%nat) ->
  forall fuel s,
    I s -> (cap - turns s < fuel)%nat ->
    exists r, while_loop fuel guard body s = Done r /\ I r /\
              guard r = false /\ (turns s <= turns r)%nat.
Proof.
  intros Hbody Hcap.
  induction fuel as [|fuel IH]; intros s Hs Hf; [lia|].
  simpl. destruct (guard s) eqn:Hg.
  - destruct (Hbody s Hs Hg) as (s' & Hb & Hs' & Ht).
    rewrite Hb. simpl.
    specialize (Hcap s Hg).
    destruct (IH s' Hs') as (r & Hr & HI & Hgr & Hle); [lia|].
    exists r. repeat split; try assumption. lia.
  - exists s. repeat split; try assumption. lia.
Qed.

Lemma iterate_run (st : nat -> S) k :
  (forall j, (j < k)%nat -> body (st j) = Done (st (Datatypes.S j))) ->
  iterate k body (st 0%nat) = Done (st k).
Proof.
  induction k as [|k IH]; intros H; [reflexivity|].
  simpl. rewrite IH by (intros; apply H; lia). simpl. apply H. lia.
Qed.

Lemma iterate_front k : forall s,
  iterate (Datatypes.S k) body s = (s' <- body s ;; iterate k body s').
Proof.
  induction k as [|k IH]; intros s.
  - cbn [iterate bind]. destruct (body s); reflexivity.
  - change (iterate (Datatypes.S (Datatypes.S k)) body s)
      with (s' <- iterate (Datatypes.S k) body s ;; body s').
    rewrite IH. destruct (body s); reflexivity.
Qed.

(** A loop that comes to an end has run its body up to the first state
    that fails the guard, and no further. *)
Lemma while_stops : forall fuel s r,
  while_loop fuel guard body s = Done r ->
  exists N,
    iterate N body s = Done r /\ guard r = false /\
    forall k, (k < N)%nat ->
      exists sk, iterate k body s = Done sk /\ guard sk = true.
Proof.
  induction fuel as [|fuel IH]; intros s r H; [discriminate|].
  cbn [while_loop] in H. destruct (guard s) eqn:Hg.
  - destruct (body s) as [s1| |] eqn:Hb; cbn [bind] in H; try discriminate.
    destruct (IH s1 r H) as (N & HN & Hr & Hk).
    exists (Datatypes.S N). split; [|split].
    + rewrite iterate_front, Hb. exact HN.
    + exact Hr.
    + intros [|k] Hlt.
      * exists s. split; [reflexivity|exact Hg].
      * destruct (Hk k) as (sk & Hsk & Hgk); [lia|].
        exists sk. split; [|exact Hgk]. rewrite iterate_front, Hb. exact Hsk.
  - injection H as <-. exists 0%nat. split; [reflexivity|].
    split; [exact Hg|]. intros k Hk. lia.
Qed.

(** A loop that fails its guard after two turns at the latest. *)
Lemma while_two s0 s1 s2 fuel :
  guard s0 = true -> body s0 = Done s1 ->
  body s1 = Done s2 -> guard s2 = false ->
  while_loop (3 + fuel) guard body s0
  = Done (if guard s1 then s2 else s1).
Proof.
  intros G0 B1 B2 G2. cbn [Nat.add while_loop]. rewrite G0, B1. cbn [bind].
  destruct (guard s1); [|reflexivity].
  rewrite B2. cbn [bind]. destruct fuel; cbn [while_loop]; now rewrite G2.
Qed.

End Loops.

Lemma first_exit_spec c fuel : forall k,
  let N := first_exit c k fuel in
  (k <= N <= k + fuel)%nat /\
  (forall j, (k <= j < N)%nat -> c j = true) /\
  ((N < k + fuel)%nat -> c N = false).
Proof.
  induction fuel as [|fuel IH]; intros k; simpl.
  - split; [lia|]. split; intros; lia.
  - destruct (c k) eqn:Hc.
    + destruct (IH (Datatypes.S k)) as (Hb & Ht & Hf).
      split; [lia|]. split.
      * intros j Hj. destruct (Nat.eq_dec j k) as [->|]; [assumption|].
        apply Ht. lia.
      * intros H. apply Hf. lia.
    + split; [lia|]. split.
      * intros j Hj. lia.
      * intros _. assumption.
Qed.

Lemma first_exit_stop c cap :
  c cap = false ->
  let N := first_exit c 0 cap in
  (N <= cap)%nat /\ (forall j, (j < N)%nat -> c j = true) /\ c N = false.
Proof.
  intros Hc N. destruct (first_exit_spec c cap 0) as (Hb & Ht & Hf).
  fold N in Hb, Ht, Hf. repeat split.
  - lia.
  - intros j Hj. apply Ht. lia.
  - destruct (Nat.eq_dec N cap) as [->|]; [assumption|]. apply Hf. lia.
Qed.


Lemma continue_pos c maxite :
  c 0%nat = true -> (0 < maxite)%nat -> (0 < first_exit c 0 maxite)%nat.
Proof.
  intros Hc Hm. destruct maxite as [|k]; [lia|]. simpl. rewrite Hc.
  pose proof (first_exit_spec c k 1) as (Hb & _). lia.
Qed.

(** ** The cells on arrays of any values *)

Lemma kernel_tab n m F sigma :
  kernel (tab2 n m F) sigma = tab2 n m (fun i j => xexp (xdiv (F i j) sigma)).
Proof. unfold kernel. now rewrite !map_mat_tab2. Qed.

(** The body of the loop of cell 5, index by index. *)
Lemma matrix_body_tab n m K p q b A0 e0 t :
  (0 < n)%nat -> (0 < m)%nat ->
  let a := x_scale_rows m K p b in
  matrix_body (tab2 n m K) (tabv n p) (tabv m q)
    {| mA := A0; mB := two_d (tabv m b); merror := e0; mite := t |}
  = Done {| mA := Some (two_d (tabv n a));
            mB := two_d (tabv m (x_scale_cols n K q a));
            merror := x_marginal_error n m K q a b;
            mite := S t |}.
Proof.
  intros Hn Hm a. unfold matrix_body. cbn [mB mite]. numpy. reflexivity.
Qed.

(** The body of the loop of cell 7, index by index. *)
Lemma lse_body_tab n m F mu nu sigma v w first u0 e0 t :
  (0 < n)%nat -> (0 < m)%nat ->
  let U := x_stab_u m F mu v sigma in
  lse_body (tab2 n m F) (tabv n mu) (tabv m nu) n sigma
    {| su := u0; sv := tabv m v; suprec := previous_at n w first;
       serror := e0; site := t |}
  = Done {| su := Some (tabv n U);
            sv := tabv m (x_stab_v n F nu U sigma);
            suprec := Array (tabv n U);
            serror := x_change n U w first;
            site := S t |}.
Proof.
  intros Hn Hm U.
  unfold lse_body, lse_vstar, lse_u_exponents, lse_ustar, lse_v_exponents.
  cbn [sv site suprec].
  destruct first; cbn [previous_at sub_previous]; numpy; reflexivity.
Qed.

Lemma coupling_tab n m F u v sigma :
  (0 < n)%nat -> (0 < m)%nat ->
  coupling (tab2 n m F) (tabv n u) (tabv m v) n sigma
  = Done (tab2 n m (fun i j =>
            xexp (xdiv (xsub (xsub (F i j) (u i)) (v j)) sigma))).
Proof. intros Hn Hm. unfold coupling. numpy. reflexivity. Qed.

Lemma objective_tab n r m F P sigma :
  (0 < n)%nat -> (0 < r)%nat -> bdim r n = Some r ->
  exists val, objective (tab2 n m F) (tab2 r m P) sigma = Done val.
Proof.
  intros Hn Hr Hd. unfold objective.
  rewrite (bcast2_tab2 xmul r m _ n m _ r m) by
    (try assumption; apply bdim_refl).
  cbn [bind].
  rewrite map_mat_tab2, bcast2_same by assumption. cbn [bind].
  eexists. reflexivity.
Qed.

(** The coupling of cell 5 on arrays of any values: the five rows asked
    for fit five rows, stretch one row, and fit nothing else. *)
Lemma matrix_pi_tab n m K a b :
  (0 < n)%nat -> (0 < m)%nat ->
  matrix_pi (tab2 n m K) (tab2 n 1 a) (tab2 m 1 b)
  = match bdim n 5 with
    | Some r =>
        Done (tab2 r m (fun i j =>
                xmul (xmul (K (bidx n i) j) (a (bidx n i) 0%nat)) (b j 0%nat)))
    | None => Raise ValueError
    end.
Proof.
  intros Hn Hm. unfold matrix_pi.
  rewrite bcast2_col by assumption. cbn [bind].
  rewrite repeat_axis1_col by assumption.
  rewrite transpose_tab2 by assumption.
  destruct (bdim n 5) as [r|] eqn:E.
  - rewrite (bcast2_tab2 xmul n m _ 5 m _ r m) by
      (try assumption; try lia; apply bdim_refl).
    f_equal. apply tab2_ext. intros i j Hi Hj.
    now rewrite (bidx_lt m j).
  - apply bcast2_mismatch; try assumption; lia.
Qed.

Lemma guard_starts tol maxite :
  (0 < maxite)%nat ->
  xgt (xadd (Fin tol) (Fin 1)) (Fin tol) && (0 <? maxite)%nat = true.
Proof.
  intros H. cbn [xadd xgt]. rewrite Rltb_succ. cbn [andb].
  apply Nat.ltb_lt. assumption.
Qed.

Lemma entering_tol_small tol : Rabs tol <= 1 -> entering_tol tol.
Proof.
  intros H. unfold entering_tol.
  assert (1 < 2 ^ 53) by (apply Rlt_pow_R1; [lra|lia]). lra.
Qed.

(** *** Cell 5 validates nothing *)

Lemma matrix_body_shaped n m K p q s :
  (0 < n)%nat -> (0 < m)%nat -> matrix_shaped n m s ->
  exists s', matrix_body (tab2 n m K) (tabv n p) (tabv m q) s = Done s' /\
             matrix_shaped n m s' /\ mite s' = S (mite s).
Proof.
  intros Hn Hm ((b & Hb) & _).
  destruct s as [A0 B0 e0 t]. cbn [mB mite] in *. subst.
  rewrite matrix_body_tab by assumption.
  eexists. split; [reflexivity|]. split; [|reflexivity].
  split; [eexists; reflexivity|]. intros _. eexists. reflexivity.
Qed.

Lemma matrix_init_shaped n m tol : matrix_shaped n m (matrix_init m tol).
Proof.
  split.
  - exists (fun _ => Fin 1). unfold matrix_init. cbn [mB].
    now rewrite np_repeat_tabv.
  - cbn. lia.
Qed.

Lemma matrix_guard_cap tol maxite s :
  matrix_guard tol maxite s = true -> (mite s < maxite)%nat.
Proof.
  unfold matrix_guard. intros H. apply andb_prop in H. destruct H as [_ H].
  now apply Nat.ltb_lt.
Qed.

(** Cell 5 validates nothing either: when the shapes fit, the loop runs
    to its end whatever the values, and what follows depends on the
    number of rows alone. *)
Lemma matrix_IPFP_total n m F p q sigma tol maxite :
  (0 < n)%nat -> (0 < m)%nat ->
  if matrix_guard tol maxite (matrix_init m tol) then
    match bdim n 5 with
    | Some _ =>
        exists r, matrix_IPFP (tab2 n m F) (tabv n p) (tabv m q) m tol maxite sigma
                  = Done r /\ (1 <= r_ite r)%nat
    | None =>
        matrix_IPFP (tab2 n m F) (tabv n p) (tabv m q) m tol maxite sigma
        = Raise ValueError
    end
  else
    matrix_IPFP (tab2 n m F) (tabv n p) (tabv m q) m tol maxite sigma
    = Raise NameError.
Proof.
  intros Hn Hm. unfold matrix_IPFP. cbv zeta. rewrite kernel_tab.
  set (K := fun i j => xexp (xdiv (F i j) sigma)).
  unfold matrix_loop.
  destruct (matrix_guard tol maxite (matrix_init m tol)) eqn:Hg.
  - cbn [while_loop]. rewrite Hg.
    destruct (matrix_body_shaped n m K p q (matrix_init m tol) Hn Hm
                (matrix_init_shaped n m tol)) as (s1 & Hb & Hs1 & Ht1).
    rewrite Hb. cbn [bind].
    pose proof (matrix_guard_cap _ _ _ Hg) as Hcap. cbn in Hcap.
    destruct (while_total (matrix_guard tol maxite)
                (matrix_body (tab2 n m K) (tabv n p) (tabv m q))
                (matrix_shaped n m) mite maxite) with (fuel := maxite) (s := s1)
      as (r & Hr & Hsh & _ & Hle).
    + intros s Hs _. now apply matrix_body_shaped.
    + apply matrix_guard_cap.
    + assumption.
    + rewrite Ht1. cbn. lia.
    + rewrite Hr. cbn [bind].
      destruct Hsh as ((b & HB) & HA).
      destruct HA as (a & HA); [rewrite Ht1 in Hle; lia|].
      rewrite HA, HB. cbn [bind]. rewrite !two_d_tabv.
      rewrite matrix_pi_tab by assumption.
      destruct (bdim n 5) as [r5|] eqn:E; [|reflexivity].
      destruct (bdim_five n r5 E) as [-> Hn5]. cbn [bind].
      assert (Hd : bdim 5 n = Some 5%nat) by (destruct Hn5; subst; reflexivity).
      match goal with
      | |- context [objective _ (tab2 5 m ?P) _] =>
          destruct (objective_tab n 5 m F P sigma Hn ltac:(lia) Hd)
            as (val & Hval)
      end.
      rewrite Hval. cbn [bind]. eexists. split; [reflexivity|].
      cbn [r_ite]. rewrite Ht1 in Hle. cbn in Hle. lia.
  - cbn [while_loop]. rewrite Hg. reflexivity.
Qed.

Lemma matrix_body_mismatch n m K k p q s :
  (0 < n)%nat -> (0 < m)%nat -> k <> n -> k <> 1%nat -> n <> 1%nat ->
  matrix_shaped n m s ->
  matrix_body (tab2 n m K) (tabv k p) (tabv m q) s = Raise ValueError.
Proof.
  intros Hn Hm H H1 H2 ((b & Hb) & _). unfold matrix_body. rewrite Hb.
  numpy. now rewrite bcast1_mismatch.
Qed.

(** *** Cell 7 validates nothing *)

Lemma lse_body_shaped n m F mu nu sigma s :
  (0 < n)%nat -> (0 < m)%nat -> lse_shaped n m s ->
  exists s', lse_body (tab2 n m F) (tabv n mu) (tabv m nu) n sigma s = Done s' /\
             lse_shaped n m s' /\ site s' = S (site s).
Proof.
  intros Hn Hm ((v & Hv) & (w & first & Hw) & _).
  destruct s as [u0 v0 prev e0 t]. cbn [sv suprec site] in *. subst.
  rewrite lse_body_tab by assumption.
  eexists. split; [reflexivity|]. split; [|reflexivity].
  split; [eexists; reflexivity|]. split.
  - exists (x_stab_u m F mu v sigma), false. reflexivity.
  - intros _. eexists. reflexivity.
Qed.

Lemma lse_init_shaped n m tol : lse_shaped n m (lse_init m tol).
Proof.
  split; [|split].
  - exists (fun _ => Fin 0). apply np_repeat_tabv.
  - exists (fun _ => NaN), true. reflexivity.
  - cbn. lia.
Qed.

Lemma lse_guard_cap tol maxite s :
  lse_guard tol maxite s = true -> (site s < maxite)%nat.
Proof.
  unfold lse_guard. intros H. apply andb_prop in H. destruct H as [_ H].
  now apply Nat.ltb_lt.
Qed.

Lemma lse_IPFP_finish Phi p q nbX nbY tol maxite sigma :
  lse_IPFP Phi p q nbX nbY tol maxite sigma
  = (s <- lse_loop (S maxite) Phi (neg_sigma_log sigma p)
            (neg_sigma_log sigma q) nbX sigma tol maxite (lse_init nbY tol) ;;
     lse_finish Phi nbX sigma maxite s).
Proof. reflexivity. Qed.

(** From a state with the lengths of the problem, reached after at least
    one turn, cell 7 comes to its end and returns. *)
Lemma lse_run_on n m F mu nu sigma tol maxite fuel s :
  (0 < n)%nat -> (0 < m)%nat ->
  lse_shaped n m s -> (0 < site s)%nat -> (maxite - site s < fuel)%nat ->
  exists r,
    (s' <- while_loop fuel (lse_guard tol maxite)
             (lse_body (tab2 n m F) (tabv n mu) (tabv m nu) n sigma) s ;;
     lse_finish (tab2 n m F) n sigma maxite s') = Done r
    /\ (site s <= l_ite r)%nat.
Proof.
  intros Hn Hm Hsh Hpos Hfuel.
  destruct (while_total (lse_guard tol maxite)
              (lse_body (tab2 n m F) (tabv n mu) (tabv m nu) n sigma)
              (lse_shaped n m) site maxite) with (fuel := fuel) (s := s)
    as (r & Hr & Hshr & _ & Hle); try assumption.
  - intros s0 Hs0 _. now apply lse_body_shaped.
  - apply lse_guard_cap.
  - rewrite Hr. cbn [bind]. unfold lse_finish.
    destruct Hshr as ((v & Hv) & _ & Hu).
    destruct Hu as (U & HU); [lia|].
    rewrite HU, Hv. cbn [bind].
    rewrite coupling_tab by assumption. cbn [bind].
    destruct (objective_tab n n m F
                (fun i j => xexp (xdiv (xsub (xsub (F i j) (U i)) (v j)) sigma))
                sigma Hn Hn (bdim_refl n)) as (val & Hval).
    rewrite Hval. cbn [bind]. eexists. split; [reflexivity|]. exact Hle.
Qed.

(** Cell 7 validates nothing: when the shapes fit, it runs to its end
    whatever the values. *)
Lemma lse_IPFP_total n m F p q sigma tol maxite :
  (0 < n)%nat -> (0 < m)%nat ->
  if lse_guard tol maxite (lse_init m tol) then
    exists r, lse_IPFP (tab2 n m F) (tabv n p) (tabv m q) n m tol maxite sigma
              = Done r /\ (1 <= l_ite r)%nat
  else
    lse_IPFP (tab2 n m F) (tabv n p) (tabv m q) n m tol maxite sigma
    = Raise NameError.
Proof.
  intros Hn Hm. unfold lse_IPFP. cbv zeta.
  rewrite !neg_sigma_log_tabv.
  set (mu := fun i => xmul (xneg sigma) (xlog (p i))).
  set (nu := fun i => xmul (xneg sigma) (xlog (q i))).
  unfold lse_loop.
  destruct (lse_guard tol maxite (lse_init m tol)) eqn:Hg.
  - cbn [while_loop]. rewrite Hg.
    destruct (lse_body_shaped n m F mu nu sigma (lse_init m tol) Hn Hm
                (lse_init_shaped n m tol)) as (s1 & Hb & Hs1 & Ht1).
    rewrite Hb. cbn [bind].
    pose proof (lse_guard_cap _ _ _ Hg) as Hcap. cbn in Hcap.
    destruct (while_total (lse_guard tol maxite)
                (lse_body (tab2 n m F) (tabv n mu) (tabv m nu) n sigma)
                (lse_shaped n m) site maxite) with (fuel := maxite) (s := s1)
      as (r & Hr & Hsh & _ & Hle).
    + intros s Hs _. now apply lse_body_shaped.
    + apply lse_guard_cap.
    + assumption.
    + rewrite Ht1. cbn. lia.
    + rewrite Hr. cbn [bind].
      destruct Hsh as ((v & Hv) & _ & Hu).
      destruct Hu as (U & HU); [rewrite Ht1 in Hle; lia|].
      rewrite HU, Hv. cbn [bind].
      rewrite coupling_tab by assumption. cbn [bind].
      destruct (objective_tab n n m F
                  (fun i j => xexp (xdiv (xsub (xsub (F i j) (U i)) (v j)) sigma))
                  sigma Hn Hn (bdim_refl n)) as (val & Hval).
      rewrite Hval. cbn [bind]. eexists. split; [reflexivity|].
      cbn [l_ite]. rewrite Ht1 in Hle. cbn in Hle. lia.
  - cbn [while_loop]. rewrite Hg. reflexivity.
Qed.

Lemma lse_body_mismatch n m F k mu nu sigma s :
  (0 < n)%nat -> (0 < m)%nat -> k <> n -> k <> 1%nat -> n <> 1%nat ->
  lse_shaped n m s ->
  lse_body (tab2 n m F) (tabv k mu) (tabv m nu) n sigma s = Raise ValueError.
Proof.
  intros Hn Hm H H1 H2 ((v & Hv) & _).
  unfold lse_body, lse_vstar. rewrite Hv. numpy. now rewrite bcast1_mismatch.
Qed.

(** ** Sums and maxima over an index range *)

Lemma Rsum_ext n f g :
  (forall i, (i < n)%nat -> f i = g i) -> Rsum n f = Rsum n g.
Proof.
  intros H. unfold Rsum. f_equal. apply map_ext_in.
  intros i Hi. apply in_seq in Hi. apply H. lia.
Qed.

Lemma Rsum_S n f : Rsum (S n) f = f 0%nat + Rsum n (fun i => f (S i)).
Proof.
  unfold Rsum. simpl. f_equal. rewrite <- seq_shift. now rewrite map_map.
Qed.

Lemma Rsum_one f : Rsum 1 f = f 0%nat.
Proof. unfold Rsum. simpl. ring. Qed.

Lemma Rsum_zero n : Rsum n (fun _ => 0) = 0.
Proof.
  induction n as [|n IH]; [reflexivity|]. rewrite Rsum_S, IH. ring.
Qed.

Lemma Rsum_scal n f c : Rsum n (fun i => f i * c) = Rsum n f * c.
Proof.
  revert f. induction n as [|n IH]; intros f.
  - unfold Rsum. simpl. ring.
  - rewrite !Rsum_S, IH. ring.
Qed.

Lemma Rsum_plus n f g : Rsum n (fun i => f i + g i) = Rsum n f + Rsum n g.
Proof.
  revert f g. induction n as [|n IH]; intros f g.
  - unfold Rsum. simpl. ring.
  - rewrite !Rsum_S, IH. ring.
Qed.

Lemma Rsum_minus n f g : Rsum n (fun i => f i - g i) = Rsum n f - Rsum n g.
Proof.
  revert f g. induction n as [|n IH]; intros f g.
  - unfold Rsum. simpl. ring.
  - rewrite !Rsum_S, IH. ring.
Qed.

Lemma Rsum_le n f g :
  (forall i, (i < n)%nat -> f i <= g i) -> Rsum n f <= Rsum n g.
Proof.
  revert f g. induction n as [|n IH]; intros f g H.
  - unfold Rsum. simpl. lra.
  - rewrite !Rsum_S. apply Rplus_le_compat.
    + apply H. lia.
    + apply IH. intros i Hi. apply H. lia.
Qed.

Lemma Rsum_nonneg n f :
  (forall i, (i < n)%nat -> 0 <= f i) -> 0 <= Rsum n f.
Proof.
  revert f. induction n as [|n IH]; intros f H.
  - unfold Rsum. simpl. lra.
  - rewrite Rsum_S.
    assert (0 <= f 0%nat) by (apply H; lia).
    assert (0 <= Rsum n (fun i => f (S i))) by (apply IH; intros; apply H; lia).
    lra.
Qed.

Lemma Rsum_pos n f :
  (0 < n)%nat -> (forall i, (i < n)%nat -> 0 < f i) -> 0 < Rsum n f.
Proof.
  intros Hn H. destruct n as [|n]; [lia|]. rewrite Rsum_S.
  assert (0 < f 0%nat) by (apply H; lia).
  assert (0 <= Rsum n (fun i => f (S i))).
  { apply Rsum_nonneg. intros i Hi. apply Rlt_le, H. lia. }
  lra.
Qed.

Lemma Rsum_exp_pos k f : (0 < k)%nat -> 0 < Rsum k (fun i => exp (f i)).
Proof. intros Hk. apply Rsum_pos; [assumption|]. intros. apply exp_pos. Qed.

Lemma Rsum_single_le n f i :
  (i < n)%nat -> (forall k, (k < n)%nat -> 0 <= f k) -> f i <= Rsum n f.
Proof.
  revert f i. induction n as [|n IH]; intros f i Hi Hf; [lia|].
  rewrite Rsum_S.
  assert (0 <= f 0%nat) by (apply Hf; lia).
  assert (0 <= Rsum n (fun k => f (S k))).
  { apply Rsum_nonneg. intros k Hk. apply Hf. lia. }
  destruct i as [|i]; [lra|].
  assert (f (S i) <= Rsum n (fun k => f (S k))).
  { apply (IH (fun k => f (S k)) i); [lia|]. intros k Hk. apply Hf. lia. }
  lra.
Qed.

Lemma Rsum_abs n f : Rabs (Rsum n f) <= Rsum n (fun i => Rabs (f i)).
Proof.
  revert f. induction n as [|n IH]; intros f.
  - unfold Rsum. simpl. rewrite Rabs_R0. lra.
  - rewrite !Rsum_S. eapply Rle_trans; [apply Rabs_triang|].
    apply Rplus_le_compat_l. apply (IH (fun i => f (S i))).
Qed.

(** Summing a table by rows or by columns. *)
Lemma Rsum_swap n m (F : nat -> nat -> R) :
  Rsum n (fun i => Rsum m (fun j => F i j))
  = Rsum m (fun j => Rsum n (fun i => F i j)).
Proof.
  revert F. induction n as [|n IH]; intros F.
  - change (0 = Rsum m (fun _ => 0)). now rewrite Rsum_zero.
  - rewrite Rsum_S, IH, <- Rsum_plus. apply Rsum_ext.
    intros j _. now rewrite Rsum_S.
Qed.

Lemma Rmaxn_ext n f g :
  (forall i, (i < n)%nat -> f i = g i) -> Rmaxn n f = Rmaxn n g.
Proof.
  intros H. unfold Rmaxn.
  replace (map g (seq 0 n)) with (map f (seq 0 n)); [reflexivity|].
  apply map_ext_in. intros i Hi. apply in_seq in Hi. apply H. lia.
Qed.

Lemma Rmaxn_one f : Rmaxn 1 f = f 0%nat.
Proof. reflexivity. Qed.

Lemma fold_Rmax_ge l x : x <= fold_left Rmax l x.
Proof.
  revert x. induction l as [|y l IH]; intros x; simpl; [lra|].
  eapply Rle_trans; [apply (Rmax_l x y)|apply IH].
Qed.

Lemma fold_Rmax_in l x y : In y l -> y <= fold_left Rmax l x.
Proof.
  revert x. induction l as [|z l IH]; intros x Hy; simpl; [contradiction|].
  destruct Hy as [->|Hy].
  - eapply Rle_trans; [apply (Rmax_r x y)|apply fold_Rmax_ge].
  - now apply IH.
Qed.

Lemma Rmaxn_ub n f i : (i < n)%nat -> f i <= Rmaxn n f.
Proof.
  intros Hi. unfold Rmaxn.
  assert (Hin : In (f i) (map f (seq 0 n))).
  { apply in_map. apply in_seq. lia. }
  destruct (map f (seq 0 n)) as [|x l]; [contradiction|].
  destruct Hin as [<-|Hin].
  - apply fold_Rmax_ge.
  - now apply fold_Rmax_in.
Qed.

Lemma Rmaxn_nonneg_abs n f : (0 < n)%nat -> 0 <= Rmaxn n (fun i => Rabs (f i)).
Proof.
  intros Hn. eapply Rle_trans; [apply (Rabs_pos (f 0%nat))|].
  apply (Rmaxn_ub n (fun i => Rabs (f i)) 0). assumption.
Qed.

(** ** Arrays of finite values *)

Lemma xdiv_fin x y : y <> 0 -> xdiv (Fin x) (Fin y) = Fin (x / y).
Proof. intros H. simpl. destruct (Req_dec_T y 0); [contradiction|reflexivity]. Qed.

Lemma xlog_fin x : 0 < x -> xlog (Fin x) = Fin (ln x).
Proof. intros H. simpl. destruct (Rlt_dec 0 x); [reflexivity|contradiction]. Qed.

Lemma xsum_fin n (f : nat -> R) :
  xsum (tabv n (fun i => Fin (f i))) = Fin (Rsum n f).
Proof.
  unfold xsum, Rsum, tabv. generalize (seq 0 n) as l.
  induction l as [|i l IH]; simpl; [reflexivity|]. now rewrite IH.
Qed.

Lemma xsum_app_fin m f l :
  xsum (tabv m (fun i => Fin (f i)) ++ l) = xadd (Fin (Rsum m f)) (xsum l).
Proof.
  unfold xsum, Rsum, tabv. generalize (seq 0 m) as s.
  induction s as [|i s IH]; simpl.
  - destruct (fold_right xadd (Fin 0) l); simpl; try reflexivity.
    f_equal. ring.
  - rewrite IH. destruct (fold_right xadd (Fin 0) l); simpl; try reflexivity.
    f_equal. ring.
Qed.

Lemma np_sum_fin r m F :
  np_sum (tab2 r m (fun i j => Fin (F i j)))
  = Fin (Rsum r (fun i => Rsum m (F i))).
Proof.
  unfold np_sum, flatten. revert F. induction r as [|r IH]; intros F.
  - reflexivity.
  - unfold tab2. rewrite tabv_S. simpl concat.
    rewrite xsum_app_fin. 
    change (tabv r (fun i => tabv m (fun j => Fin (F (S i) j))))
      with (tab2 r m (fun i j => Fin (F (S i) j))).
    rewrite (IH (fun i j => F (S i) j)). rewrite Rsum_S. reflexivity.
Qed.

Lemma fold_max_fin n (f : nat -> R) :
  (0 < n)%nat -> fold_max (tabv n (fun i => Fin (f i))) = Fin (Rmaxn n f).
Proof.
  intros Hn. unfold fold_max, Rmaxn, tabv.
  destruct (seq 0 n) as [|i l] eqn:E.
  - apply (f_equal (@length _)) in E. rewrite length_seq in E. simpl in E. lia.
  - simpl. clear E. generalize (f i) as x.
    induction l as [|k l IH]; intros x; simpl; [reflexivity|].
    exact (IH (Rmax x (f k))).
Qed.

Lemma fold_max_pinf n :
  (0 < n)%nat -> fold_max (tabv n (fun _ => PInf)) = PInf.
Proof.
  intros Hn. destruct n as [|n]; [lia|]. rewrite tabv_S. simpl.
  unfold tabv. generalize (seq 0 n) as l.
  induction l as [|i l IH]; simpl; [reflexivity|exact IH].
Qed.

Lemma fold_left_xmax_nan l : fold_left xmax l NaN = NaN.
Proof. induction l as [|x l IH]; [reflexivity|exact IH]. Qed.

Lemma fold_left_xmax_in l : forall x, In NaN l -> fold_left xmax l x = NaN.
Proof.
  induction l as [|y l IH]; intros x H; [contradiction|].
  destruct H as [->|H]; simpl.
  - replace (xmax x NaN) with NaN by (destruct x; reflexivity).
    apply fold_left_xmax_nan.
  - now apply IH.
Qed.

Lemma fold_max_nan l : In NaN l -> fold_max l = NaN.
Proof.
  destruct l as [|x l]; intros H; [contradiction|].
  destruct H as [->|H]; simpl.
  - apply fold_left_xmax_nan.
  - now apply fold_left_xmax_in.
Qed.

(** A maximum of absolute values is never minus infinity. *)
Lemma fold_left_xmax_not_ninf l : forall x,
  x <> NInf -> fold_left xmax l x <> NInf.
Proof.
  induction l as [|y l IH]; intros x Hx; [exact Hx|].
  cbn [fold_left]. apply IH. destruct x, y; cbn; congruence.
Qed.

Lemma fold_max_abs_not_ninf n (f : nat -> xreal) :
  (0 < n)%nat -> fold_max (tabv n (fun i => xabs (f i))) <> NInf.
Proof.
  intros Hn. destruct n as [|n]; [lia|]. rewrite tabv_S.
  cbn [fold_max]. apply fold_left_xmax_not_ninf.
  destruct (f 0%nat); cbn; congruence.
Qed.

(** [error > tol] fails when the error is at most [tol], and when it is
    not a number. *)
Lemma xgt_false e tol :
  e <> NInf ->
  (xgt e (Fin tol) = false <-> e = NaN \/ exists x, e = Fin x /\ x <= tol).
Proof.
  intros He. destruct e as [x| | |]; cbn [xgt].
  - rewrite Rltb_false. split.
    + intros H. right. now exists x.
    + intros [H|(y & E & H)]; [discriminate|]. now injection E as ->.
  - split; [discriminate|]. intros [H|(y & E & _)]; discriminate.
  - contradiction.
  - split; [now left|reflexivity].
Qed.

Lemma neg_sigma_log_fin k f sigma :
  positive_on k f ->
  neg_sigma_log (Fin sigma) (tabv k (fun i => Fin (f i)))
  = tabv k (fun i => Fin ((- sigma) * ln (f i))).
Proof.
  intros Hf. unfold neg_sigma_log. rewrite !tabv_map.
  apply tabv_ext. intros i Hi. rewrite xlog_fin by now apply Hf. reflexivity.
Qed.

Lemma neg_sigma_log_evec k f sigma :
  positive_on k f ->
  neg_sigma_log (Fin sigma) (evec k f) = evec k (fun i => (- sigma) * ln (f i)).
Proof. apply neg_sigma_log_fin. Qed.

Lemma sigma_log_fin k f sigma :
  positive_on k f ->
  sigma_log (Fin sigma) (tabv k (fun i => Fin (f i)))
  = tabv k (fun i => Fin (sigma * ln (f i))).
Proof.
  intros Hf. unfold sigma_log. rewrite !tabv_map.
  apply tabv_ext. intros i Hi. rewrite xlog_fin by now apply Hf. reflexivity.
Qed.

Lemma over_sigma_fin n m F sigma :
  sigma <> 0 ->
  over_sigma (Fin sigma) (tab2 n m (fun i j => Fin (F i j)))
  = tab2 n m (fun i j => Fin (F i j / sigma)).
Proof.
  intros Hs. unfold over_sigma. rewrite !map_mat_tab2.
  apply tab2_ext. intros i j _ _. now rewrite xdiv_fin.
Qed.

Lemma exp_over_sigma_fin n m F sigma :
  sigma <> 0 ->
  exp_over_sigma (Fin sigma) (tab2 n m (fun i j => Fin (F i j)))
  = tab2 n m (fun i j => Fin (exp (F i j / sigma))).
Proof.
  intros Hs. unfold exp_over_sigma. rewrite over_sigma_fin by assumption.
  now rewrite map_mat_tab2.
Qed.

Lemma sum_axis1_fin n m F :
  sum_axis1 (tab2 n m (fun i j => Fin (F i j)))
  = tabv n (fun i => Fin (Rsum m (F i))).
Proof.
  rewrite sum_axis1_tab2. apply tabv_ext. intros i _. apply xsum_fin.
Qed.

Lemma sum_axis0_fin n m F :
  (0 < n)%nat ->
  sum_axis0 (tab2 n m (fun i j => Fin (F i j)))
  = tabv m (fun j => Fin (Rsum n (fun i => F i j))).
Proof.
  intros Hn. rewrite sum_axis0_tab2 by assumption.
  apply tabv_ext. intros j _. apply xsum_fin.
Qed.

Lemma sum_axis0_columns n m F c :
  (0 < n)%nat ->
  (forall j, (j < m)%nat -> Rsum n (fun i => F i j) = c j) ->
  sum_axis0 (emat n m F) = evec m c.
Proof.
  intros Hn H. unfold emat, evec. rewrite sum_axis0_fin by assumption.
  apply tabv_ext. intros j Hj. now rewrite H.
Qed.

Lemma max_axis0_fin n m F :
  (0 < n)%nat ->
  max_axis0 (tab2 n m (fun i j => Fin (F i j)))
  = Done (tabv m (fun j => Fin (Rmaxn n (fun i => F i j)))).
Proof.
  intros Hn. rewrite max_axis0_tab2 by assumption. f_equal.
  apply tabv_ext. intros j _. now apply fold_max_fin.
Qed.


Lemma kernel_fin n m phi sigma :
  sigma <> 0 ->
  kernel (emat n m phi) (Fin sigma) = emat n m (Kernel phi sigma).
Proof.
  intros Hs. unfold kernel, emat. rewrite !map_mat_tab2.
  apply tab2_ext. intros i j _ _. now rewrite xdiv_fin.
Qed.

Lemma coupling_fin n m phi u v sigma :
  (0 < n)%nat -> (0 < m)%nat -> sigma <> 0 ->
  coupling (emat n m phi) (evec n u) (evec m v) n (Fin sigma)
  = Done (emat n m (gibbs phi sigma u v)).
Proof.
  intros Hn Hm Hs. unfold coupling, emat, evec.
  rewrite two_d_tabv, bcast2_col by assumption. cbn [bind xsub xadd xneg].
  rewrite rows_of_tabv by assumption.
  rewrite bcast2_same by assumption. cbn [bind xsub xadd xneg].
  rewrite exp_over_sigma_fin by assumption. reflexivity.
Qed.

Lemma objective_fin n r m F P sigma :
  (0 < n)%nat -> (0 < r)%nat -> bdim r n = Some r ->
  (forall i j, (i < r)%nat -> (j < m)%nat -> 0 < P i j) ->
  objective (emat n m F) (emat r m P) (Fin sigma)
  = Done (Fin (Robjective r m (fun i j => F (bidx n i) j) P sigma)).
Proof.
  intros Hn Hr Hd HP. unfold objective, emat.
  rewrite (bcast2_tab2 xmul r m _ n m _ r m) by
    (try assumption; apply bdim_refl).
  cbn [bind]. rewrite map_mat_tab2.
  rewrite bcast2_same by assumption. cbn [bind].
  rewrite (tab2_ext r m _ (fun i j => Fin (P i j * F (bidx n i) j))).
  2:{ intros i j Hi Hj. now rewrite (bidx_lt r i), (bidx_lt m j). }
  rewrite (tab2_ext r m (fun i j => xmul _ (xlog _))
             (fun i j => Fin (P i j * ln (P i j)))).
  2:{ intros i j Hi Hj. rewrite xlog_fin by now apply HP. reflexivity. }
  rewrite !np_sum_fin. reflexivity.
Qed.



(** ** The iterations on real numbers *)

(** *** Positivity *)

Lemma Kernel_pos phi sigma i j : 0 < Kernel phi sigma i j.
Proof. apply exp_pos. Qed.

Lemma gibbs_pos phi sigma u v i j : 0 < gibbs phi sigma u v i j.
Proof. apply exp_pos. Qed.

Lemma row_mass_pos m phi sigma b i :
  (0 < m)%nat -> positive_on m b ->
  0 < Rsum m (fun j => Kernel phi sigma i j * b j).
Proof.
  intros Hm Hb. apply Rsum_pos; [assumption|]. intros j Hj.
  apply Rmult_lt_0_compat; [apply Kernel_pos|now apply Hb].
Qed.

Lemma scale_rows_pos n m phi p sigma b :
  (0 < m)%nat -> positive_on n p -> positive_on m b ->
  positive_on n (scale_rows m phi p sigma b).
Proof.
  intros Hm Hp Hb i Hi. unfold scale_rows.
  apply Rdiv_lt_0_compat; [now apply Hp|now apply row_mass_pos].
Qed.

Lemma col_mass_pos n phi sigma a j :
  (0 < n)%nat -> positive_on n a -> 0 < col_mass n phi sigma a j.
Proof.
  intros Hn Ha. apply Rsum_pos; [assumption|]. intros i Hi.
  apply Rmult_lt_0_compat; [now apply Ha|apply Kernel_pos].
Qed.

Lemma scale_cols_pos n m phi q sigma a :
  (0 < n)%nat -> positive_on m q -> positive_on n a ->
  positive_on m (scale_cols n phi q sigma a).
Proof.
  intros Hn Hq Ha j Hj. unfold scale_cols.
  apply Rdiv_lt_0_compat; [now apply Hq|now apply col_mass_pos].
Qed.

Lemma sinkhorn_b_pos n m phi p q sigma k :
  valid n m p q sigma -> positive_on m (sinkhorn_b n m phi p q sigma k).
Proof.
  intros (Hn & Hm & Hp & Hq & Hs). induction k as [|k IH].
  - intros j _. simpl. lra.
  - simpl. apply scale_cols_pos; [assumption|exact Hq|].
    apply scale_rows_pos; [assumption|exact Hp|exact IH].
Qed.

Lemma sinkhorn_a_pos n m phi p q sigma k :
  valid n m p q sigma -> positive_on n (sinkhorn_a n m phi p q sigma k).
Proof.
  intros H. pose proof (sinkhorn_b_pos n m phi p q sigma k H).
  destruct H as (Hn & Hm & Hp & Hq & Hs).
  apply scale_rows_pos; assumption.
Qed.

(** *** The three iterations are one *)

Lemma exp_shift x y s : s <> 0 -> exp ((x - y) / s) = exp (x / s) * exp (- y / s).
Proof.
  intros Hs. rewrite <- exp_plus. f_equal. field. assumption.
Qed.

(** The log-sum-exp identity: taking any [c] out of the exponents. *)
Lemma log_sum_exp k f c s :
  (0 < k)%nat -> s <> 0 ->
  c + s * ln (Rsum k (fun j => exp ((f j - c) / s)))
  = s * ln (Rsum k (fun j => exp (f j / s))).
Proof.
  intros Hk Hs.
  assert (E : Rsum k (fun j => exp (f j / s))
              = Rsum k (fun j => exp ((f j - c) / s)) * exp (c / s)).
  { rewrite <- Rsum_scal. apply Rsum_ext. intros j _.
    rewrite <- exp_plus. f_equal. field. assumption. }
  rewrite E. rewrite ln_mult.
  - rewrite ln_exp. field. assumption.
  - now apply Rsum_exp_pos.
  - apply exp_pos.
Qed.

Lemma stab_u_log_u m phi p sigma v i :
  (0 < m)%nat -> sigma <> 0 ->
  stab_u m phi p sigma v i = log_u m phi p sigma v i.
Proof.
  intros Hm Hs. unfold stab_u, log_u, u_exponent.
  rewrite Rplus_assoc. f_equal.
  apply (log_sum_exp m (fun j => phi i j - v j)); assumption.
Qed.

Lemma stab_v_log_v n phi q sigma u j :
  (0 < n)%nat -> sigma <> 0 ->
  stab_v n phi q sigma u j = log_v n phi q sigma u j.
Proof.
  intros Hn Hs. unfold stab_v, log_v, log_col, v_exponent.
  rewrite Rplus_assoc. f_equal.
  apply (log_sum_exp n (fun i => phi i j - u i)); assumption.
Qed.

Lemma log_u_ext m phi p sigma v v' i :
  (forall j, (j < m)%nat -> v j = v' j) ->
  log_u m phi p sigma v i = log_u m phi p sigma v' i.
Proof.
  intros H. unfold log_u. do 3 f_equal. apply Rsum_ext.
  intros j Hj. now rewrite H.
Qed.

Lemma log_v_ext n phi q sigma u u' j :
  (forall i, (i < n)%nat -> u i = u' i) ->
  log_v n phi q sigma u j = log_v n phi q sigma u' j.
Proof.
  intros H. unfold log_v, log_col. do 3 f_equal. apply Rsum_ext.
  intros i Hi. now rewrite H.
Qed.

Lemma stab_log_iter n m phi p q sigma k :
  (0 < n)%nat -> (0 < m)%nat -> sigma <> 0 ->
  forall j, stab_v_iter n m phi p q sigma k j = log_v_iter n m phi p q sigma k j.
Proof.
  intros Hn Hm Hs. induction k as [|k IH]; intros j; [reflexivity|].
  simpl. rewrite stab_v_log_v by assumption.
  apply log_v_ext. intros i _.
  rewrite stab_u_log_u by assumption.
  apply log_u_ext. intros j' _. apply IH.
Qed.

Lemma stab_log_u_iter n m phi p q sigma k :
  (0 < n)%nat -> (0 < m)%nat -> sigma <> 0 ->
  forall i, stab_u_iter n m phi p q sigma k i = log_u_iter n m phi p q sigma k i.
Proof.
  intros Hn Hm Hs i. unfold stab_u_iter, log_u_iter.
  rewrite stab_u_log_u by assumption.
  apply log_u_ext. intros j _. now apply stab_log_iter.
Qed.

Lemma scale_rows_log_u m phi p sigma b v i :
  (0 < m)%nat -> 0 < sigma -> 0 < p i ->
  (forall j, (j < m)%nat -> b j = scaling sigma v j) ->
  scale_rows m phi p sigma b i = scaling sigma (log_u m phi p sigma v) i.
Proof.
  intros Hm Hs Hp Hb. unfold scale_rows, scaling, log_u, mu_.
  assert (Hs0 : sigma <> 0) by lra.
  set (s := Rsum m (fun j => exp ((phi i j - v j) / sigma))).
  assert (Hpos : 0 < s) by now apply Rsum_exp_pos.
  assert (E : Rsum m (fun j => Kernel phi sigma i j * b j) = s).
  { apply Rsum_ext. intros j Hj. rewrite Hb by assumption.
    unfold Kernel, scaling. now rewrite exp_shift. }
  rewrite E.
  replace (- (- sigma * ln (p i) + sigma * ln s) / sigma)
    with (ln (p i) + - ln s) by (field; assumption).
  rewrite exp_plus, exp_Ropp, !exp_ln by assumption. reflexivity.
Qed.

Lemma col_mass_log_col n phi sigma a u j :
  sigma <> 0 ->
  (forall i, (i < n)%nat -> a i = scaling sigma u i) ->
  col_mass n phi sigma a j = log_col n phi sigma u j.
Proof.
  intros Hs Ha. unfold col_mass, log_col. apply Rsum_ext. intros i Hi.
  rewrite Ha by assumption. unfold Kernel, scaling.
  rewrite exp_shift by assumption. ring.
Qed.

Lemma scale_cols_log_v n phi q sigma a u j :
  (0 < n)%nat -> 0 < sigma -> 0 < q j ->
  (forall i, (i < n)%nat -> a i = scaling sigma u i) ->
  scale_cols n phi q sigma a j = scaling sigma (log_v n phi q sigma u) j.
Proof.
  intros Hn Hs Hq Ha. unfold scale_cols, scaling, log_v, nu_.
  assert (Hs0 : sigma <> 0) by lra.
  rewrite (col_mass_log_col n phi sigma a u j) by assumption.
  set (s := log_col n phi sigma u j).
  assert (Hpos : 0 < s) by (unfold s, log_col; now apply Rsum_exp_pos).
  replace (- (- sigma * ln (q j) + sigma * ln s) / sigma)
    with (ln (q j) + - ln s) by (field; assumption).
  rewrite exp_plus, exp_Ropp, !exp_ln by assumption. reflexivity.
Qed.



Lemma scaled_kernel_gibbs phi sigma a b u v i j :
  sigma <> 0 -> a i = scaling sigma u i -> b j = scaling sigma v j ->
  scaled_kernel phi sigma a b i j = gibbs phi sigma u v i j.
Proof.
  intros Hs Ha Hb. unfold scaled_kernel, gibbs, Kernel. rewrite Ha, Hb.
  unfold scaling. rewrite <- !exp_plus. f_equal. field. assumption.
Qed.

Lemma marginal_error_log_error n m phi q sigma a b u v :
  sigma <> 0 ->
  (forall i, (i < n)%nat -> a i = scaling sigma u i) ->
  (forall j, (j < m)%nat -> b j = scaling sigma v j) ->
  marginal_error n m phi q sigma a b = log_error n m phi q sigma u v.
Proof.
  intros Hs Ha Hb. unfold marginal_error, log_error.
  apply Rmaxn_ext. intros j Hj.
  rewrite (col_mass_log_col n phi sigma a u j) by assumption.
  rewrite Hb by assumption. unfold scaling. f_equal. unfold Rdiv. ring.
Qed.



(** *** Column sums *)

Lemma scaled_kernel_columns n phi q sigma a j :
  (0 < n)%nat -> positive_on n a ->
  Rsum n (fun i => scaled_kernel phi sigma a (scale_cols n phi q sigma a) i j)
  = q j.
Proof.
  intros Hn Ha. unfold scaled_kernel, scale_cols.
  pose proof (col_mass_pos n phi sigma a j Hn Ha) as Hc.
  rewrite Rsum_scal.
  replace (Rsum n (fun i => Kernel phi sigma i j * a i))
    with (col_mass n phi sigma a j).
  - field. lra.
  - unfold col_mass. apply Rsum_ext. intros i _. ring.
Qed.

Lemma gibbs_columns_log n phi q sigma u j :
  (0 < n)%nat -> 0 < sigma -> 0 < q j ->
  Rsum n (fun i => gibbs phi sigma u (log_v n phi q sigma u) i j) = q j.
Proof.
  intros Hn Hs Hq. assert (Hs0 : sigma <> 0) by lra.
  set (s := log_col n phi sigma u j).
  assert (Hpos : 0 < s) by (unfold s, log_col; now apply Rsum_exp_pos).
  rewrite (Rsum_ext n _ (fun i => exp ((phi i j - u i) / sigma) * (q j / s))).
  - rewrite Rsum_scal. fold (log_col n phi sigma u j). fold s. field. lra.
  - intros i Hi. unfold gibbs, log_v, nu_. fold s.
    replace ((phi i j - u i - (- sigma * ln (q j) + sigma * ln s)) / sigma)
      with ((phi i j - u i) / sigma + (ln (q j) + - ln s)) by (field; assumption).
    rewrite !exp_plus, exp_Ropp, !exp_ln by assumption. reflexivity.
Qed.

Lemma gibbs_ext_v phi sigma u v v' i j :
  v j = v' j -> gibbs phi sigma u v i j = gibbs phi sigma u v' i j.
Proof. intros H. unfold gibbs. now rewrite H. Qed.

Lemma gibbs_columns_stab n phi q sigma u j :
  (0 < n)%nat -> 0 < sigma -> 0 < q j ->
  Rsum n (fun i => gibbs phi sigma u (stab_v n phi q sigma u) i j) = q j.
Proof.
  intros Hn Hs Hq.
  rewrite <- (gibbs_columns_log n phi q sigma u j Hn Hs Hq).
  apply Rsum_ext. intros i _. apply gibbs_ext_v.
  apply stab_v_log_v; [assumption|lra].
Qed.

(** *** Row sums when the loop of cell 5 stops on its tolerance *)

(** After a = p / (K b) and b' = q / (K^T a): every row of a K b' is
    within the error measured on (a, b), relative to the row itself. *)
Lemma row_sum_error n m phi p q sigma b i :
  (0 < n)%nat -> (0 < m)%nat ->
  positive_on n p -> positive_on m q -> positive_on m b -> (i < n)%nat ->
  let a := scale_rows m phi p sigma b in
  let b' := scale_cols n phi q sigma a in
  let row := Rsum m (fun j => scaled_kernel phi sigma a b' i j) in
  Rabs (row - p i) <= marginal_error n m phi q sigma a b * row.
Proof.
  intros Hn Hm Hp Hq Hb Hi a b' row.
  assert (Ha : positive_on n a) by now apply scale_rows_pos.
  assert (Hb' : positive_on m b') by now apply scale_cols_pos.
  set (err := marginal_error n m phi q sigma a b).
  set (delta := fun j => col_mass n phi sigma a j * (b j / q j) - 1).
  assert (Hdelta : forall j, (j < m)%nat -> Rabs (delta j) <= err).
  { intros j Hj. apply (Rmaxn_ub m (fun j => Rabs (delta j)) j Hj). }
  assert (Hbj : forall j, (j < m)%nat -> b j = b' j * (1 + delta j)).
  { intros j Hj. unfold b', scale_cols, delta.
    pose proof (col_mass_pos n phi sigma a j Hn Ha).
    pose proof (Hq j Hj). field. split; lra. }
  assert (Hpi : p i = Rsum m (fun j => scaled_kernel phi sigma a b i j)).
  { unfold scaled_kernel.
    rewrite (Rsum_ext m _ (fun j => Kernel phi sigma i j * b j * a i))
      by (intros; ring).
    rewrite Rsum_scal. unfold a, scale_rows.
    pose proof (row_mass_pos m phi sigma b i Hm Hb). field. lra. }
  assert (E : row - p i
              = Rsum m (fun j => scaled_kernel phi sigma a b' i j * (- delta j))).
  { rewrite Hpi. unfold row. rewrite <- Rsum_minus. apply Rsum_ext.
    intros j Hj. unfold scaled_kernel. rewrite (Hbj j Hj). ring. }
  rewrite E. eapply Rle_trans; [apply Rsum_abs|].
  unfold row. rewrite Rmult_comm, <- Rsum_scal. apply Rsum_le.
  intros j Hj. rewrite Rabs_mult, Rabs_Ropp.
  assert (0 < scaled_kernel phi sigma a b' i j).
  { unfold scaled_kernel. apply Rmult_lt_0_compat;
      [apply Rmult_lt_0_compat|]; [apply Kernel_pos|now apply Ha|now apply Hb']. }
  rewrite (Rabs_right (scaled_kernel phi sigma a b' i j)) by lra.
  apply Rmult_le_compat_l; [lra|]. now apply Hdelta.
Qed.

(** With q of total mass 1 no row is heavier than 1. *)
Lemma row_sum_le_one n m phi q sigma a i :
  (0 < n)%nat -> positive_on n a -> positive_on m q -> (i < n)%nat ->
  Rsum m q = 1 ->
  Rsum m (fun j => scaled_kernel phi sigma a (scale_cols n phi q sigma a) i j)
  <= 1.
Proof.
  intros Hn Ha Hq Hi Hone.
  set (b' := scale_cols n phi q sigma a).
  assert (Hpos : forall k j, (k < n)%nat -> (j < m)%nat ->
                 0 < scaled_kernel phi sigma a b' k j).
  { intros k j Hk Hj. unfold scaled_kernel.
    apply Rmult_lt_0_compat; [apply Rmult_lt_0_compat|].
    - apply Kernel_pos.
    - now apply Ha.
    - unfold b', scale_cols. apply Rdiv_lt_0_compat; [now apply Hq|].
      now apply col_mass_pos. }
  eapply Rle_trans.
  - apply (Rsum_single_le n
             (fun k => Rsum m (fun j => scaled_kernel phi sigma a b' k j)) i Hi).
    intros k Hk. apply Rsum_nonneg. intros j Hj. apply Rlt_le. now apply Hpos.
  - rewrite Rsum_swap. rewrite <- Hone. apply Req_le. apply Rsum_ext.
    intros j Hj. now apply scaled_kernel_columns.
Qed.

(** *** The exponents of the stabilized variant *)



(** ** The cells on a valid problem *)

(** *** One turn *)

Lemma matrix_body_fin n m phi p q sigma b A0 e0 t :
  valid n m p q sigma -> positive_on m b ->
  let a := scale_rows m phi p sigma b in
  matrix_body (emat n m (Kernel phi sigma)) (evec n p) (evec m q)
    {| mA := A0; mB := two_d (evec m b); merror := e0; mite := t |}
  = Done {| mA := Some (two_d (evec n a));
            mB := two_d (evec m (scale_cols n phi q sigma a));
            merror := Fin (marginal_error n m phi q sigma a b);
            mite := S t |}.
Proof.
  intros (Hn & Hm & Hp & Hq & Hs) Hb a.
  assert (Ha : positive_on n a) by now apply scale_rows_pos.
  unfold matrix_body, evec, emat. cbn [mB mite].
  rewrite !two_d_tabv.
  rewrite matmul_tab2 by assumption. cbn [bind].
  rewrite flattenF_col by assumption.
  rewrite bcast1_tabv. cbn [bind].
  rewrite (tabv_ext n _ (fun i => Fin (a i))).
  2:{ intros i Hi. cbn [xmul]. rewrite xsum_fin. apply xdiv_fin.
      apply Rgt_not_eq. now apply row_mass_pos. }
  rewrite !two_d_tabv, transpose_tab2 by assumption.
  rewrite matmul_tab2 by lia. cbn [bind xmul].
  rewrite (tab2_ext 1 m _ (fun _ j => Fin (col_mass n phi sigma a j)))
    by (intros; apply xsum_fin).
  rewrite flatten_col, bcast1_tabv. cbn [bind].
  rewrite as_row_tabv, bcast2_same by lia. cbn [bind].
  rewrite !map_mat_tab2, np_max_row by assumption. cbn [bind].
  rewrite as_row_tabv, bcast2_same by lia. cbn [bind].
  rewrite transpose_tab2 by lia.
  f_equal. f_equal.
  - apply tab2_ext. intros j k Hj _. apply xdiv_fin.
    apply Rgt_not_eq. now apply col_mass_pos.
  - rewrite (tabv_ext m _ (fun j => Fin (Rabs (col_mass n phi sigma a j * (b j / q j) - 1)))).
    + now apply fold_max_fin.
    + intros j Hj. rewrite xdiv_fin by (apply Rgt_not_eq; now apply Hq).
      reflexivity.
Qed.

Lemma log_body_fin n m phi p q sigma v u0 e0 t :
  valid n m p q sigma ->
  let u := log_u m phi p sigma v in
  log_body (emat n m phi) (evec m q) (evec n (mu_ p sigma)) (evec m (nu_ q sigma))
    n (Fin sigma) {| lu := u0; lv := evec m v; lerror := e0; lite := t |}
  = Done {| lu := Some (evec n u);
            lv := evec m (log_v n phi q sigma u);
            lerror := Fin (log_error n m phi q sigma u v);
            lite := S t |}.
Proof.
  intros (Hn & Hm & Hp & Hq & Hs) u.
  assert (Hs0 : sigma <> 0) by lra.
  unfold log_body, evec, emat. cbn [lv lite].
  rewrite rows_of_tabv by assumption.
  rewrite bcast2_same by assumption. cbn [bind xsub xadd xneg].
  rewrite exp_over_sigma_fin by assumption.
  rewrite sum_axis1_fin.
  rewrite sigma_log_fin by (intros i Hi; now apply Rsum_exp_pos).
  rewrite bcast1_tabv. cbn [bind xadd].
  rewrite two_d_tabv, bcast2_col by assumption. cbn [bind xsub xadd xneg].
  rewrite exp_over_sigma_fin by assumption.
  rewrite sum_axis0_fin by assumption.
  rewrite !tabv_map, bcast1_tabv. cbn [bind].
  rewrite bcast1_tabv. cbn [bind].
  rewrite !tabv_map, np_max1_tabv by assumption. cbn [bind].
  rewrite sigma_log_fin by (intros i Hi; now apply Rsum_exp_pos).
  rewrite bcast1_tabv. cbn [bind xadd].
  f_equal. f_equal.
  rewrite (tabv_ext m _ (fun j => Fin (Rabs (log_col n phi sigma u j * exp (- v j / sigma) / q j - 1)))).
  - now apply fold_max_fin.
  - intros j Hj. cbn [xneg]. rewrite xdiv_fin by assumption. cbn [xexp xmul].
    rewrite xdiv_fin by (apply Rgt_not_eq; now apply Hq). reflexivity.
Qed.

Lemma lse_body_core n m phi p q sigma v u0 prev e0 t dv err :
  valid n m p q sigma ->
  let u := stab_u m phi p sigma v in
  sub_previous (tabv n (fun i => Fin (u i))) prev = Done dv ->
  np_max1 (map xabs dv) = Done err ->
  lse_body (emat n m phi) (evec n (mu_ p sigma)) (evec m (nu_ q sigma))
    n (Fin sigma)
    {| su := u0; sv := evec m v; suprec := prev; serror := e0; site := t |}
  = Done {| su := Some (evec n u);
            sv := evec m (stab_v n phi q sigma u);
            suprec := Array (evec n u);
            serror := err;
            site := S t |}.
Proof.
  intros (Hn & Hm & Hp & Hq & Hs) u Hd He.
  assert (Hs0 : sigma <> 0) by lra.
  unfold lse_body, lse_vstar, lse_u_exponents, lse_ustar, lse_v_exponents,
    evec, emat.
  cbn [sv site suprec].
  rewrite transpose_tab2 by assumption.
  rewrite two_d_tabv, bcast2_col by assumption. cbn [bind xsub xadd xneg].
  rewrite max_axis0_fin by assumption. cbn [bind].
  rewrite bcast1_tabv. cbn [bind xadd].
  rewrite rows_of_tabv by assumption.
  rewrite bcast2_same by assumption. cbn [bind xsub xadd xneg].
  rewrite two_d_tabv, bcast2_col by assumption. cbn [bind xsub xadd xneg].
  rewrite over_sigma_fin by assumption. cbn [bind].
  rewrite map_mat_tab2. cbn [xexp].
  rewrite sum_axis1_fin.
  rewrite sigma_log_fin by (intros i Hi; now apply Rsum_exp_pos).
  rewrite bcast1_tabv. cbn [bind xadd].
  match goal with
  | |- context [sub_previous ?t prev] =>
      change t with (tabv n (fun i => Fin (u i)))
  end.
  rewrite Hd. cbn [bind]. rewrite He. cbn [bind].
  rewrite two_d_tabv, bcast2_col by assumption. cbn [bind xsub xadd xneg].
  rewrite max_axis0_fin by assumption. cbn [bind].
  rewrite rows_of_tabv by assumption.
  rewrite bcast2_same by assumption. cbn [bind xsub xadd xneg].
  rewrite over_sigma_fin by assumption.
  rewrite map_mat_tab2. cbn [xexp].
  rewrite sum_axis0_fin by assumption.
  rewrite bcast1_tabv. cbn [bind xadd].
  rewrite sigma_log_fin by (intros i Hi; now apply Rsum_exp_pos).
  rewrite bcast1_tabv. cbn [bind xadd].
  reflexivity.
Qed.

(** *** Cell 5 *)

Lemma matrix_init_at n m phi p q sigma tol :
  matrix_init m (Fin tol) = matrix_state_at n m phi p q sigma tol 0.
Proof.
  unfold matrix_init, matrix_state_at. f_equal.
  unfold evec. now rewrite np_repeat_tabv.
Qed.

Lemma matrix_body_at n m phi p q sigma tol k :
  valid n m p q sigma ->
  matrix_body (emat n m (Kernel phi sigma)) (evec n p) (evec m q)
    (matrix_state_at n m phi p q sigma tol k)
  = Done (matrix_state_at n m phi p q sigma tol (S k)).
Proof.
  intros H. unfold matrix_state_at at 1.
  rewrite (matrix_body_fin n m phi p q sigma) by
    (try assumption; now apply sinkhorn_b_pos).
  reflexivity.
Qed.

Lemma matrix_guard_at n m phi p q sigma tol maxite k :
  matrix_guard (Fin tol) maxite (matrix_state_at n m phi p q sigma tol k)
  = sinkhorn_continue n m phi p q sigma tol maxite k.
Proof. reflexivity. Qed.

Lemma sinkhorn_continue_cap n m phi p q sigma tol maxite :
  sinkhorn_continue n m phi p q sigma tol maxite maxite = false.
Proof.
  unfold sinkhorn_continue. rewrite Nat.ltb_irrefl. apply andb_false_r.
Qed.

Lemma matrix_iterate n m phi p q sigma tol k :
  valid n m p q sigma ->
  iterate k (matrix_body (kernel (emat n m phi) (Fin sigma)) (evec n p) (evec m q))
    (matrix_init m (Fin tol))
  = Done (matrix_state_at n m phi p q sigma tol k).
Proof.
  intros H. assert (Hs : sigma <> 0) by (destruct H as (_ & _ & _ & _ & Hs); lra).
  rewrite kernel_fin by assumption.
  rewrite (matrix_init_at n m phi p q sigma tol).
  apply (iterate_run _ (matrix_state_at n m phi p q sigma tol)).
  intros j _. now apply matrix_body_at.
Qed.

Lemma matrix_loop_run n m phi p q sigma tol maxite :
  valid n m p q sigma ->
  matrix_loop (S maxite) (emat n m (Kernel phi sigma)) (evec n p) (evec m q)
    (Fin tol) maxite (matrix_init m (Fin tol))
  = Done (matrix_state_at n m phi p q sigma tol
            (sinkhorn_turns n m phi p q sigma tol maxite)).
Proof.
  intros H. rewrite (matrix_init_at n m phi p q sigma tol).
  destruct (first_exit_stop _ maxite
              (sinkhorn_continue_cap n m phi p q sigma tol maxite))
    as (Hle & Hgo & Hstop).
  unfold matrix_loop.
  apply (while_run _ _ (matrix_state_at n m phi p q sigma tol)).
  - unfold sinkhorn_turns. lia.
  - lia.
  - intros j Hj. split.
    + rewrite matrix_guard_at. apply Hgo. unfold sinkhorn_turns in Hj. lia.
    + now apply matrix_body_at.
  - rewrite matrix_guard_at. exact Hstop.
Qed.

Lemma sinkhorn_turns_pos n m phi p q sigma tol maxite :
  (0 < maxite)%nat -> (0 < sinkhorn_turns n m phi p q sigma tol maxite)%nat.
Proof.
  intros Hm. unfold sinkhorn_turns. destruct maxite as [|c]; [lia|].
  simpl. unfold sinkhorn_continue at 1. simpl sinkhorn_error.
  unfold Rltb. destruct (Rlt_dec tol (tol + 1)) as [_|H]; [|exfalso; lra].
  simpl. pose proof (first_exit_spec
    (sinkhorn_continue n m phi p q sigma tol (S c)) c 1) as (Hb & _). lia.
Qed.

Lemma matrix_IPFP_run n m phi p q sigma tol maxite :
  valid n m p q sigma -> (0 < maxite)%nat ->
  let N := sinkhorn_turns n m phi p q sigma tol maxite in
  let a := sinkhorn_a n m phi p q sigma (N - 1) in
  let b := sinkhorn_b n m phi p q sigma N in
  let pi := fun i j => sinkhorn_pi n m phi p q sigma tol maxite (bidx n i) j in
  matrix_IPFP (emat n m phi) (evec n p) (evec m q) m (Fin tol) maxite (Fin sigma)
  = match bdim n 5 with
    | Some r =>
        Done {| r_u := emat n 1 (fun i _ => (- sigma) * ln (a i));
                r_v := emat m 1 (fun j _ => (- sigma) * ln (b j));
                r_pi := emat r m pi;
                r_val := Fin (Robjective r m (fun i j => phi (bidx n i) j) pi sigma);
                r_ite := N;
                r_status := status_of N maxite |}
    | None => Raise ValueError
    end.
Proof.
  intros H Hmax N a b pi.
  pose proof (sinkhorn_turns_pos n m phi p q sigma tol maxite Hmax) as HN.
  fold N in HN.
  pose proof (sinkhorn_a_pos n m phi p q sigma (N - 1) H) as Ha. fold a in Ha.
  pose proof (sinkhorn_b_pos n m phi p q sigma N H) as Hb. fold b in Hb.
  pose proof H as (Hn & Hm & Hp & Hq & Hs).
  unfold matrix_IPFP.
  rewrite kernel_fin by lra.
  rewrite matrix_loop_run by assumption. cbn [bind]. fold N.
  destruct N as [|N'] eqn:EN; [lia|].
  unfold matrix_state_at. cbn [mA mB mite bind].
  replace (sinkhorn_a n m phi p q sigma N') with a
    by (unfold a; f_equal; lia).
  fold b. unfold evec, emat. rewrite !two_d_tabv.
  rewrite matrix_pi_tab by assumption.
  destruct (bdim n 5) as [r|] eqn:E; [|reflexivity].
  destruct (bdim_five n r E) as [-> Hn5].
  cbn [bind xmul].
  assert (Hd : bdim 5 n = Some 5%nat) by (destruct Hn5; subst; reflexivity).
  assert (Hpi : forall i j, (i < 5)%nat -> (j < m)%nat -> 0 < pi i j).
  { intros i j Hi Hj. unfold pi, sinkhorn_pi. fold N. rewrite EN.
    replace (S N' - 1)%nat with N' by lia.
    destruct (bdim_bound n 5 5 i E Hi) as [Hbi _].
    apply Rmult_lt_0_compat; [apply Rmult_lt_0_compat|].
    - apply Kernel_pos.
    - replace (sinkhorn_a n m phi p q sigma N') with a
        by (unfold a; f_equal; lia). now apply Ha.
    - now apply Hb. }
  assert (Epi : tab2 5 m (fun i j =>
                  Fin (Kernel phi sigma (bidx n i) j * a (bidx n i) * b j))
                = tab2 5 m (fun i j => Fin (pi i j))).
  { apply tab2_ext. intros i j Hi Hj. unfold pi, sinkhorn_pi.
    fold N. rewrite EN. unfold a, b.
    replace (S N' - 1)%nat with (N' - 0)%nat by lia. reflexivity. }
  rewrite Epi.
  pose proof (objective_fin n 5 m phi pi sigma Hn ltac:(lia) Hd Hpi) as Ho.
  unfold emat in Ho. rewrite Ho. cbn [bind].
  f_equal. f_equal.
  - rewrite !map_mat_tab2. apply tab2_ext. intros i j Hi _.
    rewrite xlog_fin by now apply Ha. reflexivity.
  - rewrite !map_mat_tab2. apply tab2_ext. intros j k Hj _.
    rewrite xlog_fin by now apply Hb. reflexivity.
Qed.

Lemma status_converged ite maxite :
  status_of ite maxite = Converged -> (ite < maxite)%nat.
Proof.
  unfold status_of. destruct (Nat.leb_spec maxite ite); [discriminate|].
  intros _. assumption.
Qed.

(** With five rows, where the coupling of cell 5 has the shape of Phi:
    when the cell reports convergence, every row of the coupling is within
    the tolerance of p and every column sums to q. *)
Lemma matrix_IPFP_five_rows m phi p q sigma tol maxite :
  valid 5 m p q sigma -> Rsum m q = 1 -> (0 < maxite)%nat ->
  let pi := sinkhorn_pi 5 m phi p q sigma tol maxite in
  exists r,
    matrix_IPFP (emat 5 m phi) (evec 5 p) (evec m q) m (Fin tol) maxite
      (Fin sigma) = Done r
    /\ r_pi r = emat 5 m pi
    /\ (forall j, (j < m)%nat -> Rsum 5 (fun i => pi i j) = q j)
    /\ (r_status r = Converged ->
        forall i, (i < 5)%nat -> Rabs (Rsum m (fun j => pi i j) - p i) <= tol).
Proof.
  intros H Hone Hmax pi. pose proof H as (Hn & Hm & Hp & Hq & Hs).
  pose proof (sinkhorn_turns_pos 5 m phi p q sigma tol maxite Hmax) as HN.
  eexists. split.
  { rewrite matrix_IPFP_run by assumption. reflexivity. }
  cbn [r_pi r_status].
  assert (Epi : forall i j,
            pi i j = scaled_kernel phi sigma
                       (sinkhorn_a 5 m phi p q sigma
                          (sinkhorn_turns 5 m phi p q sigma tol maxite - 1))
                       (scale_cols 5 phi q sigma
                          (sinkhorn_a 5 m phi p q sigma
                             (sinkhorn_turns 5 m phi p q sigma tol maxite - 1)))
                       i j).
  { intros i j. unfold pi, sinkhorn_pi, scaled_kernel.
    destruct (sinkhorn_turns 5 m phi p q sigma tol maxite) as [|N]; [lia|].
    replace (S N - 1)%nat with N by lia. reflexivity. }
  split; [|split].
  - apply emat_ext. intros i j Hi Hj. now rewrite (bidx_lt 5 i).
  - intros j Hj. rewrite (Rsum_ext 5 _ _ (fun i _ => Epi i j)).
    apply scaled_kernel_columns; [lia|]. now apply sinkhorn_a_pos.
  - intros Hconv i Hi. apply status_converged in Hconv.
    destruct (first_exit_stop _ maxite
                (sinkhorn_continue_cap 5 m phi p q sigma tol maxite))
      as (_ & _ & Hstop).
    fold (sinkhorn_turns 5 m phi p q sigma tol maxite) in Hstop.
    unfold sinkhorn_continue in Hstop.
    apply andb_false_iff in Hstop.
    destruct Hstop as [Herr|Hcap]; [|apply Nat.ltb_ge in Hcap; lia].
    apply Rltb_false in Herr.
    rewrite (Rsum_ext m (fun j => pi i j) _ (fun j _ => Epi i j)).
    destruct (sinkhorn_turns 5 m phi p q sigma tol maxite) as [|N]; [lia|].
    replace (S N - 1)%nat with N in * by lia.
    cbn [sinkhorn_error] in Herr.
    set (b := sinkhorn_b 5 m phi p q sigma N) in *.
    pose proof (sinkhorn_b_pos 5 m phi p q sigma N H) as Hb. fold b in Hb.
    pose proof (row_sum_error 5 m phi p q sigma b i Hn Hm Hp Hq Hb Hi) as Hrow.
    cbv zeta in Hrow.
    set (a := sinkhorn_a 5 m phi p q sigma N) in *.
    change (scale_rows m phi p sigma b) with a in Hrow.
    pose proof (sinkhorn_a_pos 5 m phi p q sigma N H) as Ha. fold a in Ha.
    pose proof (row_sum_le_one 5 m phi q sigma a i Hn Ha Hq Hi Hone) as Hle.
    set (row := Rsum m (fun j =>
                  scaled_kernel phi sigma a (scale_cols 5 phi q sigma a) i j)) in *.
    set (err := marginal_error 5 m phi q sigma a b) in *.
    assert (0 <= err).
    { unfold err, marginal_error. now apply Rmaxn_nonneg_abs. }
    assert (0 <= row).
    { unfold row. apply Rsum_nonneg. intros j Hj. apply Rlt_le.
      unfold scaled_kernel. apply Rmult_lt_0_compat;
        [apply Rmult_lt_0_compat|];
        [apply Kernel_pos|now apply Ha|].
      exact (scale_cols_pos 5 m phi q sigma a Hn Hq Ha j Hj). }
    apply (Rle_trans _ _ _ Hrow). nra.
Qed.

(** *** Cell 6 *)








(** *** Cell 7 *)

Lemma lse_init_at n m phi p q sigma tol :
  lse_init m (Fin tol) = lse_state_at n m phi p q sigma tol 0.
Proof.
  unfold lse_init, lse_state_at. f_equal.
  unfold evec. now rewrite np_repeat_tabv.
Qed.

Lemma lse_body_at n m phi p q sigma tol k :
  valid n m p q sigma ->
  lse_body (emat n m phi) (evec n (mu_ p sigma)) (evec m (nu_ q sigma))
    n (Fin sigma) (lse_state_at n m phi p q sigma tol k)
  = Done (lse_state_at n m phi p q sigma tol (S k)).
Proof.
  intros H. pose proof H as (Hn & Hm & Hp & Hq & Hs).
  unfold lse_state_at at 1. destruct k as [|k].
  - apply (lse_body_core n m phi p q sigma _ _ _ _ _
             (tabv n (fun _ => PInf)) PInf H).
    + unfold sub_previous. now rewrite tabv_map.
    + rewrite tabv_map. rewrite np_max1_tabv by assumption.
      f_equal. now apply fold_max_pinf.
  - apply (lse_body_core n m phi p q sigma _ _ _ _ _
             (tabv n (fun i => Fin (stab_u_iter n m phi p q sigma (S k) i
                                     - stab_u_iter n m phi p q sigma k i)))
             _ H).
    + unfold sub_previous, evec. now rewrite bcast1_tabv.
    + rewrite tabv_map. rewrite np_max1_tabv by assumption.
      f_equal. now apply fold_max_fin.
Qed.

Lemma stab_continue_cap n m phi p q sigma tol maxite :
  stab_continue n m phi p q sigma tol maxite maxite = false.
Proof.
  unfold stab_continue. rewrite Nat.ltb_irrefl. apply andb_false_r.
Qed.

Lemma lse_iterate n m phi p q sigma tol k :
  valid n m p q sigma ->
  iterate k (lse_body (emat n m phi)
               (neg_sigma_log (Fin sigma) (evec n p))
               (neg_sigma_log (Fin sigma) (evec m q)) n (Fin sigma))
    (lse_init m (Fin tol))
  = Done (lse_state_at n m phi p q sigma tol k).
Proof.
  intros H. pose proof H as (Hn & Hm & Hp & Hq & Hs).
  rewrite (neg_sigma_log_evec n p sigma Hp), (neg_sigma_log_evec m q sigma Hq).
  rewrite (lse_init_at n m phi p q sigma tol).
  apply (iterate_run _ (lse_state_at n m phi p q sigma tol)).
  intros j _. now apply lse_body_at.
Qed.

Lemma lse_loop_run n m phi p q sigma tol maxite :
  valid n m p q sigma ->
  lse_loop (S maxite) (emat n m phi) (evec n (mu_ p sigma))
    (evec m (nu_ q sigma)) n (Fin sigma) (Fin tol) maxite (lse_init m (Fin tol))
  = Done (lse_state_at n m phi p q sigma tol
            (stab_turns n m phi p q sigma tol maxite)).
Proof.
  intros H. rewrite (lse_init_at n m phi p q sigma tol).
  destruct (first_exit_stop _ maxite
              (stab_continue_cap n m phi p q sigma tol maxite))
    as (Hle & Hgo & Hstop).
  unfold lse_loop.
  apply (while_run _ _ (lse_state_at n m phi p q sigma tol)).
  - unfold stab_turns. lia.
  - lia.
  - intros j Hj. split.
    + apply (Hgo j). unfold stab_turns in Hj. lia.
    + now apply lse_body_at.
  - exact Hstop.
Qed.

Lemma stab_turns_pos n m phi p q sigma tol maxite :
  (0 < maxite)%nat -> (0 < stab_turns n m phi p q sigma tol maxite)%nat.
Proof.
  intros Hm. apply continue_pos; [|assumption].
  unfold stab_continue. simpl stab_error_at. cbn [xgt]. rewrite Rltb_succ.
  destruct maxite; [lia|reflexivity].
Qed.

Lemma lse_IPFP_run n m phi p q sigma tol maxite :
  valid n m p q sigma -> (0 < maxite)%nat ->
  let N := stab_turns n m phi p q sigma tol maxite in
  let u := stab_u_iter n m phi p q sigma (N - 1) in
  let v := stab_v_iter n m phi p q sigma N in
  lse_IPFP (emat n m phi) (evec n p) (evec m q) n m (Fin tol) maxite (Fin sigma)
  = Done {| l_u := evec n u;
            l_v := evec m v;
            l_pi := emat n m (gibbs phi sigma u v);
            l_val := Fin (Robjective n m phi (gibbs phi sigma u v) sigma);
            l_ite := N;
            l_status := status_of N maxite |}.
Proof.
  intros H Hmax N u v.
  pose proof (stab_turns_pos n m phi p q sigma tol maxite Hmax) as HN.
  fold N in HN.
  pose proof H as (Hn & Hm & Hp & Hq & Hs).
  unfold lse_IPFP.
  cbv zeta.
  rewrite (neg_sigma_log_evec n p sigma Hp), (neg_sigma_log_evec m q sigma Hq).
  change (fun i => - sigma * ln (p i)) with (mu_ p sigma).
  change (fun i => - sigma * ln (q i)) with (nu_ q sigma).
  rewrite lse_loop_run by assumption. cbn [bind]. fold N.
  destruct N as [|N'] eqn:EN; [lia|].
  unfold lse_state_at. cbn [su sv site bind].
  replace (stab_u_iter n m phi p q sigma N') with u
    by (unfold u; f_equal; lia).
  fold v.
  rewrite coupling_fin by (try assumption; lra). cbn [bind].
  pose proof (objective_fin n n m phi (gibbs phi sigma u v) sigma Hn Hn
                (bdim_refl n) (fun i j _ _ => gibbs_pos phi sigma u v i j)) as Ho.
  rewrite Ho. cbn [bind]. f_equal. f_equal. f_equal.
  unfold Robjective. f_equal.
  apply Rsum_ext. intros i Hi. apply Rsum_ext. intros j Hj.
  now rewrite (bidx_lt n i).
Qed.

(** ** A marginal with a zero entry *)

Lemma xsum_nan l : In NaN l -> xsum l = NaN.
Proof.
  induction l as [|x l IH]; intros H; [contradiction|].
  destruct H as [->|H]; [reflexivity|].
  change (xsum (x :: l)) with (xadd x (xsum l)).
  rewrite (IH H). destruct x; reflexivity.
Qed.

Lemma np_sum_nan n m P i j :
  (i < n)%nat -> (j < m)%nat -> P i j = NaN -> np_sum (tab2 n m P) = NaN.
Proof.
  intros Hi Hj H. unfold np_sum, flatten. apply xsum_nan.
  apply in_concat. exists (tabv m (P i)). split.
  - unfold tab2, tabv. apply (in_map (fun i => map (P i) (seq 0 m))).
    apply in_seq. lia.
  - rewrite <- H. unfold tabv. apply (in_map (P i)). apply in_seq. lia.
Qed.

(** [pi * np.log(pi)] where pi is zero or not a number *)
Lemma zero_log_zero x : x = Fin 0 \/ x = NaN -> xmul x (xlog x) = NaN.
Proof.
  intros [->| ->]; [|reflexivity]. unfold xlog.
  destruct (Rlt_dec 0 0); [lra|]. cbn [xmul]. unfold scale_inf.
  destruct (Rlt_dec 0 0); [lra|reflexivity].
Qed.

Lemma objective_nan n m F P sigma i j :
  (0 < n)%nat -> (i < n)%nat -> (j < m)%nat ->
  P i j = Fin 0 \/ P i j = NaN ->
  objective (tab2 n m F) (tab2 n m P) sigma = Done NaN.
Proof.
  intros Hn Hi Hj H. unfold objective.
  rewrite bcast2_same by assumption. cbn [bind].
  rewrite map_mat_tab2, bcast2_same by assumption. cbn [bind].
  rewrite (np_sum_nan n m (fun i j => xmul (P i j) (xlog (P i j))) i j Hi Hj)
    by now apply zero_log_zero.
  f_equal. destruct sigma; cbn [xmul];
    destruct (np_sum (tab2 n m (fun i j => xmul (P i j) (F i j))));
    reflexivity.
Qed.

Lemma xadd_pinf x y : pinf_or_nan x -> pinf_or_nan (xadd x y).
Proof.
  intros [->| ->]; destruct y; cbn; unfold pinf_or_nan; auto.
Qed.

Lemma mu_zero sigma : 0 < sigma -> xmul (xneg (Fin sigma)) (xlog (Fin 0)) = PInf.
Proof.
  intros Hs. unfold xlog. destruct (Rlt_dec 0 0); [lra|].
  cbn [xneg xmul]. unfold scale_inf.
  destruct (Rlt_dec 0 (- sigma)); [lra|].
  destruct (Rlt_dec (- sigma) 0); [reflexivity|lra].
Qed.

Lemma x_stab_u_pinf m F mu v sigma i :
  mu i = PInf -> pinf_or_nan (x_stab_u m F mu v sigma i).
Proof.
  intros H. unfold x_stab_u. rewrite H.
  apply xadd_pinf, xadd_pinf. now left.
Qed.

Lemma gibbs_zero_row f u v sigma :
  0 < sigma -> pinf_or_nan u ->
  let x := xexp (xdiv (xsub (xsub (Fin f) u) v) (Fin sigma)) in
  x = Fin 0 \/ x = NaN.
Proof.
  intros Hs [->| ->]; cbn [xsub xneg xadd]; [|now right].
  destruct v; cbn [xneg xadd xdiv xexp]; try (now right).
  - destruct (Rlt_dec sigma 0); [lra|]. now left.
  - destruct (Rlt_dec sigma 0); [lra|]. now left.
Qed.

(** With a zero entry in p the objective cell 7 returns is NaN, and the
    u it returns is not finite at that entry. *)
Lemma lse_zero_marginal n m phi p (q : nat -> xreal) sigma tol maxite i :
  (0 < n)%nat -> (0 < m)%nat -> (i < n)%nat -> p i = 0 -> 0 < sigma ->
  (0 < maxite)%nat ->
  exists r,
    lse_IPFP (emat n m phi) (evec n p) (tabv m q) n m (Fin tol) maxite (Fin sigma)
    = Done r
    /\ l_val r = NaN /\ pinf_or_nan (vget (l_u r) i).
Proof.
  intros Hn Hm Hi Hp Hs Hmax.
  set (F := fun i j => Fin (phi i j)).
  set (xmu := fun i => xmul (xneg (Fin sigma)) (xlog (Fin (p i)))).
  set (xnu := fun j => xmul (xneg (Fin sigma)) (xlog (q j))).
  assert (Hmu : xmu i = PInf) by (unfold xmu; rewrite Hp; now apply mu_zero).
  rewrite lse_IPFP_finish. unfold lse_loop, evec.
  rewrite !neg_sigma_log_tabv. fold xmu xnu. unfold emat. fold F.
  assert (Hstep : forall s, lse_unbounded_at n m i s ->
            exists s', lse_body (tab2 n m F) (tabv n xmu) (tabv m xnu) n
                         (Fin sigma) s = Done s'
                       /\ lse_unbounded_at n m i s' /\ site s' = S (site s)).
  { intros s ((v & Hv) & (w & first & Hw) & _).
    destruct s as [u0 v0 prev e0 t]. cbn [sv suprec site] in *. subst.
    rewrite lse_body_tab by assumption.
    eexists. split; [reflexivity|]. split; [|reflexivity].
    split; [eexists; reflexivity|]. split.
    - eexists _, false. reflexivity.
    - intros _. eexists. split; [reflexivity|]. now apply x_stab_u_pinf. }
  assert (Hinit : lse_unbounded_at n m i (lse_init m (Fin tol))).
  { split; [|split].
    - exists (fun _ => Fin 0). apply np_repeat_tabv.
    - exists (fun _ => NaN), true. reflexivity.
    - cbn. lia. }
  assert (Hg0 : lse_guard (Fin tol) maxite (lse_init m (Fin tol)) = true).
  { unfold lse_guard, lse_init. cbn [serror site xadd xgt].
    rewrite Rltb_succ. cbn [andb]. apply Nat.ltb_lt. lia. }
  cbn [while_loop]. rewrite Hg0.
  destruct (Hstep _ Hinit) as (s1 & Hb1 & Hu1 & Ht1). rewrite Hb1. cbn [bind].
  destruct (while_total (lse_guard (Fin tol) maxite)
              (lse_body (tab2 n m F) (tabv n xmu) (tabv m xnu) n (Fin sigma))
              (lse_unbounded_at n m i) site maxite) with (fuel := maxite) (s := s1)
    as (r & Hr & Hur & _ & Hle).
  - intros s Hs' _. now apply Hstep.
  - apply lse_guard_cap.
  - assumption.
  - rewrite Ht1. cbn. lia.
  - rewrite Hr. cbn [bind]. unfold lse_finish.
    destruct Hur as ((v & Hv) & _ & Hu).
    destruct Hu as (U & HU & HUi); [rewrite Ht1 in Hle; lia|].
    rewrite HU, Hv. cbn [bind].
    rewrite coupling_tab by assumption. cbn [bind].
    rewrite (objective_nan n m F _ (Fin sigma) i 0) by
      (try assumption; apply (gibbs_zero_row (phi i 0%nat)); assumption).
    cbn [bind]. eexists. split; [reflexivity|]. cbn [l_val l_u]. split.
    + reflexivity.
    + now rewrite tabv_vget.
Qed.

(** u after the first turn is finite or plus infinity at every index,
    whenever p has no negative entry. *)
Lemma first_u_not_below m phi p sigma i :
  (0 < m)%nat -> 0 <= p i -> 0 < sigma ->
  let U := x_stab_u m (fun i j => Fin (phi i j))
             (fun i => xmul (xneg (Fin sigma)) (xlog (Fin (p i))))
             (fun _ => Fin 0) (Fin sigma) in
  (exists y, U i = Fin y) \/ U i = PInf.
Proof.
  intros Hm Hp Hs U. unfold U, x_stab_u, x_row_max.
  cbn [xsub xadd xneg].
  rewrite (fold_max_fin m (fun j => phi i j + - 0)) by assumption.
  cbn [xadd xneg].
  rewrite (tabv_ext m _ (fun j => Fin (exp
             ((phi i j + - 0 + - Rmaxn m (fun j => phi i j + - 0)) / sigma)))).
  2:{ intros j _. rewrite xdiv_fin by lra. reflexivity. }
  rewrite xsum_fin. rewrite (xlog_fin (Rsum m _)) by now apply Rsum_exp_pos.
  cbn [xmul].
  destruct (Rlt_dec 0 (p i)) as [Hpos|Hz].
  - left. rewrite xlog_fin by assumption. cbn [xmul xadd]. eauto.
  - right. assert (p i = 0) as -> by lra.
    unfold xlog. destruct (Rlt_dec 0 0) as [F|_]; [lra|].
    cbn [xmul]. unfold scale_inf.
    destruct (Rlt_dec 0 (- sigma)); [lra|].
    destruct (Rlt_dec (- sigma) 0); [|lra]. reflexivity.
Qed.

Lemma first_change_infinite n m phi p sigma w :
  (0 < n)%nat -> (0 < m)%nat ->
  (forall i, (i < n)%nat -> 0 <= p i) -> 0 < sigma ->
  x_change n (x_stab_u m (fun i j => Fin (phi i j))
                (fun i => xmul (xneg (Fin sigma)) (xlog (Fin (p i))))
                (fun _ => Fin 0) (Fin sigma)) w true
  = PInf.
Proof.
  intros Hn Hm Hp Hs. unfold x_change.
  rewrite (tabv_ext n _ (fun _ => PInf)); [now apply fold_max_pinf|].
  intros i Hi.
  destruct (first_u_not_below m phi p sigma i Hm (Hp i Hi) Hs) as [[y ->]| ->];
    reflexivity.
Qed.

(** ** The smallest problem *)

Lemma valid_unit sigma : 0 < sigma -> valid 1 1 ones ones sigma.
Proof.
  intros Hs. unfold valid, ones. repeat split; try lia; try assumption;
    intros; lra.
Qed.

Lemma valid_fifths : valid 5 1 fifths ones 1.
Proof.
  unfold valid, fifths, ones. repeat split; try lia; intros; lra.
Qed.

Lemma ones_positive k : positive_on k ones.
Proof. intros i _. unfold ones. lra. Qed.

Lemma unit_kernel sigma i j : sigma <> 0 -> Kernel zero_phi sigma i j = 1.
Proof.
  intros Hs. unfold Kernel, zero_phi.
  replace (0 / sigma) with 0 by (field; assumption). apply exp_0.
Qed.

Lemma unit_a sigma :
  sigma <> 0 -> scale_rows 1 zero_phi ones sigma ones 0%nat = 1.
Proof.
  intros Hs. unfold scale_rows. rewrite Rsum_one, unit_kernel by assumption.
  unfold ones. field.
Qed.

Lemma unit_col_mass sigma a j :
  sigma <> 0 -> col_mass 1 zero_phi sigma a j = a 0%nat.
Proof.
  intros Hs. unfold col_mass. rewrite Rsum_one, unit_kernel by assumption. ring.
Qed.

Lemma unit_error sigma tol :
  sigma <> 0 ->
  sinkhorn_error 1 1 zero_phi ones ones sigma tol 1 = 0.
Proof.
  intros Hs. simpl sinkhorn_error. unfold marginal_error, sinkhorn_a.
  rewrite Rmaxn_one, unit_col_mass by assumption. simpl sinkhorn_b.
  rewrite unit_a by assumption. unfold ones.
  replace (1 * (1 / 1) - 1) with 0 by field. apply Rabs_R0.
Qed.

Lemma unit_turns sigma tol maxite :
  sigma <> 0 -> 0 <= tol ->
  sinkhorn_turns 1 1 zero_phi ones ones sigma tol (S (S maxite)) = 1%nat.
Proof.
  intros Hs Ht. unfold sinkhorn_turns. cbn [first_exit].
  unfold sinkhorn_continue at 1. cbn [sinkhorn_error]. rewrite Rltb_succ.
  cbn [andb Nat.ltb Nat.leb].
  unfold sinkhorn_continue at 1. rewrite (unit_error sigma tol Hs).
  replace (Rltb tol 0) with false; [reflexivity|].
  symmetry. apply Rltb_false. assumption.
Qed.

Lemma unit_pi sigma tol maxite :
  sigma <> 0 -> 0 <= tol ->
  sinkhorn_pi 1 1 zero_phi ones ones sigma tol (S (S maxite)) 0 0 = 1.
Proof.
  intros Hs Ht. unfold sinkhorn_pi. rewrite unit_turns by assumption.
  cbn [Nat.sub]. simpl sinkhorn_b. unfold sinkhorn_a. simpl sinkhorn_b.
  unfold scale_cols. rewrite unit_col_mass, unit_kernel, unit_a by assumption.
  unfold ones. field.
Qed.

Lemma unit_matrix_run :
  exists u v val,
    matrix_IPFP [[Fin 0]] [Fin 1] [Fin 1] 1 (Fin (1 / 1000000000)) 100
      (Fin (1 / 10))
    = Done {| r_u := u; r_v := v;
              r_pi := [[Fin 1]; [Fin 1]; [Fin 1]; [Fin 1]; [Fin 1]];
              r_val := val; r_ite := 1; r_status := Converged |}.
Proof.
  assert (Hs : 1 / 10 <> 0) by lra.
  assert (Ht : 0 <= 1 / 1000000000) by lra.
  change [[Fin 0]] with (emat 1 1 zero_phi).
  change [Fin 1] with (evec 1 ones).
  rewrite (matrix_IPFP_run 1 1 zero_phi ones ones (1 / 10) (1 / 1000000000) 100)
    by (try apply valid_unit; try lia; lra).
  cbn [bdim Nat.eqb].
  rewrite (unit_turns (1 / 10) (1 / 1000000000) 98 Hs Ht).
  assert (E : emat 5 1 (fun i j =>
                sinkhorn_pi 1 1 zero_phi ones ones (1 / 10) (1 / 1000000000)
                  100 (bidx 1 i) j)
              = [[Fin 1]; [Fin 1]; [Fin 1]; [Fin 1]; [Fin 1]]).
  { unfold emat, tab2, tabv. cbn [seq map bidx Nat.eqb].
    rewrite (unit_pi (1 / 10) (1 / 1000000000) 98 Hs Ht). reflexivity. }
  rewrite E. do 3 eexists. reflexivity.
Qed.

(** ** The claims *)

(** C1.  The objective returned by cell 7 is not always finite: on the
    two-by-one problem with Phi = 0, p = (0, 1), q = (1), sigma = 0.001,
    the line [val = np.sum(pi * Phi) - sigma * np.sum(pi * np.log(pi))]
    meets pi = 0 in the first row and returns NaN, and the first entry of
    the returned u is not finite either. *)
Theorem lse_objective_nan :
  exists r,
    lse_IPFP [[Fin 0]; [Fin 0]] [Fin 0; Fin 1] [Fin 1] 2 1
      (Fin (1 / 1000000000)) 100 (Fin (1 / 1000)) = Done r
    /\ l_val r = NaN
    /\ (vget (l_u r) 0 = PInf \/ vget (l_u r) 0 = NaN).
Proof.
  change [[Fin 0]; [Fin 0]] with (emat 2 1 (fun _ _ => 0)).
  change [Fin 0; Fin 1]
    with (evec 2 (fun i => match i with O => 0 | S _ => 1 end)).
  change [Fin 1] with (tabv 1 (fun _ => Fin 1)).
  apply (lse_zero_marginal 2 1 (fun _ _ => 0)
           (fun i => match i with O => 0 | S _ => 1 end)
           (fun _ => Fin 1) (1 / 1000) (1 / 1000000000) 100 0);
    try lia; try lra; reflexivity.
Qed.



(** C3.  With a surplus matrix of a single row cell 5 reports
    convergence and returns a coupling of five rows: on Phi = (0),
    p = (1), q = (1) the column of the coupling sums to 5, not to q = 1. *)
Theorem matrix_IPFP_one_row :
  exists r,
    matrix_IPFP [[Fin 0]] [Fin 1] [Fin 1] 1 (Fin (1 / 1000000000)) 100
      (Fin (1 / 10)) = Done r
    /\ r_status r = Converged
    /\ r_ite r = 1%nat
    /\ r_pi r = [[Fin 1]; [Fin 1]; [Fin 1]; [Fin 1]; [Fin 1]]
    /\ sum_axis0 (r_pi r) = [Fin 5].
Proof.
  destruct unit_matrix_run as (u & v & val & H).
  eexists. split; [exact H|]. cbn [r_status r_ite r_pi].
  repeat split.
  unfold sum_axis0, ncols, column, tabv, vget, xsum. cbn.
  f_equal. f_equal. lra.
Qed.

(** *** A loop that stops on an error that is not a number *)

Lemma zero_over x : xdiv (Fin 0) x = Fin 0 \/ xdiv (Fin 0) x = NaN.
Proof.
  destruct x as [y| | |]; cbn [xdiv]; try (now left); try (now right).
  destruct (Req_dec_T y 0) as [->|Hy].
  - right. destruct (Rlt_dec 0 0); [lra|]. reflexivity.
  - left. f_equal. unfold Rdiv. ring.
Qed.

(** With q_j = 0 and b_j zero or not a number, the error of cell 5 is
    0 / 0 at j. *)
Lemma x_marginal_error_nan n m K q a b j :
  (j < m)%nat -> q j = Fin 0 -> (b j = Fin 0 \/ b j = NaN) ->
  x_marginal_error n m K q a b = NaN.
Proof.
  intros Hj Hq Hb. unfold x_marginal_error. apply fold_max_nan.
  set (g := fun j => xabs (xsub (xmul (x_col_mass n K a j)
                                   (xdiv (b j) (q j))) (Fin 1))).
  replace NaN with (g j).
  - unfold tabv. apply (in_map g). apply in_seq. lia.
  - unfold g. rewrite Hq.
    assert (E : xdiv (b j) (Fin 0) = NaN).
    { destruct Hb as [->| ->]; [|reflexivity]. cbn [xdiv].
      destruct (Req_dec_T 0 0); [|contradiction].
      destruct (Rlt_dec 0 0); [lra|]. reflexivity. }
    rewrite E. destruct (x_col_mass n K a j); reflexivity.
Qed.

Lemma matrix_body_counts n m K p q s :
  (0 < n)%nat -> (0 < m)%nat -> (exists b, mB s = two_d (tabv m b)) ->
  exists s', matrix_body (tab2 n m K) (tabv n p) (tabv m q) s = Done s'
             /\ (exists b, mB s' = two_d (tabv m b))
             /\ mite s' = S (mite s).
Proof.
  intros Hn Hm (b & Hb). destruct s as [A0 B0 e0 t]. cbn [mB mite] in *. subst.
  rewrite matrix_body_tab by assumption.
  eexists. split; [reflexivity|]. split; [eexists|]; reflexivity.
Qed.

Lemma matrix_iterate_counts n m K p q s0 : forall N s,
  (0 < n)%nat -> (0 < m)%nat -> (exists b, mB s0 = two_d (tabv m b)) ->
  iterate N (matrix_body (tab2 n m K) (tabv n p) (tabv m q)) s0 = Done s ->
  (exists b, mB s = two_d (tabv m b)) /\ mite s = (mite s0 + N)%nat.
Proof.
  induction N as [|N IH]; intros s Hn Hm H0 H.
  - injection H as <-. split; [exact H0|lia].
  - cbn [iterate] in H.
    destruct (iterate N _ s0) as [sN| |] eqn:E; cbn [bind] in H;
      try discriminate.
    destruct (IH sN Hn Hm H0 eq_refl) as (Hs & Ht).
    destruct (matrix_body_counts n m K p q sN Hn Hm Hs) as (s' & Hb & Hs' & Ht').
    rewrite Hb in H. injection H as <-. split; [exact Hs'|]. lia.
Qed.

(** The claim that the loop of cell 5 exits exactly when the error is at
    most the tolerance or the count reaches the cap, refuted: with
    Phi = (0 0), p = (1) and q = (0, 1) the error is plus infinity after
    the first turn and 0 / 0 after the second, and the loop is left after
    two turns of a hundred with an error that is not a number. *)
Lemma nan_error_ends_matrix_loop :
  exists s,
    matrix_loop 101 (kernel [[Fin 0; Fin 0]] (Fin 1)) [Fin 1] [Fin 0; Fin 1]
      (Fin (1 / 1000000000)) 100 (matrix_init 2 (Fin (1 / 1000000000)))
    = Done s
    /\ mite s = 2%nat /\ merror s = NaN.
Proof.
  set (q := fun j => match j with O => Fin 0 | S _ => Fin 1 end).
  set (K := fun (_ _ : nat) => Fin 1).
  assert (EK : kernel [[Fin 0; Fin 0]] (Fin 1) = tab2 1 2 K).
  { change [[Fin 0; Fin 0]] with (tab2 1 2 (fun _ _ => Fin 0)).
    rewrite kernel_tab. apply tab2_ext. intros i j _ _. unfold K.
    rewrite xdiv_fin by lra. cbn [xexp]. f_equal.
    replace (0 / 1) with 0 by lra. apply exp_0. }
  rewrite EK.
  change [Fin 1] with (tabv 1 (fun _ => Fin 1)).
  change [Fin 0; Fin 1] with (tabv 2 q).
  set (tol := 1 / 1000000000).
  set (body := matrix_body (tab2 1 2 K) (tabv 1 (fun _ => Fin 1)) (tabv 2 q)).
  set (a := x_scale_rows 2 K (fun _ => Fin 1) (fun _ => Fin 1)).
  set (b1 := x_scale_cols 1 K q a).
  set (e1 := x_marginal_error 1 2 K q a (fun _ => Fin 1)).
  set (s1 := {| mA := Some (two_d (tabv 1 a)); mB := two_d (tabv 2 b1);
                merror := e1; mite := 1 |}).
  assert (B1 : body (matrix_init 2 (Fin tol)) = Done s1).
  { unfold body, matrix_init. rewrite np_repeat_tabv.
    rewrite matrix_body_tab by lia. reflexivity. }
  assert (Ha : a 0%nat = Fin (1 / 2)).
  { unfold a, x_scale_rows, K, tabv. cbn [seq map xsum fold_right xmul xadd].
    rewrite xdiv_fin by lra. f_equal. lra. }
  assert (Hinf : xdiv (Fin 1) (Fin 0) = PInf).
  { cbn [xdiv]. destruct (Req_dec_T 0 0); [|contradiction].
    destruct (Rlt_dec 0 1); [reflexivity|lra]. }
  assert (He1 : e1 = PInf).
  { unfold e1, x_marginal_error, x_col_mass, tabv.
    cbn [seq map xsum fold_right]. rewrite Ha. unfold K, q.
    cbn [xmul xadd]. rewrite (xdiv_fin 1 1) by lra. rewrite Hinf.
    cbn [xmul]. unfold scale_inf.
    destruct (Rlt_dec 0 (1 / 2 * 1 + 0)); [|lra].
    reflexivity. }
  assert (Hb1 : b1 0%nat = Fin 0 \/ b1 0%nat = NaN) by apply zero_over.
  set (a2 := x_scale_rows 2 K (fun _ => Fin 1) b1).
  set (s2 := {| mA := Some (two_d (tabv 1 a2));
                mB := two_d (tabv 2 (x_scale_cols 1 K q a2));
                merror := NaN; mite := 2 |}).
  assert (B2 : body s1 = Done s2).
  { unfold body, s1. rewrite matrix_body_tab by lia. unfold s2.
    do 2 f_equal.
    apply (x_marginal_error_nan 1 2 K q a2 b1 0); [lia|reflexivity|exact Hb1]. }
  exists s2. split; [|split; reflexivity].
  unfold matrix_loop. fold body.
  rewrite (while_two _ body _ s1 s2 98); try assumption.
  - unfold matrix_guard, s1. cbn [merror mite]. rewrite He1. reflexivity.
  - unfold matrix_guard, matrix_init. cbn [merror mite]. apply guard_starts. lia.
  - reflexivity.
Qed.

(** C4.  One turn of the loop of cell 5 computes, in this order,
    a = p / (K b), then the error max_j |(sum_i a_i K_ij) (b_j / q_j) - 1|
    from the new a and the old b, then b = q / (K^T a) from the new a,
    whatever the values in the arrays.  The loop goes on while
    [error > tol] holds and the count is below the cap: started from any
    state, it stops at the first turn after which the error is at most
    the tolerance, or is not a number, or the count has reached the cap. *)
Theorem matrix_iteration_exit n m F p q b sigma tol maxite A0 e0 t :
  (0 < n)%nat -> (0 < m)%nat ->
  let K := fun i j => xexp (xdiv (F i j) sigma) in
  let a := x_scale_rows m K p b in
  let error := x_marginal_error n m K q a b in
  let s0 := {| mA := A0; mB := two_d (tabv m b); merror := e0; mite := t |} in
  let s' := {| mA := Some (two_d (tabv n a));
               mB := two_d (tabv m (x_scale_cols n K q a));
               merror := error; mite := S t |} in
  let body := matrix_body (kernel (tab2 n m F) sigma) (tabv n p) (tabv m q) in
  body s0 = Done s'
  /\ (matrix_guard (Fin tol) maxite s' = false
      <-> (error = NaN \/ exists e, error = Fin e /\ e <= tol)
          \/ (maxite <= S t)%nat)
  /\ exists N s,
       matrix_loop (S maxite) (kernel (tab2 n m F) sigma) (tabv n p) (tabv m q)
         (Fin tol) maxite s0 = Done s
       /\ iterate N body s0 = Done s
       /\ mite s = (t + N)%nat
       /\ matrix_guard (Fin tol) maxite s = false
       /\ forall k, (k < N)%nat ->
            exists sk, iterate k body s0 = Done sk
                       /\ matrix_guard (Fin tol) maxite sk = true.
Proof.
  intros Hn Hm K a error s0 s' body. unfold body. rewrite kernel_tab. fold K.
  split; [now apply matrix_body_tab|]. split.
  - unfold matrix_guard, s'. cbn [merror mite].
    rewrite andb_false_iff, Nat.ltb_ge.
    rewrite xgt_false by (apply fold_max_abs_not_ninf; assumption).
    reflexivity.
  - assert (H0 : exists b0, mB s0 = two_d (tabv m b0)) by (now exists b).
    destruct (while_total (matrix_guard (Fin tol) maxite)
                (matrix_body (tab2 n m K) (tabv n p) (tabv m q))
                (fun s => exists b0, mB s = two_d (tabv m b0)) mite maxite)
      with (fuel := S maxite) (s := s0) as (s & Hs & _ & Hg & _).
    + intros s1 H1 _. now apply matrix_body_counts.
    + apply matrix_guard_cap.
    + exact H0.
    + lia.
    + destruct (while_stops _ _ _ _ _ Hs) as (N & HN & _ & Hk).
      exists N, s. unfold matrix_loop. split; [exact Hs|].
      split; [exact HN|]. split; [|split; [exact Hg|exact Hk]].
      now destruct (matrix_iterate_counts n m K p q s0 N s Hn Hm H0 HN).
Qed.

(** C4 on the smallest problem: the first turn. *)
Lemma matrix_iteration_exit_witness :
  (0 < 1)%nat /\
  matrix_body (kernel (tab2 1 1 (fun _ _ => Fin 0)) (Fin 1))
    (tabv 1 (fun _ => Fin 1)) (tabv 1 (fun _ => Fin 1))
    {| mA := None; mB := two_d (tabv 1 (fun _ => Fin 1)); merror := Fin 1;
       mite := 0 |}
  = Done {| mA := Some (two_d (tabv 1
                    (x_scale_rows 1 (fun _ _ => xexp (xdiv (Fin 0) (Fin 1)))
                       (fun _ => Fin 1) (fun _ => Fin 1))));
            mB := two_d (tabv 1
                    (x_scale_cols 1 (fun _ _ => xexp (xdiv (Fin 0) (Fin 1)))
                       (fun _ => Fin 1)
                       (x_scale_rows 1 (fun _ _ => xexp (xdiv (Fin 0) (Fin 1)))
                          (fun _ => Fin 1) (fun _ => Fin 1))));
            merror := x_marginal_error 1 1
                        (fun _ _ => xexp (xdiv (Fin 0) (Fin 1)))
                        (fun _ => Fin 1)
                        (x_scale_rows 1 (fun _ _ => xexp (xdiv (Fin 0) (Fin 1)))
                           (fun _ => Fin 1) (fun _ => Fin 1))
                        (fun _ => Fin 1);
            mite := 1 |}.
Proof.
  split; [lia|].
  exact (proj1 (matrix_iteration_exit 1 1 (fun _ _ => Fin 0) (fun _ => Fin 1)
                  (fun _ => Fin 1) (fun _ => Fin 1) (Fin 1) 0 1 None (Fin 1) 0
                  ltac:(lia) ltac:(lia))).
Defined.



(** *** A p that does not have the length of Phi *)

Lemma bdim_one_l b : bdim 1 b = Some b.
Proof.
  unfold bdim. destruct (Nat.eqb_spec 1 b); [now subst|reflexivity].
Qed.

Lemma bidx_one i : bidx 1 i = 0%nat.
Proof. reflexivity. Qed.

Lemma bcast1_one_r op k f g :
  bcast1 op (tabv k f) (tabv 1 g)
  = Done (tabv k (fun i => op (f i) (g 0%nat))).
Proof.
  unfold bcast1. rewrite !tabv_length, bdim_one_r. f_equal.
  apply tabv_ext. intros i Hi. rewrite bidx_one, (bidx_lt k i Hi).
  now rewrite !tabv_vget by lia.
Qed.

Lemma bcast2_row_col op k m f g :
  (0 < k)%nat ->
  bcast2 op (tab2 1 m f) (tab2 k 1 g)
  = Done (tab2 k m (fun i j => op (f 0%nat j) (g i 0%nat))).
Proof.
  intros Hk.
  rewrite (bcast2_tab2 op 1 m f k 1 g k m ltac:(lia) Hk (bdim_one_l k)
             (bdim_one_r m)).
  f_equal. apply tab2_ext. intros i j Hi Hj.
  now rewrite !bidx_one, (bidx_lt m j), (bidx_lt k i).
Qed.

Lemma bcast2_rows_row op k m f g :
  (0 < k)%nat ->
  bcast2 op (tab2 k m f) (tab2 1 m g)
  = Done (tab2 k m (fun i j => op (f i j) (g 0%nat j))).
Proof.
  intros Hk.
  rewrite (bcast2_tab2 op k m f 1 m g k m Hk ltac:(lia) (bdim_one_r k)
             (bdim_refl m)).
  f_equal. apply tab2_ext. intros i j Hi Hj.
  now rewrite !bidx_one, (bidx_lt m j), (bidx_lt k i).
Qed.

Lemma while_agree {S} (guard : S -> bool) (body body' : S -> exec S)
  (I : S -> Prop) :
  (forall s, I s -> body s = body' s) ->
  (forall s s', I s -> body' s = Done s' -> I s') ->
  forall fuel s, I s ->
    while_loop fuel guard body s = while_loop fuel guard body' s.
Proof.
  intros Hb Hi. induction fuel as [|fuel IH]; intros s Hs; [reflexivity|].
  cbn [while_loop]. destruct (guard s); [|reflexivity].
  rewrite (Hb s Hs). destruct (body' s) as [s'| |] eqn:E; try reflexivity.
  cbn [bind]. apply IH. exact (Hi s s' Hs E).
Qed.

Lemma while_keeps {S} (guard : S -> bool) (body : S -> exec S) (I : S -> Prop) :
  (forall s s', I s -> body s = Done s' -> I s') ->
  forall fuel s r, I s -> while_loop fuel guard body s = Done r -> I r.
Proof.
  intros Hi. induction fuel as [|fuel IH]; intros s r Hs H; [discriminate|].
  cbn [while_loop] in H. destruct (guard s).
  - destruct (body s) as [s'| |] eqn:E; cbn [bind] in H; try discriminate.
    exact (IH s' r (Hi s s' Hs E) H).
  - now injection H as <-.
Qed.

Lemma lse_body_one_row k m F mu nu sigma v w first u0 e0 t :
  (0 < k)%nat -> (0 < m)%nat ->
  lse_body (tab2 1 m F) (tabv k mu) (tabv m nu) 1 sigma
    {| su := u0; sv := tabv m v; suprec := previous_at k w first;
       serror := e0; site := t |}
  = lse_body (tab2 k m (fun _ j => F 0%nat j)) (tabv k mu) (tabv m nu) k sigma
    {| su := u0; sv := tabv m v; suprec := previous_at k w first;
       serror := e0; site := t |}.
Proof.
  intros Hk Hm. rewrite (lse_body_tab k m) by assumption.
  unfold lse_body, lse_vstar, lse_u_exponents, lse_ustar, lse_v_exponents.
  cbn [sv site suprec].
  rewrite transpose_tab2, two_d_tabv, bcast2_same by lia. cbn [bind].
  rewrite max_axis0_tab2 by lia. cbn [bind].
  rewrite bcast1_one_r. cbn [bind].
  rewrite rows_of_tabv, bcast2_same by lia. cbn [bind].
  rewrite two_d_tabv, bcast2_col by lia. cbn [bind].
  rewrite over_sigma_tab2, map_mat_tab2, sum_axis1_tab2, sigma_log_tabv.
  rewrite bcast1_one_r. cbn [bind].
  set (U := x_stab_u m (fun _ j : nat => F 0%nat j) mu v sigma).
  change (tabv k (fun i => xadd (xadd (mu i) _) _)) with (tabv k U).
  assert (Hd : sub_previous (tabv k U) (previous_at k w first)
               = Done (tabv k (fun i => xsub (U i)
                                 (if first then NInf else w i)))).
  { destruct first; cbn [previous_at sub_previous].
    - now rewrite tabv_map.
    - now rewrite bcast1_tabv. }
  rewrite Hd. cbn [bind].
  rewrite tabv_map, np_max1_tabv by assumption. cbn [bind].
  rewrite two_d_tabv, bcast2_row_col by assumption. cbn [bind].
  rewrite max_axis0_tab2 by assumption. cbn [bind].
  rewrite rows_of_tabv by assumption.
  rewrite bcast2_rows_row by assumption. cbn [bind].
  rewrite over_sigma_tab2, map_mat_tab2, sum_axis0_tab2 by assumption.
  rewrite bcast1_tabv. cbn [bind].
  rewrite sigma_log_tabv, bcast1_tabv. cbn [bind].
  reflexivity.
Qed.

Lemma lse_body_lengths k m F mu nu sigma s s' :
  (0 < k)%nat -> (0 < m)%nat -> lse_lengths k m s ->
  lse_body (tab2 k m F) (tabv k mu) (tabv m nu) k sigma s = Done s' ->
  lse_lengths k m s'.
Proof.
  intros Hk Hm ((v & Hv) & (w & first & Hw) & _) H.
  destruct s as [u0 v0 prev e0 t]. cbn [sv suprec] in *. subst.
  rewrite lse_body_tab in H by assumption. injection H as <-.
  split; [eexists; reflexivity|]. split.
  - eexists _, false. reflexivity.
  - right. eexists. reflexivity.
Qed.

Lemma lse_init_lengths k m tol : lse_lengths k m (lse_init m tol).
Proof.
  split; [|split].
  - exists (fun _ => Fin 0). apply np_repeat_tabv.
  - exists (fun _ => NaN), true. reflexivity.
  - now left.
Qed.

Lemma lse_finish_one_row k m F sigma maxite s :
  (0 < k)%nat -> (0 < m)%nat -> lse_lengths k m s ->
  lse_finish (tab2 1 m F) 1 sigma maxite s
  = lse_finish (tab2 k m (fun _ j => F 0%nat j)) k sigma maxite s.
Proof.
  intros Hk Hm ((v & Hv) & _ & [Hu|(U & Hu)]); unfold lse_finish; rewrite Hu;
    [reflexivity|].
  cbn [bind]. rewrite Hv. rewrite coupling_tab by assumption.
  unfold coupling. rewrite two_d_tabv, bcast2_row_col by assumption.
  cbn [bind]. rewrite rows_of_tabv, bcast2_rows_row by assumption.
  cbn [bind]. rewrite exp_over_sigma_tab2.
  unfold objective. rewrite bcast2_rows_row, bcast2_same by assumption.
  reflexivity.
Qed.

(** With a single row in Phi, cell 7 takes a p of any length k as if
    Phi had k equal rows. *)
Lemma lse_single_row k m F p q sigma tol maxite :
  (0 < k)%nat -> (0 < m)%nat ->
  lse_IPFP (tab2 1 m F) (tabv k p) (tabv m q) 1 m tol maxite sigma
  = lse_IPFP (tab2 k m (fun _ j => F 0%nat j)) (tabv k p) (tabv m q) k m tol
      maxite sigma.
Proof.
  intros Hk Hm. rewrite !lse_IPFP_finish, !neg_sigma_log_tabv.
  set (mu := fun i => xmul (xneg sigma) (xlog (p i))).
  set (nu := fun j => xmul (xneg sigma) (xlog (q j))).
  assert (Hinit : lse_lengths k m (lse_init m tol)).
  { split; [|split].
    - exists (fun _ => Fin 0). apply np_repeat_tabv.
    - exists (fun _ => NaN), true. reflexivity.
    - now left. }
  assert (Hkeep : forall s s', lse_lengths k m s ->
            lse_body (tab2 k m (fun _ j => F 0%nat j)) (tabv k mu) (tabv m nu)
              k sigma s = Done s' -> lse_lengths k m s').
  { intros s s'. now apply lse_body_lengths. }
  unfold lse_loop.
  rewrite (while_agree _ _
             (lse_body (tab2 k m (fun _ j => F 0%nat j)) (tabv k mu)
                (tabv m nu) k sigma) (lse_lengths k m)); try assumption.
  - destruct (while_loop _ _ _ _) as [s| |] eqn:E; try reflexivity.
    cbn [bind]. apply lse_finish_one_row; try assumption.
    exact (while_keeps _ _ _ Hkeep _ _ _ Hinit E).
  - intros s ((v & Hv) & (w & first & Hw) & _).
    destruct s as [u0 v0 prev e0 t]. cbn [sv suprec] in *. subst.
    now apply lse_body_one_row.
Qed.

Lemma matrix_body_mismatch_one m K k p q s :
  (0 < m)%nat -> k <> 1%nat -> (exists b, mB s = two_d (tabv m b)) ->
  matrix_body (tab2 1 m K) (tabv k p) (tabv m q) s = Raise ValueError.
Proof.
  intros Hm Hk (b & Hb). unfold matrix_body. rewrite Hb.
  rewrite two_d_tabv, matmul_tab2 by lia. cbn [bind].
  rewrite flattenF_col by lia. rewrite bcast1_one_r. cbn [bind].
  rewrite two_d_tabv. destruct k as [|k].
  - reflexivity.
  - rewrite transpose_tab2 by lia. unfold matmul.
    rewrite tab2_ncols, tab2_nrows by lia.
    destruct (Nat.eqb_spec (S k) 1); [lia|reflexivity].
Qed.

Lemma lse_IPFP_rows n m F p q sigma tol maxite r :
  (0 < n)%nat -> (0 < m)%nat ->
  lse_IPFP (tab2 n m F) (tabv n p) (tabv m q) n m tol maxite sigma = Done r ->
  nrows (l_pi r) = n.
Proof.
  intros Hn Hm. rewrite lse_IPFP_finish, !neg_sigma_log_tabv.
  set (mu := fun i => xmul (xneg sigma) (xlog (p i))).
  set (nu := fun j => xmul (xneg sigma) (xlog (q j))).
  unfold lse_loop.
  destruct (while_loop _ _ _ _) as [s| |] eqn:E; cbn [bind]; try discriminate.
  assert (Hs : lse_lengths n m s).
  { apply (while_keeps _ _ (lse_lengths n m)
             (fun s s' => lse_body_lengths n m F mu nu sigma s s' Hn Hm)
             _ _ _ (lse_init_lengths n m tol) E). }
  destruct Hs as ((v & Hv) & _ & [Hu|(U & Hu)]); unfold lse_finish; rewrite Hu;
    cbn [bind]; [discriminate|].
  rewrite Hv, coupling_tab by assumption. cbn [bind].
  destruct (objective _ _ _); cbn [bind]; try discriminate.
  intros H. injection H as <-. cbn [l_pi]. apply tab2_nrows.
Qed.

(** The claim that invalid inputs are refused before the loop, refuted:
    a marginal that sums to 2, a negative sigma and a zero tolerance go
    through both cells, which take a turn and return. *)
Lemma invalid_input_is_processed :
  (exists r,
     lse_IPFP [[Fin 0]] [Fin 2] [Fin 1] 1 1 (Fin 0) 10 (Fin (-1)) = Done r
     /\ (1 <= l_ite r)%nat)
  /\ (exists r,
        matrix_IPFP [[Fin 0]; [Fin 0]; [Fin 0]; [Fin 0]; [Fin 0]]
          [Fin 2; Fin 0; Fin 0; Fin 0; Fin 0] [Fin 1] 1 (Fin 0) 10 (Fin (-1))
        = Done r
        /\ (1 <= r_ite r)%nat).
Proof.
  split.
  - pose proof (lse_IPFP_total 1 1 (fun _ _ => Fin 0) (fun _ => Fin 2)
                  (fun _ => Fin 1) (Fin (-1)) (Fin 0) 10
                  ltac:(lia) ltac:(lia)) as H.
    unfold lse_guard, lse_init in H. cbn [serror site] in H.
    rewrite (guard_starts 0 10) in H by lia. exact H.
  - pose proof (matrix_IPFP_total 5 1 (fun _ _ => Fin 0)
                  (fun i => match i with O => Fin 2 | S _ => Fin 0 end)
                  (fun _ => Fin 1) (Fin (-1)) (Fin 0) 10
                  ltac:(lia) ltac:(lia)) as H.
    unfold matrix_guard, matrix_init in H. cbn [merror mite] in H.
    rewrite (guard_starts 0 10) in H by lia. exact H.
Qed.

(** C6.  The cells validate nothing and have no InvalidInput error.
    Whatever the values of Phi, p, q and sigma, and whatever the
    tolerance below 2^53 in size, arrays whose shapes fit are taken as
    they are: with a cap of at least one turn the loop is entered at once
    and the cell returns after one turn or more.  A p whose length is
    neither the number of rows nor 1 is not refused beforehand either:
    cell 5 raises ValueError from inside its first turn, and so does
    cell 7 when Phi has two rows or more; on a Phi of a single row cell 7
    stretches the row, raises nothing and returns a coupling with as many
    rows as p has entries. *)
Theorem no_input_validation n m F p q sigma tol maxite :
  (0 < n)%nat -> (0 < m)%nat -> (0 < maxite)%nat -> entering_tol tol ->
  (exists r,
     lse_IPFP (tab2 n m F) (tabv n p) (tabv m q) n m (Fin tol) maxite sigma
     = Done r /\ (1 <= l_ite r)%nat)
  /\ (n = 5%nat ->
      exists r,
        matrix_IPFP (tab2 n m F) (tabv n p) (tabv m q) m (Fin tol) maxite sigma
        = Done r /\ (1 <= r_ite r)%nat)
  /\ (forall k p', k <> n -> k <> 1%nat ->
        (matrix_body (kernel (tab2 n m F) sigma) (tabv k p') (tabv m q)
           (matrix_init m (Fin tol)) = Raise ValueError
         /\ matrix_IPFP (tab2 n m F) (tabv k p') (tabv m q) m (Fin tol) maxite
              sigma = Raise ValueError)
        /\ (n <> 1%nat ->
            lse_body (tab2 n m F) (neg_sigma_log sigma (tabv k p'))
              (neg_sigma_log sigma (tabv m q)) n sigma (lse_init m (Fin tol))
            = Raise ValueError
            /\ lse_IPFP (tab2 n m F) (tabv k p') (tabv m q) n m (Fin tol) maxite
                 sigma = Raise ValueError)
        /\ (n = 1%nat -> (0 < k)%nat ->
            exists r,
              lse_IPFP (tab2 n m F) (tabv k p') (tabv m q) n m (Fin tol) maxite
                sigma = Done r
              /\ nrows (l_pi r) = k /\ (1 <= l_ite r)%nat)).
Proof.
  intros Hn Hm Hmax _.
  pose proof (guard_starts tol maxite Hmax) as Hg.
  split; [|split].
  - pose proof (lse_IPFP_total n m F p q sigma (Fin tol) maxite Hn Hm) as H.
    unfold lse_guard, lse_init in H. cbn [serror site] in H.
    rewrite Hg in H. exact H.
  - intros ->.
    pose proof (matrix_IPFP_total 5 m F p q sigma (Fin tol) maxite Hn Hm) as H.
    unfold matrix_guard, matrix_init in H. cbn [merror mite] in H.
    rewrite Hg in H. exact H.
  - intros k p' H H1. split; [|split].
    + assert (Hbm : matrix_body (kernel (tab2 n m F) sigma) (tabv k p')
                      (tabv m q) (matrix_init m (Fin tol)) = Raise ValueError).
      { rewrite kernel_tab. destruct (Nat.eq_dec n 1) as [->|Hn1].
        - apply matrix_body_mismatch_one; try assumption.
          exact (proj1 (matrix_init_shaped 1 m (Fin tol))).
        - apply matrix_body_mismatch; try assumption.
          apply matrix_init_shaped. }
      split; [exact Hbm|].
      unfold matrix_IPFP, matrix_loop. cbn [while_loop].
      unfold matrix_guard at 1. unfold matrix_init at 1 2. cbn [merror mite].
      rewrite Hg. fold (matrix_init m (Fin tol)). rewrite Hbm. reflexivity.
    + intros H2.
      assert (Hbl : lse_body (tab2 n m F) (neg_sigma_log sigma (tabv k p'))
                      (neg_sigma_log sigma (tabv m q)) n sigma
                      (lse_init m (Fin tol)) = Raise ValueError).
      { rewrite !neg_sigma_log_tabv. apply lse_body_mismatch; try assumption.
        apply lse_init_shaped. }
      split; [exact Hbl|].
      unfold lse_IPFP, lse_loop. cbn [while_loop].
      unfold lse_guard at 1. unfold lse_init at 1 2. cbn [serror site].
      rewrite Hg. fold (lse_init m (Fin tol)). rewrite Hbl. reflexivity.
    + intros -> Hk. rewrite lse_single_row by assumption.
      pose proof (lse_IPFP_total k m (fun _ j => F 0%nat j) p' q sigma (Fin tol)
                    maxite Hk Hm) as Ht.
      unfold lse_guard, lse_init in Ht. cbn [serror site] in Ht.
      rewrite Hg in Ht. destruct Ht as (r & Hr & Hite).
      exists r. split; [exact Hr|]. split; [|exact Hite].
      exact (lse_IPFP_rows k m _ p' q sigma (Fin tol) maxite r Hk Hm Hr).
Qed.

(** C6 on a marginal that sums to 2, a negative sigma and a zero tolerance. *)
Lemma no_input_validation_witness :
  (0 < 1)%nat /\ (0 < 10)%nat /\ entering_tol 0 /\
  exists r,
    lse_IPFP (tab2 1 1 (fun _ _ => Fin 0)) (tabv 1 (fun _ => Fin 2))
      (tabv 1 (fun _ => Fin 1)) 1 1 (Fin 0) 10 (Fin (-1)) = Done r
    /\ (1 <= l_ite r)%nat.
Proof.
  assert (Ht : entering_tol 0)
    by (apply entering_tol_small; rewrite Rabs_R0; lra).
  split; [lia|]. split; [lia|]. split; [exact Ht|].
  exact (proj1 (no_input_validation 1 1 (fun _ _ => Fin 0) (fun _ => Fin 2)
                  (fun _ => Fin 1) (Fin (-1)) 0 10
                  ltac:(lia) ltac:(lia) ltac:(lia) Ht)).
Defined.

(** C7. Gauge invariance: shifting u by a constant c and v by -c leaves
    the coupling exp((Phi_ij - u_i - v_j) / sigma) unchanged at every i, j,
    and the objective computed from it as well. *)
Theorem gauge_invariance n m phi u v c (sigma : xreal) :
  (0 < n)%nat -> (0 < m)%nat ->
  let Phi := emat n m phi in
  let u' := map (fun x => xadd x (Fin c)) (evec n u) in
  let v' := map (fun x => xsub x (Fin c)) (evec m v) in
  coupling Phi u' v' n sigma = coupling Phi (evec n u) (evec m v) n sigma
  /\ (pi <- coupling Phi u' v' n sigma ;; objective Phi pi sigma)
     = (pi <- coupling Phi (evec n u) (evec m v) n sigma ;; objective Phi pi sigma)
  /\ (forall s, sigma = Fin s -> s <> 0 ->
        coupling Phi (evec n u) (evec m v) n sigma
        = Done (emat n m (gibbs phi s u v))).
Proof.
  intros Hn Hm Phi u' v'.
  assert (E : coupling Phi u' v' n sigma
              = coupling Phi (evec n u) (evec m v) n sigma).
  { unfold Phi, u', v', emat, evec. rewrite !tabv_map.
    rewrite !coupling_tab by assumption. f_equal.
    apply tab2_ext. intros i j Hi Hj. cbn [xadd xsub xneg].
    do 2 f_equal. f_equal. ring. }
  split; [exact E|]. split; [now rewrite E|].
  intros s -> Hs. now apply coupling_fin.
Qed.

(** C7 on the smallest problem, with the shift c = 3. *)
Lemma gauge_invariance_witness :
  (0 < 1)%nat /\ (0 < 1)%nat /\
  coupling (emat 1 1 zero_phi) (map (fun x => xadd x (Fin 3)) (evec 1 ones))
    (map (fun x => xsub x (Fin 3)) (evec 1 ones)) 1 (Fin 1)
  = coupling (emat 1 1 zero_phi) (evec 1 ones) (evec 1 ones) 1 (Fin 1).
Proof.
  split; [lia|]. split; [lia|].
  exact (proj1 (gauge_invariance 1 1 zero_phi ones ones 3 (Fin 1)
                  ltac:(lia) ltac:(lia))).
Defined.

(** C8. After every completed turn of the loop of cell 5 the columns of
    a_i K_ij b_j sum to q exactly, b having been recomputed as
    q / (K^T a) after the error was measured; the same holds after every
    completed turn of the loop of cell 7 for exp((Phi_ij - u_i - v_j) / sigma),
    and so for the coupling each cell returns. *)
Theorem column_sums_exact n m phi p q sigma tol maxite k :
  valid n m p q sigma ->
  let Phi := emat n m phi in
  let a := sinkhorn_a n m phi p q sigma k in
  let b := sinkhorn_b n m phi p q sigma (S k) in
  let u := stab_u_iter n m phi p q sigma k in
  let v := stab_v_iter n m phi p q sigma (S k) in
  (exists e,
     iterate (S k) (matrix_body (kernel Phi (Fin sigma)) (evec n p) (evec m q))
       (matrix_init m (Fin tol))
     = Done {| mA := Some (two_d (evec n a)); mB := two_d (evec m b);
               merror := e; mite := S k |})
  /\ (forall j, (j < m)%nat ->
        Rsum n (fun i => scaled_kernel phi sigma a b i j) = q j)
  /\ (exists e,
        iterate (S k) (lse_body Phi (neg_sigma_log (Fin sigma) (evec n p))
                         (neg_sigma_log (Fin sigma) (evec m q)) n (Fin sigma))
          (lse_init m (Fin tol))
        = Done {| su := Some (evec n u); sv := evec m v;
                  suprec := Array (evec n u); serror := e; site := S k |})
  /\ (forall j, (j < m)%nat ->
        Rsum n (fun i => gibbs phi sigma u v i j) = q j)
  /\ ((0 < maxite)%nat ->
      exists r,
        lse_IPFP Phi (evec n p) (evec m q) n m (Fin tol) maxite (Fin sigma)
        = Done r /\ sum_axis0 (l_pi r) = evec m q)
  /\ ((0 < maxite)%nat -> n = 5%nat ->
      exists r,
        matrix_IPFP Phi (evec n p) (evec m q) m (Fin tol) maxite (Fin sigma)
        = Done r /\ sum_axis0 (r_pi r) = evec m q).
Proof.
  intros H Phi a b u v. pose proof H as (Hn & Hm & Hp & Hq & Hs).
  split; [|split; [|split; [|split; [|split]]]].
  - eexists. unfold Phi. rewrite matrix_iterate by assumption. reflexivity.
  - intros j Hj. unfold b. simpl sinkhorn_b. fold a.
    apply scaled_kernel_columns; [assumption|].
    now apply sinkhorn_a_pos.
  - eexists. unfold Phi. rewrite lse_iterate by assumption. reflexivity.
  - intros j Hj. unfold v. simpl stab_v_iter. fold u.
    apply gibbs_columns_stab; try assumption. now apply Hq.
  - intros Hmax. eexists. split.
    + unfold Phi. now apply lse_IPFP_run.
    + cbn [l_pi].
      pose proof (stab_turns_pos n m phi p q sigma tol maxite Hmax) as HN.
      destruct (stab_turns n m phi p q sigma tol maxite) as [|N]; [lia|].
      replace (S N - 1)%nat with N by lia.
      apply sum_axis0_columns; [assumption|]. intros j Hj.
      simpl stab_v_iter. apply gibbs_columns_stab; try assumption. now apply Hq.
  - intros Hmax ->. eexists. split.
    + unfold Phi. rewrite matrix_IPFP_run by assumption. reflexivity.
    + cbn [r_pi].
      pose proof (sinkhorn_turns_pos 5 m phi p q sigma tol maxite Hmax) as HN.
      apply sum_axis0_columns; [lia|]. intros j Hj.
      unfold sinkhorn_pi.
      destruct (sinkhorn_turns 5 m phi p q sigma tol maxite) as [|N]; [lia|].
      replace (S N - 1)%nat with N by lia.
      rewrite (Rsum_ext 5 _ (fun i => scaled_kernel phi sigma
                 (sinkhorn_a 5 m phi p q sigma N)
                 (sinkhorn_b 5 m phi p q sigma (S N)) i j)).
      * simpl sinkhorn_b. apply scaled_kernel_columns; [lia|].
        now apply sinkhorn_a_pos.
      * intros i Hi. now rewrite (bidx_lt 5 i).
Qed.

(** C8 on a problem of five rows and one column, after the first turn. *)
Lemma column_sums_exact_witness :
  valid 5 1 fifths ones 1 /\
  (forall j, (j < 1)%nat ->
     Rsum 5 (fun i => scaled_kernel zero_phi 1
                        (sinkhorn_a 5 1 zero_phi fifths ones 1 0)
                        (sinkhorn_b 5 1 zero_phi fifths ones 1 1) i j)
     = ones j).
Proof.
  split; [exact valid_fifths|].
  exact (proj1 (proj2 (column_sums_exact 5 1 zero_phi fifths ones 1 0 3 0
                         valid_fifths))).
Defined.

(** The claim that every matrix without five rows makes the coupling
    fail, refuted: a single row is stretched to five. *)
Lemma one_row_is_stretched :
  (1 <> 5)%nat /\
  exists r,
    matrix_IPFP [[Fin 0]] [Fin 1] [Fin 1] 1 (Fin (1 / 1000000000)) 100
      (Fin (1 / 10)) = Done r
    /\ nrows (r_pi r) = 5%nat.
Proof.
  split; [lia|]. destruct unit_matrix_run as (u & v & val & H).
  eexists. split; [exact H|]. reflexivity.
Qed.

(** C9.  The coupling of cell 5 repeats b five times, whatever the number
    n of rows of Phi: with n = 5 it is a_i K_ij b_j; with n = 1 numpy
    stretches the single row and the coupling has five equal rows; with any
    other n the shapes do not fit and the cell raises ValueError. *)
Theorem matrix_pi_rows n m phi p q sigma tol maxite :
  valid n m p q sigma -> (0 < maxite)%nat ->
  let run := matrix_IPFP (emat n m phi) (evec n p) (evec m q) m (Fin tol)
               maxite (Fin sigma) in
  let pi := sinkhorn_pi n m phi p q sigma tol maxite in
  (n = 5%nat -> exists r, run = Done r /\ r_pi r = emat 5 m pi)
  /\ (n = 1%nat ->
      exists r, run = Done r /\ r_pi r = emat 5 m (fun _ j => pi 0%nat j))
  /\ (n <> 5%nat -> n <> 1%nat -> run = Raise ValueError).
Proof.
  intros H Hmax run pi. unfold run.
  rewrite matrix_IPFP_run by assumption. fold pi.
  split; [|split].
  - intros ->. cbn [bdim Nat.eqb]. eexists. split; [reflexivity|].
    cbn [r_pi]. apply emat_ext. intros i j Hi Hj. now rewrite (bidx_lt 5 i).
  - intros ->. cbn [bdim Nat.eqb]. eexists. split; [reflexivity|].
    reflexivity.
  - intros H5 H1. unfold bdim.
    destruct (Nat.eqb_spec n 5); [contradiction|].
    destruct (Nat.eqb_spec n 1); [contradiction|]. reflexivity.
Qed.

(** C9 on a problem of five rows and one column. *)
Lemma matrix_pi_rows_witness :
  valid 5 1 fifths ones 1 /\ (0 < 3)%nat /\
  exists r,
    matrix_IPFP (emat 5 1 zero_phi) (evec 5 fifths) (evec 1 ones) 1 (Fin 0) 3
      (Fin 1) = Done r
    /\ r_pi r = emat 5 1 (sinkhorn_pi 5 1 zero_phi fifths ones 1 0 3).
Proof.
  split; [exact valid_fifths|]. split; [lia|].
  exact (proj1 (matrix_pi_rows 5 1 zero_phi fifths ones 1 0 3 valid_fifths
                  ltac:(lia)) eq_refl).
Defined.

(** With a negative entry in p the first u is not a number at that
    entry, and neither is the first error: cell 7 leaves its loop after
    a single turn. *)
Lemma lse_negative_marginal n m F p q x sigma tol maxite i :
  (0 < n)%nat -> (0 < m)%nat -> (i < n)%nat -> p i = Fin x -> x < 0 ->
  (0 < maxite)%nat ->
  exists r,
    lse_IPFP (tab2 n m F) (tabv n p) (tabv m q) n m (Fin tol) maxite sigma
    = Done r
    /\ l_ite r = 1%nat.
Proof.
  intros Hn Hm Hi Hp Hx Hmax.
  set (mu := fun i => xmul (xneg sigma) (xlog (p i))).
  set (nu := fun j => xmul (xneg sigma) (xlog (q j))).
  assert (Hmu : mu i = NaN).
  { unfold mu. rewrite Hp. unfold xlog.
    destruct (Rlt_dec 0 x); [lra|]. destruct (Rlt_dec x 0); [|lra].
    destruct (xneg sigma); reflexivity. }
  set (U := x_stab_u m F mu (fun _ => Fin 0) sigma).
  assert (HU : U i = NaN) by (unfold U, x_stab_u; now rewrite Hmu).
  assert (He : x_change n U (fun _ => NaN) true = NaN).
  { unfold x_change. apply fold_max_nan.
    replace NaN with (xabs (xsub (U i) NInf)) by now rewrite HU.
    unfold tabv. apply (in_map (fun i => xabs (xsub (U i) NInf))).
    apply in_seq. lia. }
  set (s1 := {| su := Some (tabv n U); sv := tabv m (x_stab_v n F nu U sigma);
                suprec := Array (tabv n U); serror := NaN; site := 1 |}).
  assert (B1 : lse_body (tab2 n m F) (tabv n mu) (tabv m nu) n sigma
                 (lse_init m (Fin tol)) = Done s1).
  { unfold lse_init. rewrite np_repeat_tabv.
    change (Scalar NInf) with (previous_at n (fun _ => NaN) true).
    rewrite lse_body_tab by assumption. unfold s1. do 2 f_equal. exact He. }
  rewrite lse_IPFP_finish, !neg_sigma_log_tabv. fold mu nu.
  unfold lse_loop. cbn [while_loop].
  assert (G0 : lse_guard (Fin tol) maxite (lse_init m (Fin tol)) = true).
  { unfold lse_guard, lse_init. cbn [serror site]. now apply guard_starts. }
  rewrite G0, B1. cbn [bind].
  destruct maxite as [|c]; [lia|]. cbn [while_loop].
  unfold lse_guard at 1. unfold s1 at 1. cbn [serror xgt andb bind].
  unfold lse_finish, s1. cbn [su sv site bind].
  rewrite coupling_tab by assumption. cbn [bind].
  destruct (objective_tab n n m F
              (fun i j => xexp (xdiv (xsub (xsub (F i j) (U i))
                                        (x_stab_v n F nu U sigma j)) sigma))
              sigma Hn Hn (bdim_refl n)) as (val & Hval).
  rewrite Hval. cbn [bind]. eexists. split; reflexivity.
Qed.

(** The claim that the first error of cell 7 is plus infinity whatever
    the inputs, and the count 2 at least, refuted: with p = (-1) the
    first error is not a number and the cell returns after one turn of a
    hundred. *)
Lemma negative_entry_one_turn :
  exists r,
    lse_IPFP [[Fin 0]] [Fin (-1)] [Fin 1] 1 1 (Fin (1 / 1000000000)) 100 (Fin 1)
    = Done r
    /\ l_ite r = 1%nat.
Proof.
  exact (lse_negative_marginal 1 1 (fun _ _ => Fin 0) (fun _ => Fin (-1))
           (fun _ => Fin 1) (-1) (Fin 1) (1 / 1000000000) 100 0
           ltac:(lia) ltac:(lia) ltac:(lia) eq_refl ltac:(lra) ltac:(lia)).
Qed.

(** C10.  Cell 7 starts with uprec at minus infinity.  On a finite Phi,
    a p whose entries lie between 0 and 1, a positive sigma and a
    tolerance below 2^53 in size, whatever q, the first u has no entry
    that is minus infinity or not a number, so the error after the first
    turn is plus infinity; with a cap of two turns or more the loop does
    not stop after a single turn, and the count returned is at least 2. *)
Theorem lse_takes_two_turns n m phi p (q : nat -> xreal) sigma tol maxite :
  (0 < n)%nat -> (0 < m)%nat ->
  (forall i, (i < n)%nat -> 0 <= p i <= 1) -> 0 < sigma ->
  entering_tol tol ->
  let Phi := emat n m phi in
  let mu := neg_sigma_log (Fin sigma) (evec n p) in
  let nu := neg_sigma_log (Fin sigma) (tabv m q) in
  (suprec (lse_init m (Fin tol)) = Scalar NInf)
  /\ (exists s1,
        lse_body Phi mu nu n (Fin sigma) (lse_init m (Fin tol)) = Done s1
        /\ serror s1 = PInf /\ site s1 = 1%nat
        /\ (lse_guard (Fin tol) maxite s1 = true <-> (2 <= maxite)%nat))
  /\ ((2 <= maxite)%nat ->
      exists r,
        lse_IPFP Phi (evec n p) (tabv m q) n m (Fin tol) maxite (Fin sigma)
        = Done r /\ (2 <= l_ite r)%nat).
Proof.
  intros Hn Hm Hp01 Hs _ Phi mu nu.
  assert (Hp : forall i, (i < n)%nat -> 0 <= p i)
    by (intros i Hi; apply (Hp01 i Hi)).
  set (F := fun i j => Fin (phi i j)).
  set (xmu := fun i => xmul (xneg (Fin sigma)) (xlog (Fin (p i)))).
  set (xnu := fun j => xmul (xneg (Fin sigma)) (xlog (q j))).
  assert (Emu : mu = tabv n xmu) by apply neg_sigma_log_tabv.
  assert (Enu : nu = tabv m xnu) by apply neg_sigma_log_tabv.
  assert (Einit : lse_init m (Fin tol)
                  = {| su := None; sv := tabv m (fun _ => Fin 0);
                       suprec := previous_at n (fun _ => NaN) true;
                       serror := Fin (tol + 1); site := 0 |}).
  { unfold lse_init. now rewrite np_repeat_tabv. }
  assert (Hbody : exists s1,
            lse_body Phi mu nu n (Fin sigma) (lse_init m (Fin tol)) = Done s1
            /\ serror s1 = PInf /\ site s1 = 1%nat /\ lse_shaped n m s1).
  { rewrite Emu, Enu, Einit. unfold Phi, emat. fold F.
    rewrite lse_body_tab by assumption.
    eexists. split; [reflexivity|]. cbn [serror site].
    split; [|split; [reflexivity|]].
    - now apply first_change_infinite.
    - split; [eexists; reflexivity|]. split.
      + eexists _, false. reflexivity.
      + intros _. eexists. reflexivity. }
  destruct Hbody as (s1 & Hb1 & He1 & Ht1 & Hsh1).
  assert (Hg1 : lse_guard (Fin tol) maxite s1 = true <-> (2 <= maxite)%nat).
  { unfold lse_guard. rewrite He1, Ht1. cbn [xgt andb].
    rewrite Nat.ltb_lt. lia. }
  split; [reflexivity|]. split.
  - exists s1. repeat split; try assumption; now apply Hg1.
  - intros Hmax. rewrite lse_IPFP_finish. unfold lse_loop.
    fold mu nu. cbn [while_loop].
    assert (Hg0 : lse_guard (Fin tol) maxite (lse_init m (Fin tol)) = true).
    { unfold lse_guard, lse_init. cbn [serror site xadd xgt].
      rewrite Rltb_succ. cbn [andb]. apply Nat.ltb_lt. lia. }
    rewrite Hg0, Hb1. cbn [bind].
    destruct maxite as [|[|c]]; try lia.
    cbn [while_loop]. rewrite (proj2 Hg1) by lia.
    destruct (lse_body_shaped n m F xmu xnu (Fin sigma) s1 Hn Hm Hsh1)
      as (s2 & Hb2 & Hsh2 & Ht2).
    unfold Phi, emat. fold F. rewrite Emu, Enu. rewrite Hb2. cbn [bind].
    destruct (lse_run_on n m F xmu xnu (Fin sigma) (Fin tol) (S (S c)) (S c) s2
                Hn Hm Hsh2) as (r & Hr & Hle).
    + lia.
    + rewrite Ht2, Ht1. lia.
    + exists r. split; [exact Hr|]. rewrite Ht2, Ht1 in Hle. exact Hle.
Qed.

(** C10 on the smallest problem, with a cap of two turns. *)
Lemma lse_takes_two_turns_witness :
  (0 < 1)%nat /\ (forall i, (i < 1)%nat -> 0 <= ones i <= 1) /\ 0 < 1
  /\ entering_tol 1 /\
  exists r,
    lse_IPFP (emat 1 1 zero_phi) (evec 1 ones) (tabv 1 (fun _ => Fin 1)) 1 1
      (Fin 1) 2 (Fin 1) = Done r
    /\ (2 <= l_ite r)%nat.
Proof.
  assert (Hp : forall i, (i < 1)%nat -> 0 <= ones i <= 1)
    by (intros i _; unfold ones; lra).
  assert (Ht : entering_tol 1)
    by (apply entering_tol_small; rewrite Rabs_R1; lra).
  split; [lia|]. split; [exact Hp|]. split; [lra|]. split; [exact Ht|].
  exact (proj2 (proj2 (lse_takes_two_turns 1 1 zero_phi ones (fun _ => Fin 1)
                         1 1 2 ltac:(lia) ltac:(lia) Hp ltac:(lra) Ht))
           ltac:(lia)).
Defined.

(** * Further properties of the three cells *)

(** ** More on sums and maxima *)

Lemma Rmaxn_bound n f c :
  (0 < n)%nat -> (forall i, (i < n)%nat -> f i <= c) -> Rmaxn n f <= c.
Proof.
  intros Hn H. unfold Rmaxn.
  destruct n as [|n]; [lia|]. simpl.
  assert (G : forall l x, x <= c -> (forall y, In y l -> y <= c) ->
              fold_left Rmax l x <= c).
  { induction l as [|y l IH]; intros x Hx Hl; simpl; [assumption|].
    apply IH.
    - apply Rmax_lub; [assumption|]. apply Hl. now left.
    - intros z Hz. apply Hl. now right. }
  apply G.
  - apply H. lia.
  - intros y Hy. apply in_map_iff in Hy. destruct Hy as (i & <- & Hi).
    apply in_seq in Hi. apply H. lia.
Qed.

Lemma Rabs_bounds x d : Rabs x <= d -> - d <= x <= d.
Proof.
  intros H. pose proof (Rle_abs x). pose proof (Rle_abs (- x)) as H'.
  rewrite Rabs_Ropp in H'. lra.
Qed.

Lemma Rsum_scal_l n f c : Rsum n (fun i => c * f i) = c * Rsum n f.
Proof.
  rewrite (Rsum_ext n _ (fun i => f i * c)) by (intros; ring).
  rewrite Rsum_scal. ring.
Qed.

Lemma Rsum_app a b h :
  Rsum (a + b) h = Rsum a h + Rsum b (fun k => h (a + k)%nat).
Proof.
  induction a as [|a IH] in h |- *.
  - unfold Rsum at 2. simpl. rewrite Rplus_0_l. reflexivity.
  - change (S a + b)%nat with (S (a + b)). rewrite !Rsum_S.
    rewrite (IH (fun i => h (S i))). rewrite Rplus_assoc. reflexivity.
Qed.

Lemma Rsum_last n f : Rsum (S n) f = Rsum n f + f n.
Proof.
  replace (S n) with (n + 1)%nat by lia. rewrite Rsum_app, Rsum_one.
  f_equal. f_equal. lia.
Qed.

Lemma Rsum_const n c : Rsum n (fun _ => c) = INR n * c.
Proof.
  induction n as [|n IH].
  - unfold Rsum. simpl. ring.
  - rewrite Rsum_last, IH, S_INR. ring.
Qed.

(** ** The two half-steps do not expand distances

    In the maximum norm, u as a function of v and v as a function of u
    move by no more than their argument does. *)

Lemma sum_exp_shift k (f g : nat -> R) d s :
  0 < s -> (forall j, (j < k)%nat -> f j <= g j + d) ->
  Rsum k (fun j => exp (f j / s)) <= exp (d / s) * Rsum k (fun j => exp (g j / s)).
Proof.
  intros Hs H. rewrite <- Rsum_scal_l. apply Rsum_le. intros j Hj.
  rewrite <- exp_plus.
  destruct (Req_dec (f j / s) (d / s + g j / s)) as [->|Hne]; [lra|].
  apply Rlt_le, exp_increasing.
  assert (f j / s <= d / s + g j / s).
  { replace (d / s + g j / s) with ((g j + d) / s) by (field; lra).
    unfold Rdiv. apply Rmult_le_compat_r; [|now apply H].
    apply Rlt_le. now apply Rinv_0_lt_compat. }
  lra.
Qed.

Lemma log_sum_exp_shift k (f g : nat -> R) d s :
  (0 < k)%nat -> 0 < s -> (forall j, (j < k)%nat -> f j <= g j + d) ->
  s * ln (Rsum k (fun j => exp (f j / s)))
  <= s * ln (Rsum k (fun j => exp (g j / s))) + d.
Proof.
  intros Hk Hs H.
  pose proof (sum_exp_shift k f g d s Hs H) as Hle.
  pose proof (Rsum_exp_pos k (fun j => f j / s) Hk) as Hf.
  pose proof (Rsum_exp_pos k (fun j => g j / s) Hk) as Hg.
  cbv beta in Hf, Hg.
  set (A := Rsum k (fun j => exp (f j / s))) in *.
  set (B := Rsum k (fun j => exp (g j / s))) in *.
  assert (Hln : ln A <= d / s + ln B).
  { rewrite <- (ln_exp (d / s)). rewrite <- ln_mult; [|apply exp_pos|assumption].
    destruct (Req_dec A (exp (d / s) * B)) as [->|Hne]; [lra|].
    apply Rlt_le, ln_increasing; [assumption|lra]. }
  assert (Hmul : s * ln A <= s * (d / s + ln B))
    by (apply Rmult_le_compat_l; lra).
  replace (s * (d / s + ln B)) with (s * ln B + d) in Hmul by (field; lra).
  exact Hmul.
Qed.

Lemma log_u_nonexpansive m phi p sigma v v' d i :
  (0 < m)%nat -> 0 < sigma ->
  (forall j, (j < m)%nat -> Rabs (v j - v' j) <= d) ->
  Rabs (log_u m phi p sigma v i - log_u m phi p sigma v' i) <= d.
Proof.
  intros Hm Hs H. unfold log_u.
  pose proof (log_sum_exp_shift m (fun j => phi i j - v j)
                (fun j => phi i j - v' j) d sigma Hm Hs) as H1.
  pose proof (log_sum_exp_shift m (fun j => phi i j - v' j)
                (fun j => phi i j - v j) d sigma Hm Hs) as H2.
  cbv beta in H1, H2.
  assert (forall j, (j < m)%nat -> - d <= v j - v' j <= d).
  { intros j Hj. specialize (H j Hj). apply Rabs_bounds in H. lra. }
  apply Rabs_le.
  assert (G1 : forall j, (j < m)%nat -> phi i j - v j <= phi i j - v' j + d).
  { intros j Hj. specialize (H0 j Hj). lra. }
  assert (G2 : forall j, (j < m)%nat -> phi i j - v' j <= phi i j - v j + d).
  { intros j Hj. specialize (H0 j Hj). lra. }
  specialize (H1 G1). specialize (H2 G2). lra.
Qed.

Lemma log_v_nonexpansive n phi q sigma u u' d j :
  (0 < n)%nat -> 0 < sigma ->
  (forall i, (i < n)%nat -> Rabs (u i - u' i) <= d) ->
  Rabs (log_v n phi q sigma u j - log_v n phi q sigma u' j) <= d.
Proof.
  intros Hn Hs H. unfold log_v, log_col.
  pose proof (log_sum_exp_shift n (fun i => phi i j - u i)
                (fun i => phi i j - u' i) d sigma Hn Hs) as H1.
  pose proof (log_sum_exp_shift n (fun i => phi i j - u' i)
                (fun i => phi i j - u i) d sigma Hn Hs) as H2.
  cbv beta in H1, H2.
  assert (forall i, (i < n)%nat -> - d <= u i - u' i <= d).
  { intros i Hi. specialize (H i Hi). apply Rabs_bounds in H. lra. }
  apply Rabs_le.
  assert (G1 : forall i, (i < n)%nat -> phi i j - u i <= phi i j - u' i + d).
  { intros i Hi. specialize (H0 i Hi). lra. }
  assert (G2 : forall i, (i < n)%nat -> phi i j - u' i <= phi i j - u i + d).
  { intros i Hi. specialize (H0 i Hi). lra. }
  specialize (H1 G1). specialize (H2 G2). lra.
Qed.

(** From one turn to the next u moves by no more than it did the turn
    before. *)
Lemma log_u_iter_step n m phi p q sigma k d :
  (0 < n)%nat -> (0 < m)%nat -> 0 < sigma ->
  (forall i, (i < n)%nat ->
     Rabs (log_u_iter n m phi p q sigma (S k) i
           - log_u_iter n m phi p q sigma k i) <= d) ->
  forall i, (i < n)%nat ->
    Rabs (log_u_iter n m phi p q sigma (S (S k)) i
          - log_u_iter n m phi p q sigma (S k) i) <= d.
Proof.
  intros Hn Hm Hs H i Hi. unfold log_u_iter.
  apply log_u_nonexpansive; try assumption.
  intros j Hj. cbn [log_v_iter].
  apply log_v_nonexpansive; try assumption.
Qed.

Lemma change_ub n u w i :
  (i < n)%nat -> Rabs (u i - w i) <= change n u w.
Proof.
  intros Hi. unfold change.
  apply (Rmaxn_ub n (fun i => Rabs (u i - w i)) i Hi).
Qed.

Lemma stab_change_step n m phi p q sigma k :
  (0 < n)%nat -> (0 < m)%nat -> 0 < sigma ->
  change n (stab_u_iter n m phi p q sigma (S (S k)))
    (stab_u_iter n m phi p q sigma (S k))
  <= change n (stab_u_iter n m phi p q sigma (S k))
       (stab_u_iter n m phi p q sigma k).
Proof.
  intros Hn Hm Hs.
  assert (Hne : sigma <> 0) by lra.
  unfold change at 1. apply Rmaxn_bound; [assumption|].
  intros i Hi. rewrite !stab_log_u_iter by assumption.
  apply log_u_iter_step; try assumption.
  intros i' Hi'. rewrite <- !stab_log_u_iter by assumption.
  now apply change_ub.
Qed.

(** ** Rows of the coupling of cells 6 and 7 *)

(** Every row of exp((Phi - u - v) / sigma) is p_i scaled by what the
    next update of u would add to u_i. *)
Lemma gibbs_rows m phi p sigma u v i :
  (0 < m)%nat -> 0 < sigma -> 0 < p i ->
  Rsum m (fun j => gibbs phi sigma u v i j)
  = p i * exp ((log_u m phi p sigma v i - u i) / sigma).
Proof.
  intros Hm Hs Hp.
  pose proof (Rsum_exp_pos m (fun j => (phi i j - v j) / sigma) Hm) as HS.
  cbv beta in HS.
  unfold log_u, mu_.
  set (S := Rsum m (fun j => exp ((phi i j - v j) / sigma))) in *.
  replace ((- sigma * ln (p i) + sigma * ln S - u i) / sigma)
    with (- ln (p i) + (ln S + - u i / sigma)) by (field; lra).
  rewrite !exp_plus, exp_Ropp, !exp_ln by assumption.
  unfold gibbs.
  rewrite (Rsum_ext m _ (fun j => exp ((phi i j - v j) / sigma)
                                  * exp (- u i / sigma))).
  2:{ intros j _. rewrite <- exp_plus. f_equal. field. lra. }
  rewrite Rsum_scal. fold S. field. lra.
Qed.

(** ** What the error of a turn says about the rows *)

(** One turn of a = p / (K b), b' = q / (K^T a): the columns of a K b'
    are exact, and the rows are within the error measured on (a, b). *)
Lemma turn_marginals n m phi p q sigma b :
  valid n m p q sigma -> positive_on m b ->
  let a := scale_rows m phi p sigma b in
  let b' := scale_cols n phi q sigma a in
  let err := marginal_error n m phi q sigma a b in
  (forall j, (j < m)%nat ->
     Rsum n (fun i => scaled_kernel phi sigma a b' i j) = q j)
  /\ (forall i, (i < n)%nat ->
        let row := Rsum m (fun j => scaled_kernel phi sigma a b' i j) in
        Rabs (row - p i) <= err * row
        /\ (Rsum m q = 1 ->
            forall tol, err <= tol -> Rabs (row - p i) <= tol)).
Proof.
  intros H Hb a b' err. pose proof H as (Hn & Hm & Hp & Hq & Hs).
  assert (Ha : positive_on n a) by now apply scale_rows_pos.
  split.
  - intros j Hj. now apply scaled_kernel_columns.
  - intros i Hi row.
    pose proof (row_sum_error n m phi p q sigma b i Hn Hm Hp Hq Hb Hi) as Hrow.
    cbv zeta in Hrow. fold a b' row err in Hrow.
    split; [exact Hrow|]. intros Hone tol Htol.
    pose proof (row_sum_le_one n m phi q sigma a i Hn Ha Hq Hi Hone) as Hle.
    fold b' row in Hle.
    assert (0 <= err).
    { unfold err, marginal_error. now apply Rmaxn_nonneg_abs. }
    assert (0 <= row).
    { unfold row. apply Rsum_nonneg. intros j Hj. apply Rlt_le.
      unfold scaled_kernel. apply Rmult_lt_0_compat;
        [apply Rmult_lt_0_compat|];
        [apply Kernel_pos|now apply Ha|].
      exact (scale_cols_pos n m phi q sigma a Hn Hq Ha j Hj). }
    apply (Rle_trans _ _ _ Hrow). nra.
Qed.

Lemma scaling_pos sigma u k : positive_on k (scaling sigma u).
Proof. intros i _. apply exp_pos. Qed.

(** X1.  One turn of the loop of cell 6, from any finite v.  With the
    new u and the old v every row of exp((Phi - u - v) / sigma) sums to
    p_i exactly, and the error the turn measures is the largest relative
    gap between the column sums of that matrix and q.  With the new v
    every column sums to q_j exactly, and every row is within that error
    of p, relative to the row: |row_i - p_i| <= err * row_i.  When q sums
    to 1 no row is above 1, so that a turn whose error is at most the
    tolerance leaves every row within the tolerance of p. *)
Theorem log_turn_marginals n m phi p q sigma v u0 e0 t :
  valid n m p q sigma ->
  exists u v' err,
    log_body (emat n m phi) (evec m q) (neg_sigma_log (Fin sigma) (evec n p))
      (neg_sigma_log (Fin sigma) (evec m q)) n (Fin sigma)
      {| lu := u0; lv := evec m v; lerror := e0; lite := t |}
    = Done {| lu := Some (evec n u); lv := evec m v'; lerror := Fin err;
              lite := S t |}
    /\ (forall i, (i < n)%nat -> Rsum m (gibbs phi sigma u v i) = p i)
    /\ err = Rmaxn m (fun j =>
               Rabs (Rsum n (fun i => gibbs phi sigma u v i j) / q j - 1))
    /\ (forall j, (j < m)%nat ->
          Rsum n (fun i => gibbs phi sigma u v' i j) = q j)
    /\ (forall i, (i < n)%nat ->
          let row := Rsum m (gibbs phi sigma u v' i) in
          Rabs (row - p i) <= err * row
          /\ (Rsum m q = 1 ->
              forall tol, err <= tol -> Rabs (row - p i) <= tol)).
Proof.
  intros H. pose proof H as (Hn & Hm & Hp & Hq & Hs).
  assert (Hs0 : sigma <> 0) by lra.
  set (u := log_u m phi p sigma v).
  set (v' := log_v n phi q sigma u).
  exists u, v', (log_error n m phi q sigma u v).
  split; [|split; [|split; [|split]]].
  - rewrite (neg_sigma_log_evec n p sigma Hp), (neg_sigma_log_evec m q sigma Hq).
    exact (log_body_fin n m phi p q sigma v u0 e0 t H).
  - intros i Hi.
    etransitivity; [apply (gibbs_rows m phi p sigma u v i Hm Hs (Hp i Hi))|].
    unfold u.
    replace ((log_u m phi p sigma v i - log_u m phi p sigma v i) / sigma)
      with 0 by (field; lra).
    rewrite exp_0. ring.
  - unfold log_error. apply Rmaxn_ext. intros j Hj. f_equal. f_equal.
    f_equal. unfold log_col. rewrite <- Rsum_scal. apply Rsum_ext.
    intros i _. unfold gibbs. rewrite <- exp_plus. f_equal. field. assumption.
  - intros j Hj. apply gibbs_columns_log; try assumption. now apply Hq.
  - set (b := scaling sigma v).
    assert (Hb : positive_on m b) by apply scaling_pos.
    destruct (turn_marginals n m phi p q sigma b H Hb) as (_ & Hrows).
    set (a := scale_rows m phi p sigma b) in *.
    set (b' := scale_cols n phi q sigma a) in *.
    assert (Ea : forall i, (i < n)%nat -> a i = scaling sigma u i).
    { intros i Hi. unfold a, u. apply scale_rows_log_u; try assumption;
        [now apply Hp|reflexivity]. }
    assert (Eb : forall j, (j < m)%nat -> b' j = scaling sigma v' j).
    { intros j Hj. unfold b', v'. apply scale_cols_log_v; try assumption.
      now apply Hq. }
    assert (Ee : marginal_error n m phi q sigma a b
                 = log_error n m phi q sigma u v).
    { apply marginal_error_log_error; [assumption|exact Ea|reflexivity]. }
    intros i Hi. specialize (Hrows i Hi). cbv zeta in Hrows. rewrite Ee in Hrows.
    rewrite (Rsum_ext m _ (gibbs phi sigma u v' i)) in Hrows.
    + exact Hrows.
    + intros j Hj. apply scaled_kernel_gibbs; [assumption| |].
      * now apply Ea.
      * now apply Eb.
Qed.

(** X1 on the smallest problem, from v = 0. *)
Lemma log_turn_marginals_witness :
  valid 1 1 ones ones 1 /\
  exists u v' err,
    log_body (emat 1 1 zero_phi) (evec 1 ones)
      (neg_sigma_log (Fin 1) (evec 1 ones)) (neg_sigma_log (Fin 1) (evec 1 ones))
      1 (Fin 1)
      {| lu := None; lv := evec 1 (fun _ => 0); lerror := Fin 1; lite := 0 |}
    = Done {| lu := Some (evec 1 u); lv := evec 1 v'; lerror := Fin err;
              lite := 1 |}
    /\ (forall i, (i < 1)%nat ->
          Rabs (Rsum 1 (gibbs zero_phi 1 u v' i) - ones i)
          <= err * Rsum 1 (gibbs zero_phi 1 u v' i)).
Proof.
  assert (Hv : valid 1 1 ones ones 1) by (apply valid_unit; lra).
  split; [exact Hv|].
  destruct (log_turn_marginals 1 1 zero_phi ones ones 1 (fun _ => 0) None
              (Fin 1) 0 Hv) as (u & v' & err & Hb & _ & _ & _ & Hrow).
  exists u, v', err. split; [exact Hb|].
  intros i Hi. exact (proj1 (Hrow i Hi)).
Defined.

(** X2.  One turn of the loop of cell 5, once b is recomputed too: the
    columns of a K b' sum to q exactly, and every row is within the error
    the turn has measured of p, relative to the row:
    |row_i - p_i| <= err * row_i.  When q sums to 1 no row is above 1, so
    that a turn whose error is at most the tolerance leaves every row
    within the tolerance of p. *)
Theorem matrix_rows_after_b n m phi p q sigma b A0 e0 t :
  valid n m p q sigma -> positive_on m b ->
  exists a b' err,
    matrix_body (kernel (emat n m phi) (Fin sigma)) (evec n p) (evec m q)
      {| mA := A0; mB := two_d (evec m b); merror := e0; mite := t |}
    = Done {| mA := Some (two_d (evec n a)); mB := two_d (evec m b');
              merror := Fin err; mite := S t |}
    /\ (forall j, (j < m)%nat ->
          Rsum n (fun i => a i * exp (phi i j / sigma) * b' j) = q j)
    /\ (forall i, (i < n)%nat ->
          let row := Rsum m (fun j => a i * exp (phi i j / sigma) * b' j) in
          Rabs (row - p i) <= err * row
          /\ (Rsum m q = 1 ->
              forall tol, err <= tol -> Rabs (row - p i) <= tol)).
Proof.
  intros H Hb. pose proof H as (Hn & Hm & Hp & Hq & Hs).
  destruct (turn_marginals n m phi p q sigma b H Hb) as (Hcols & Hrows).
  set (a := scale_rows m phi p sigma b) in *.
  set (b' := scale_cols n phi q sigma a) in *.
  exists a, b', (marginal_error n m phi q sigma a b).
  assert (E : forall i j, a i * exp (phi i j / sigma) * b' j
                          = scaled_kernel phi sigma a b' i j).
  { intros i j. unfold scaled_kernel, Kernel. ring. }
  split; [|split].
  - rewrite kernel_fin by lra. now apply matrix_body_fin.
  - intros j Hj. rewrite <- (Hcols j Hj). apply Rsum_ext. intros i _. apply E.
  - intros i Hi. specialize (Hrows i Hi). cbv zeta in Hrows |- *.
    rewrite (Rsum_ext m _ (fun j => scaled_kernel phi sigma a b' i j))
      by (intros j _; apply E).
    exact Hrows.
Qed.

(** X2 on the smallest problem, from b = 1. *)
Lemma matrix_rows_after_b_witness :
  valid 1 1 ones ones 1 /\ positive_on 1 ones /\
  exists a b' err,
    matrix_body (kernel (emat 1 1 zero_phi) (Fin 1)) (evec 1 ones) (evec 1 ones)
      {| mA := None; mB := two_d (evec 1 ones); merror := Fin 1; mite := 0 |}
    = Done {| mA := Some (two_d (evec 1 a)); mB := two_d (evec 1 b');
              merror := Fin err; mite := 1 |}
    /\ (forall j, (j < 1)%nat ->
          Rsum 1 (fun i => a i * exp (zero_phi i j / 1) * b' j) = ones j).
Proof.
  assert (Hv : valid 1 1 ones ones 1) by (apply valid_unit; lra).
  split; [exact Hv|]. split; [apply ones_positive|].
  destruct (matrix_rows_after_b 1 1 zero_phi ones ones 1 ones None (Fin 1) 0
              Hv (ones_positive 1)) as (a & b' & err & Hb & Hcol & _).
  exists a, b', err. split; [exact Hb|exact Hcol].
Defined.

(** X3.  Cell 7 stops on the change of u, not on a marginal; still, on
    a valid problem, the columns of the coupling it returns sum to q
    exactly, and when it reports convergence every row sums to p_i up to
    a factor between exp(-tol / sigma) and exp(tol / sigma). *)
Theorem lse_converged_marginals n m phi p q sigma tol maxite :
  valid n m p q sigma -> (0 < maxite)%nat ->
  exists r rows,
    lse_IPFP (emat n m phi) (evec n p) (evec m q) n m (Fin tol) maxite (Fin sigma)
    = Done r
    /\ sum_axis0 (l_pi r) = evec m q
    /\ sum_axis1 (l_pi r) = evec n rows
    /\ (l_status r = Converged ->
        forall i, (i < n)%nat ->
          p i * exp (- tol / sigma) <= rows i <= p i * exp (tol / sigma)).
Proof.
  intros H Hmax. pose proof H as (Hn & Hm & Hp & Hq & Hs).
  assert (Hne : sigma <> 0) by lra.
  pose proof (stab_turns_pos n m phi p q sigma tol maxite Hmax) as HN.
  destruct (first_exit_stop _ maxite
              (stab_continue_cap n m phi p q sigma tol maxite))
    as (_ & _ & Hstop).
  change (first_exit (stab_continue n m phi p q sigma tol maxite) 0 maxite)
    with (stab_turns n m phi p q sigma tol maxite) in Hstop.
  set (N := stab_turns n m phi p q sigma tol maxite) in *.
  set (u := stab_u_iter n m phi p q sigma (N - 1)).
  set (v := stab_v_iter n m phi p q sigma N).
  exists {| l_u := evec n u; l_v := evec m v;
            l_pi := emat n m (gibbs phi sigma u v);
            l_val := Fin (Robjective n m phi (gibbs phi sigma u v) sigma);
            l_ite := N; l_status := status_of N maxite |},
         (fun i => Rsum m (gibbs phi sigma u v i)).
  split; [now apply lse_IPFP_run|]. cbn [l_pi l_status].
  assert (EN : N = S (N - 1)) by lia.
  assert (Ev : forall j, v j = stab_v n phi q sigma u j).
  { intros j. unfold v, u. rewrite EN at 1. reflexivity. }
  split; [|split].
  - apply sum_axis0_columns; [assumption|]. intros j Hj.
    rewrite (Rsum_ext n _ (fun i => gibbs phi sigma u (stab_v n phi q sigma u) i j))
      by (intros i _; apply gibbs_ext_v, Ev).
    apply gibbs_columns_stab; try assumption. now apply Hq.
  - unfold emat, evec. apply sum_axis1_fin.
  - intros Hconv i Hi. apply status_converged in Hconv.
    unfold stab_continue in Hstop. apply andb_false_iff in Hstop.
    destruct Hstop as [Herr|Hcap]; [|apply Nat.ltb_ge in Hcap; lia].
    assert (Hd : Rabs (stab_u_iter n m phi p q sigma N i - u i) <= tol).
    { unfold u. destruct N as [|[|k]]; [lia|discriminate Herr|].
      replace (S (S k) - 1)%nat with (S k) by lia.
      cbn [stab_error_at xgt] in Herr. apply Rltb_false in Herr.
      eapply Rle_trans.
      { apply (change_ub n (stab_u_iter n m phi p q sigma (S (S k)))
                 (stab_u_iter n m phi p q sigma (S k)) i Hi). }
      eapply Rle_trans; [now apply stab_change_step|]. exact Herr. }
    change (Rsum m (gibbs phi sigma u v i))
      with (Rsum m (fun j => gibbs phi sigma u v i j)).
    rewrite (gibbs_rows m phi p sigma u v i) by (try assumption; now apply Hp).
    replace (log_u m phi p sigma v i) with (stab_u_iter n m phi p q sigma N i)
      by (unfold stab_u_iter; fold v; now apply stab_u_log_u).
    apply Rabs_bounds in Hd.
    set (d := stab_u_iter n m phi p q sigma N i - u i) in *.
    pose proof (Hp i Hi) as Hpi.
    assert (Hlo : exp (- tol / sigma) <= exp (d / sigma)).
    { destruct (Req_dec (- tol / sigma) (d / sigma)) as [->|Hx]; [lra|].
      apply Rlt_le, exp_increasing.
      assert (- tol / sigma <= d / sigma).
      { unfold Rdiv. apply Rmult_le_compat_r; [|lra].
        apply Rlt_le. now apply Rinv_0_lt_compat. }
      lra. }
    assert (Hhi : exp (d / sigma) <= exp (tol / sigma)).
    { destruct (Req_dec (d / sigma) (tol / sigma)) as [->|Hx]; [lra|].
      apply Rlt_le, exp_increasing.
      assert (d / sigma <= tol / sigma).
      { unfold Rdiv. apply Rmult_le_compat_r; [|lra].
        apply Rlt_le. now apply Rinv_0_lt_compat. }
      lra. }
    split; apply Rmult_le_compat_l; lra.
Qed.

(** X3 on the smallest problem. *)
Lemma lse_converged_marginals_witness :
  valid 1 1 ones ones 1 /\ (0 < 3)%nat /\
  exists r rows,
    lse_IPFP (emat 1 1 zero_phi) (evec 1 ones) (evec 1 ones) 1 1 (Fin 0) 3 (Fin 1)
    = Done r
    /\ sum_axis0 (l_pi r) = evec 1 ones
    /\ sum_axis1 (l_pi r) = evec 1 rows
    /\ (l_status r = Converged ->
        forall i, (i < 1)%nat ->
          ones i * exp (- 0 / 1) <= rows i <= ones i * exp (0 / 1)).
Proof.
  assert (Hv : valid 1 1 ones ones 1) by (apply valid_unit; lra).
  split; [exact Hv|]. split; [lia|].
  exact (lse_converged_marginals 1 1 zero_phi ones ones 1 0 3 Hv ltac:(lia)).
Defined.

(** X4.  The error cell 7 measures, the largest change of an entry of u,
    never grows: from the second turn on, the error after a turn is at
    most the error after the turn before. *)
Theorem lse_error_nonincreasing n m phi p q sigma tol k :
  valid n m p q sigma ->
  let body := lse_body (emat n m phi) (neg_sigma_log (Fin sigma) (evec n p))
                (neg_sigma_log (Fin sigma) (evec m q)) n (Fin sigma) in
  exists s s' e e',
    iterate (S (S k)) body (lse_init m (Fin tol)) = Done s
    /\ body s = Done s'
    /\ serror s = Fin e /\ serror s' = Fin e' /\ e' <= e.
Proof.
  intros H body. pose proof H as (Hn & Hm & Hp & Hq & Hs).
  exists (lse_state_at n m phi p q sigma tol (S (S k))),
         (lse_state_at n m phi p q sigma tol (S (S (S k)))),
         (change n (stab_u_iter n m phi p q sigma (S k))
            (stab_u_iter n m phi p q sigma k)),
         (change n (stab_u_iter n m phi p q sigma (S (S k)))
            (stab_u_iter n m phi p q sigma (S k))).
  split; [now apply lse_iterate|]. split.
  { pose proof (lse_iterate n m phi p q sigma tol (S (S (S k))) H) as H3.
    cbn [iterate] in H3. fold body in H3.
    pose proof (lse_iterate n m phi p q sigma tol (S (S k)) H) as H2.
    cbn [iterate] in H2. fold body in H2. rewrite H2 in H3. exact H3. }
  split; [reflexivity|]. split; [reflexivity|].
  now apply stab_change_step.
Qed.

(** X4 on the smallest problem. *)
Lemma lse_error_nonincreasing_witness :
  valid 1 1 ones ones 1 /\
  exists s s' e e',
    iterate 2 (lse_body (emat 1 1 zero_phi) (neg_sigma_log (Fin 1) (evec 1 ones))
                 (neg_sigma_log (Fin 1) (evec 1 ones)) 1 (Fin 1))
      (lse_init 1 (Fin 0)) = Done s
    /\ lse_body (emat 1 1 zero_phi) (neg_sigma_log (Fin 1) (evec 1 ones))
         (neg_sigma_log (Fin 1) (evec 1 ones)) 1 (Fin 1) s = Done s'
    /\ serror s = Fin e /\ serror s' = Fin e' /\ e' <= e.
Proof.
  assert (Hv : valid 1 1 ones ones 1) by (apply valid_unit; lra).
  split; [exact Hv|].
  exact (lse_error_nonincreasing 1 1 zero_phi ones ones 1 0 0 Hv).
Defined.

(** ** An error that is not a number ends the loop *)

Lemma x_change_nan n u w i :
  (i < n)%nat -> pinf_or_nan (u i) -> pinf_or_nan (w i) ->
  x_change n u w false = NaN.
Proof.
  intros Hi Hu Hw. unfold x_change. apply fold_max_nan.
  replace NaN with (xabs (xsub (u i) (w i))).
  - unfold tabv. apply (in_map (fun i => xabs (xsub (u i) (w i)))).
    apply in_seq. lia.
  - destruct Hu as [->| ->], Hw as [->| ->]; reflexivity.
Qed.

(** X5.  With a zero entry in p, the others between 0 and 1, cell 7
    takes two turns and reports convergence, at any tolerance below 2^53
    in size: u is infinite at that entry, its change from the first turn
    to the second is not a number, and [error > tol] is false of a NaN.
    The objective returned is NaN. *)
Theorem lse_nan_is_convergence n m phi p (q : nat -> xreal) sigma tol maxite i :
  (0 < n)%nat -> (0 < m)%nat -> (i < n)%nat ->
  (forall k, (k < n)%nat -> 0 <= p k <= 1) -> p i = 0 -> 0 < sigma ->
  entering_tol tol -> (3 <= maxite)%nat ->
  (exists s,
     lse_loop (S maxite) (emat n m phi) (neg_sigma_log (Fin sigma) (evec n p))
       (neg_sigma_log (Fin sigma) (tabv m q)) n (Fin sigma) (Fin tol) maxite
       (lse_init m (Fin tol)) = Done s
     /\ site s = 2%nat /\ serror s = NaN)
  /\ (exists r,
        lse_IPFP (emat n m phi) (evec n p) (tabv m q) n m (Fin tol) maxite
          (Fin sigma) = Done r
        /\ l_ite r = 2%nat /\ l_status r = Converged /\ l_val r = NaN).
Proof.
  intros Hn Hm Hi Hp01 Hpi Hs _ Hmax.
  assert (Hp : forall k, (k < n)%nat -> 0 <= p k)
    by (intros k Hk; apply (Hp01 k Hk)).
  set (F := fun i j => Fin (phi i j)).
  set (xmu := fun i => xmul (xneg (Fin sigma)) (xlog (Fin (p i)))).
  set (xnu := fun j => xmul (xneg (Fin sigma)) (xlog (q j))).
  assert (Hmu : xmu i = PInf) by (unfold xmu; rewrite Hpi; now apply mu_zero).
  set (U1 := x_stab_u m F xmu (fun _ => Fin 0) (Fin sigma)).
  set (v1 := x_stab_v n F xnu U1 (Fin sigma)).
  set (U2 := x_stab_u m F xmu v1 (Fin sigma)).
  set (v2 := x_stab_v n F xnu U2 (Fin sigma)).
  set (s1 := {| su := Some (tabv n U1); sv := tabv m v1;
                suprec := Array (tabv n U1); serror := PInf; site := 1 |}).
  set (s2 := {| su := Some (tabv n U2); sv := tabv m v2;
                suprec := Array (tabv n U2); serror := NaN; site := 2 |}).
  set (body := lse_body (tab2 n m F) (tabv n xmu) (tabv m xnu) n (Fin sigma)).
  assert (B1 : body (lse_init m (Fin tol)) = Done s1).
  { unfold body, lse_init. rewrite np_repeat_tabv.
    change (Scalar NInf) with (previous_at n (fun _ => NaN) true).
    rewrite lse_body_tab by assumption. unfold s1. do 2 f_equal.
    now apply first_change_infinite. }
  assert (B2 : body s1 = Done s2).
  { unfold body, s1.
    change (Array (tabv n U1)) with (previous_at n U1 false).
    rewrite lse_body_tab by assumption. unfold s2. do 2 f_equal.
    apply (x_change_nan n _ _ i Hi); now apply x_stab_u_pinf. }
  assert (L : lse_loop (S maxite) (tab2 n m F) (tabv n xmu) (tabv m xnu) n
                (Fin sigma) (Fin tol) maxite (lse_init m (Fin tol)) = Done s2).
  { unfold lse_loop. fold body.
    apply (while_run _ _ (fun k => match k with
                                   | O => lse_init m (Fin tol)
                                   | S O => s1
                                   | _ => s2
                                   end) 2 (S maxite) 0); try lia.
    - intros j Hj. destruct j as [|[|j]]; [| |lia].
      + split; [|exact B1]. unfold lse_guard, lse_init. cbn [serror site].
        apply guard_starts. lia.
      + split; [|exact B2]. unfold lse_guard, s1. cbn [serror site xgt andb].
        apply Nat.ltb_lt. lia.
    - reflexivity. }
  assert (E : lse_loop (S maxite) (emat n m phi)
                (neg_sigma_log (Fin sigma) (evec n p))
                (neg_sigma_log (Fin sigma) (tabv m q)) n (Fin sigma) (Fin tol)
                maxite (lse_init m (Fin tol)) = Done s2).
  { unfold evec, emat. rewrite !neg_sigma_log_tabv. exact L. }
  split.
  { exists s2. split; [exact E|]. split; reflexivity. }
  unfold lse_IPFP. rewrite E. cbn [bind]. unfold s2. cbn [su sv site bind].
  unfold emat. fold F. rewrite coupling_tab by assumption. cbn [bind].
  rewrite (objective_nan n m F _ (Fin sigma) i 0) by
    (try assumption; apply (gibbs_zero_row (phi i 0%nat)); try assumption;
     now apply x_stab_u_pinf).
  cbn [bind]. eexists. split; [reflexivity|].
  cbn [l_ite l_status l_val]. split; [reflexivity|]. split; [|reflexivity].
  unfold status_of. destruct (Nat.leb_spec maxite 2); [lia|reflexivity].
Qed.

(** X5 on two rows and one column, p = (0, 1). *)
Lemma lse_nan_is_convergence_witness :
  exists r,
    lse_IPFP (emat 2 1 zero_phi)
      (evec 2 (fun i => match i with O => 0 | S _ => 1 end))
      (tabv 1 (fun _ => Fin 1)) 2 1 (Fin (1 / 1000000000)) 100 (Fin (1 / 1000))
    = Done r
    /\ l_ite r = 2%nat /\ l_status r = Converged /\ l_val r = NaN.
Proof.
  refine (proj2 (lse_nan_is_convergence 2 1 zero_phi
                   (fun i => match i with O => 0 | S _ => 1 end)
                   (fun _ => Fin 1) (1 / 1000) (1 / 1000000000) 100 0
                   _ _ _ _ _ _ _ _)); try lia; try lra; try reflexivity.
  - intros [|k] _; lra.
  - apply entering_tol_small. rewrite Rabs_pos_eq; lra.
Defined.

(** ** A surplus with no interaction: Phi_ij = f_i + g_j *)

Section Separable.

Variables n m : nat.
Variables f g : nat -> R.
Variables p q : nat -> R.
Variable sigma : R.

Hypothesis Hvalid : valid n m p q sigma.
Hypothesis Hp1 : Rsum n p = 1.
Hypothesis Hq1 : Rsum m q = 1.

Lemma sep_log_u v i :
  log_u m (separable f g) p sigma v i
  = mu_ p sigma i + f i + sigma * ln (Rsum m (fun j => exp ((g j - v j) / sigma))).
Proof.
  destruct Hvalid as (Hn & Hm & Hp & Hq & Hs).
  unfold log_u, separable.
  rewrite (Rsum_ext m _ (fun j => exp ((g j - v j) / sigma) * exp (f i / sigma))).
  2:{ intros j _. rewrite <- exp_plus. f_equal. field. lra. }
  rewrite Rsum_scal, ln_mult, ln_exp;
    [field; lra|now apply Rsum_exp_pos|apply exp_pos].
Qed.

Lemma sep_log_v u j :
  log_v n (separable f g) q sigma u j
  = nu_ q sigma j + g j + sigma * ln (Rsum n (fun i => exp ((f i - u i) / sigma))).
Proof.
  destruct Hvalid as (Hn & Hm & Hp & Hq & Hs).
  unfold log_v, log_col, separable.
  rewrite (Rsum_ext n _ (fun i => exp ((f i - u i) / sigma) * exp (g j / sigma))).
  2:{ intros i _. rewrite <- exp_plus. f_equal. field. lra. }
  rewrite Rsum_scal, ln_mult, ln_exp;
    [field; lra|now apply Rsum_exp_pos|apply exp_pos].
Qed.

(** From u = mu + f + c the update of v gives nu + g - c ... *)
Lemma sep_v_of_u u c j :
  (forall i, (i < n)%nat -> u i = mu_ p sigma i + f i + c) ->
  log_v n (separable f g) q sigma u j = nu_ q sigma j + g j - c.
Proof.
  destruct Hvalid as (Hn & Hm & Hp & Hq & Hs). intros Hu.
  rewrite sep_log_v.
  rewrite (Rsum_ext n _ (fun i => p i * exp (- c / sigma))).
  2:{ intros i Hi. rewrite (Hu i Hi). unfold mu_.
      replace ((f i - (- sigma * ln (p i) + f i + c)) / sigma)
        with (ln (p i) + - c / sigma) by (field; lra).
      rewrite exp_plus, exp_ln by now apply Hp. reflexivity. }
  rewrite Rsum_scal, Hp1, Rmult_1_l, ln_exp. field. lra.
Qed.

(** ... and from v = nu + g - c the update of u gives mu + f + c back. *)
Lemma sep_u_of_v v c i :
  (forall j, (j < m)%nat -> v j = nu_ q sigma j + g j - c) ->
  log_u m (separable f g) p sigma v i = mu_ p sigma i + f i + c.
Proof.
  destruct Hvalid as (Hn & Hm & Hp & Hq & Hs). intros Hv.
  rewrite sep_log_u.
  rewrite (Rsum_ext m _ (fun j => q j * exp (c / sigma))).
  2:{ intros j Hj. rewrite (Hv j Hj). unfold nu_.
      replace ((g j - (- sigma * ln (q j) + g j - c)) / sigma)
        with (ln (q j) + c / sigma) by (field; lra).
      rewrite exp_plus, exp_ln by now apply Hq. reflexivity. }
  rewrite Rsum_scal, Hq1, Rmult_1_l, ln_exp. field. lra.
Qed.

Lemma sep_u_first i :
  log_u_iter n m (separable f g) p q sigma 0 i
  = mu_ p sigma i + f i + first_shift m g sigma.
Proof.
  unfold log_u_iter. cbn [log_v_iter]. rewrite sep_log_u. unfold first_shift.
  do 3 f_equal. apply Rsum_ext. intros j _. f_equal. f_equal. ring.
Qed.

(** The iteration has reached its fixed point after the first turn. *)
Lemma sep_iterates k :
  (forall i, log_u_iter n m (separable f g) p q sigma k i
             = mu_ p sigma i + f i + first_shift m g sigma)
  /\ (forall j, log_v_iter n m (separable f g) p q sigma (S k) j
                = nu_ q sigma j + g j - first_shift m g sigma).
Proof.
  induction k as [|k [IHu IHv]].
  - split; [apply sep_u_first|].
    intros j. cbn [log_v_iter]. apply sep_v_of_u. intros i _. apply sep_u_first.
  - assert (Hu : forall i, log_u_iter n m (separable f g) p q sigma (S k) i
                           = mu_ p sigma i + f i + (first_shift m g sigma)).
    { intros i. unfold log_u_iter. apply sep_u_of_v. intros j _. apply IHv. }
    split; [exact Hu|].
    intros j. cbn [log_v_iter]. apply sep_v_of_u. intros i _. apply Hu.
Qed.

(** The coupling after any number of turns is the product of the marginals. *)
Lemma sep_gibbs k i j :
  (i < n)%nat -> (j < m)%nat ->
  gibbs (separable f g) sigma (log_u_iter n m (separable f g) p q sigma k)
    (log_v_iter n m (separable f g) p q sigma (S k)) i j
  = p i * q j.
Proof.
  destruct Hvalid as (Hn & Hm & Hp & Hq & Hs). intros Hi Hj.
  destruct (sep_iterates k) as [Hu Hv].
  unfold gibbs. rewrite Hu, Hv. unfold separable, mu_, nu_.
  replace ((f i + g j - (- sigma * ln (p i) + f i + (first_shift m g sigma))
            - (- sigma * ln (q j) + g j - (first_shift m g sigma))) / sigma)
    with (ln (p i) + ln (q j)) by (field; lra).
  rewrite exp_plus, !exp_ln by (first [now apply Hp|now apply Hq]). reflexivity.
Qed.

End Separable.

(** X6.  When the surplus has no interaction term, Phi_ij = f_i + g_j,
    and the marginals sum to 1, the iteration is at its fixed point from
    the first turn on: whatever the number of turns cell 7 takes, at any
    tolerance below 2^53 in size and any cap of one turn or more, it
    returns the product coupling pi_ij = p_i q_j, with the potentials
    u_i = - sigma log p_i + f_i + c and v_j = - sigma log q_j + g_j - c,
    where c = sigma log sum_j exp(g_j / sigma). *)
Theorem separable_surplus_product n m f g p q sigma tol maxite :
  valid n m p q sigma -> Rsum n p = 1 -> Rsum m q = 1 ->
  entering_tol tol -> (0 < maxite)%nat ->
  let c := first_shift m g sigma in
  exists r,
    lse_IPFP (emat n m (separable f g)) (evec n p) (evec m q) n m (Fin tol)
      maxite (Fin sigma) = Done r
    /\ l_pi r = emat n m (fun i j => p i * q j)
    /\ l_u r = evec n (fun i => - sigma * ln (p i) + f i + c)
    /\ l_v r = evec m (fun j => - sigma * ln (q j) + g j - c).
Proof.
  intros H Hp1 Hq1 _ Hmax c.
  pose proof H as (Hn & Hm & Hp & Hq & Hs).
  assert (Hne : sigma <> 0) by lra.
  set (phi := separable f g).
  pose proof (stab_turns_pos n m phi p q sigma tol maxite Hmax) as HN.
  eexists. split; [now apply lse_IPFP_run|].
  cbn [l_pi l_u l_v].
  set (N := stab_turns n m phi p q sigma tol maxite) in *.
  destruct (sep_iterates n m f g p q sigma H Hp1 Hq1 (N - 1)) as [Hu Hv].
  replace (S (N - 1)) with N in Hv by lia.
  split; [|split].
  - apply emat_ext. intros i j Hi Hj.
    unfold gibbs. rewrite stab_log_u_iter, stab_log_iter by assumption.
    replace N with (S (N - 1)) at 2 by lia.
    exact (sep_gibbs n m f g p q sigma H Hp1 Hq1 (N - 1) i j Hi Hj).
  - apply evec_ext. intros i _. rewrite stab_log_u_iter by assumption.
    exact (Hu i).
  - apply evec_ext. intros j _. rewrite stab_log_iter by assumption.
    exact (Hv j).
Qed.

(** X6 on the smallest problem. *)
Lemma separable_surplus_product_witness :
  valid 1 1 ones ones 1 /\ Rsum 1 ones = 1 /\ entering_tol 0 /\ (0 < 3)%nat /\
  exists r,
    lse_IPFP (emat 1 1 (separable ones ones)) (evec 1 ones) (evec 1 ones)
      1 1 (Fin 0) 3 (Fin 1) = Done r
    /\ l_pi r = emat 1 1 (fun i j => ones i * ones j).
Proof.
  assert (Hv : valid 1 1 ones ones 1) by (apply valid_unit; lra).
  assert (H1 : Rsum 1 ones = 1) by (rewrite Rsum_one; reflexivity).
  assert (Ht : entering_tol 0)
    by (apply entering_tol_small; rewrite Rabs_R0; lra).
  split; [exact Hv|]. split; [exact H1|]. split; [exact Ht|]. split; [lia|].
  destruct (separable_surplus_product 1 1 ones ones ones ones 1 0 3
              Hv H1 H1 Ht ltac:(lia)) as (r & Hr & Hpi & _).
  exists r. split; [exact Hr|exact Hpi].
Defined.

(** ** The value returned, and the rows before b is recomputed *)

(** On exp((Phi - u - v) / sigma) the regularized objective is the sum of
    pi_ij (u_i + v_j). *)
Lemma Robjective_gibbs n m phi sigma u v :
  sigma <> 0 ->
  Robjective n m phi (gibbs phi sigma u v) sigma
  = Rsum n (fun i => Rsum m (fun j => gibbs phi sigma u v i j * (u i + v j))).
Proof.
  intros Hs. unfold Robjective.
  rewrite <- Rsum_scal_l, <- Rsum_minus. apply Rsum_ext. intros i _.
  rewrite <- Rsum_scal_l, <- Rsum_minus. apply Rsum_ext. intros j _.
  unfold gibbs. rewrite ln_exp. field. assumption.
Qed.

Lemma dual_value n m phi q sigma u v :
  sigma <> 0 ->
  (forall j, (j < m)%nat -> Rsum n (fun i => gibbs phi sigma u v i j) = q j) ->
  Robjective n m phi (gibbs phi sigma u v) sigma
  = Rsum n (fun i => u i * Rsum m (gibbs phi sigma u v i))
    + Rsum m (fun j => v j * q j).
Proof.
  intros Hs Hcol. rewrite Robjective_gibbs by assumption.
  rewrite (Rsum_ext n _ (fun i =>
             u i * Rsum m (gibbs phi sigma u v i)
             + Rsum m (fun j => gibbs phi sigma u v i j * v j))).
  2:{ intros i _. rewrite <- Rsum_scal_l, <- Rsum_plus.
      apply Rsum_ext. intros j _. ring. }
  rewrite Rsum_plus. f_equal.
  rewrite Rsum_swap. apply Rsum_ext. intros j Hj.
  rewrite Rsum_scal, (Hcol j Hj). ring.
Qed.

(** What cell 7 returns on a valid problem: finite potentials and the
    coupling exp((Phi - u - v) / sigma), whose columns sum to q. *)
Lemma lse_returns n m phi p q sigma tol maxite :
  valid n m p q sigma -> (0 < maxite)%nat ->
  exists u v ite,
    lse_IPFP (emat n m phi) (evec n p) (evec m q) n m (Fin tol) maxite (Fin sigma)
    = Done {| l_u := evec n u; l_v := evec m v;
              l_pi := emat n m (gibbs phi sigma u v);
              l_val := Fin (Robjective n m phi (gibbs phi sigma u v) sigma);
              l_ite := ite; l_status := status_of ite maxite |}
    /\ (forall j, (j < m)%nat ->
          Rsum n (fun i => gibbs phi sigma u v i j) = q j).
Proof.
  intros H Hmax. pose proof H as (Hn & Hm & Hp & Hq & Hs).
  pose proof (stab_turns_pos n m phi p q sigma tol maxite Hmax) as HN.
  set (N := stab_turns n m phi p q sigma tol maxite) in *.
  set (u := stab_u_iter n m phi p q sigma (N - 1)).
  set (v := stab_v_iter n m phi p q sigma N).
  exists u, v, N. split; [now apply lse_IPFP_run|].
  intros j Hj.
  assert (Ev : forall j, v j = stab_v n phi q sigma u j).
  { intros j'. unfold v, u. replace N with (S (N - 1)) at 1 by lia.
    reflexivity. }
  rewrite (Rsum_ext n _ (fun i => gibbs phi sigma u (stab_v n phi q sigma u) i j))
    by (intros i _; apply gibbs_ext_v, Ev).
  apply gibbs_columns_stab; try assumption. now apply Hq.
Qed.

(** X7.  The value cell 7 returns, sum(pi * Phi) - sigma *
    sum(pi * log(pi)), is the value of the potentials it returns:
    sum_i u_i r_i + sum_j v_j q_j, where r_i is the i-th row sum of the
    returned coupling.  This is so as long as no entry of the returned
    coupling is below exp(-700): a smaller entry can come out of [np.exp]
    as 0, and 0 * log(0) then makes the value NaN. *)
Theorem objective_is_dual_value n m phi p q sigma tol maxite :
  valid n m p q sigma -> entering_tol tol -> (0 < maxite)%nat ->
  exists r u v pi,
    lse_IPFP (emat n m phi) (evec n p) (evec m q) n m (Fin tol) maxite (Fin sigma)
    = Done r
    /\ l_u r = evec n u /\ l_v r = evec m v /\ l_pi r = emat n m pi
    /\ (forall j, (j < m)%nat -> Rsum n (fun i => pi i j) = q j)
    /\ ((forall i j, (i < n)%nat -> (j < m)%nat -> exp (-700) <= pi i j) ->
        l_val r = Fin (Rsum n (fun i => u i * Rsum m (pi i))
                       + Rsum m (fun j => v j * q j))).
Proof.
  intros H _ Hmax. pose proof H as (Hn & Hm & Hp & Hq & Hs).
  destruct (lse_returns n m phi p q sigma tol maxite H Hmax)
    as (u & v & ite & Hr & Hcol).
  eexists. exists u, v, (gibbs phi sigma u v).
  split; [exact Hr|]. cbn [l_u l_v l_pi l_val].
  split; [reflexivity|]. split; [reflexivity|]. split; [reflexivity|].
  split; [exact Hcol|]. intros _. f_equal.
  apply dual_value; [lra|exact Hcol].
Qed.

(** X7 on the smallest problem, where the coupling is (1). *)
Lemma objective_is_dual_value_witness :
  valid 1 1 ones ones 1 /\ entering_tol 0 /\ (0 < 3)%nat /\
  exists r u v pi,
    lse_IPFP (emat 1 1 zero_phi) (evec 1 ones) (evec 1 ones) 1 1 (Fin 0) 3 (Fin 1)
    = Done r
    /\ l_u r = evec 1 u /\ l_v r = evec 1 v /\ l_pi r = emat 1 1 pi
    /\ (forall i j, (i < 1)%nat -> (j < 1)%nat -> exp (-700) <= pi i j)
    /\ l_val r = Fin (Rsum 1 (fun i => u i * Rsum 1 (pi i))
                      + Rsum 1 (fun j => v j * ones j)).
Proof.
  assert (Hv : valid 1 1 ones ones 1) by (apply valid_unit; lra).
  assert (Ht : entering_tol 0)
    by (apply entering_tol_small; rewrite Rabs_R0; lra).
  split; [exact Hv|]. split; [exact Ht|]. split; [lia|].
  destruct (objective_is_dual_value 1 1 zero_phi ones ones 1 0 3 Hv Ht
              ltac:(lia)) as (r & u & v & pi & Hr & Hu & Hw & Hpi & Hcol & Hval).
  assert (Hbig : forall i j, (i < 1)%nat -> (j < 1)%nat -> exp (-700) <= pi i j).
  { intros i j Hi Hj. assert (i = 0%nat) as -> by lia.
    assert (j = 0%nat) as -> by lia.
    pose proof (Hcol 0%nat ltac:(lia)) as Hc. rewrite Rsum_one in Hc.
    rewrite Hc. unfold ones. rewrite <- exp_0. apply Rlt_le.
    apply exp_increasing. lra. }
  exists r, u, v, pi. repeat (split; [assumption|]). exact (Hval Hbig).
Defined.

(** X9.  In a turn of the loop of cell 5, once a is recomputed and
    before b is, the rows of a_i K_ij b_j sum to p exactly; the error the
    turn measures is the largest relative gap between the column sums of
    that same matrix and q. *)
Theorem matrix_rows_exact_before_b n m phi p q sigma b A0 e0 t :
  valid n m p q sigma -> positive_on m b ->
  exists a b' err,
    matrix_body (kernel (emat n m phi) (Fin sigma)) (evec n p) (evec m q)
      {| mA := A0; mB := two_d (evec m b); merror := e0; mite := t |}
    = Done {| mA := Some (two_d (evec n a)); mB := b'; merror := Fin err;
              mite := S t |}
    /\ (forall i, (i < n)%nat ->
          Rsum m (fun j => a i * exp (phi i j / sigma) * b j) = p i)
    /\ err = Rmaxn m (fun j =>
               Rabs (Rsum n (fun i => a i * exp (phi i j / sigma) * b j) / q j - 1)).
Proof.
  intros H Hb. pose proof H as (Hn & Hm & Hp & Hq & Hs).
  exists (scale_rows m phi p sigma b), 
         (two_d (evec m (scale_cols n phi q sigma (scale_rows m phi p sigma b)))),
         (marginal_error n m phi q sigma (scale_rows m phi p sigma b) b).
  split; [|split].
  - rewrite kernel_fin by lra. now apply matrix_body_fin.
  - intros i Hi. unfold scale_rows.
    pose proof (row_mass_pos m phi sigma b i Hm Hb) as Hpos.
    rewrite (Rsum_ext m _ (fun j => Kernel phi sigma i j * b j
               * (p i / Rsum m (fun j => Kernel phi sigma i j * b j)))).
    2:{ intros j _. unfold Kernel. ring. }
    rewrite Rsum_scal. field. lra.
  - unfold marginal_error. apply Rmaxn_ext. intros j Hj. f_equal. f_equal.
    unfold col_mass. rewrite <- Rsum_scal. unfold Rdiv.
    rewrite <- Rsum_scal. apply Rsum_ext. intros i _. unfold Kernel.
    unfold Rdiv. ring.
Qed.

(** X9 on the smallest problem. *)
Lemma matrix_rows_exact_before_b_witness :
  valid 1 1 ones ones 1 /\ positive_on 1 ones /\
  exists a b' err,
    matrix_body (kernel (emat 1 1 zero_phi) (Fin 1)) (evec 1 ones) (evec 1 ones)
      {| mA := None; mB := two_d (evec 1 ones); merror := Fin 1; mite := 0 |}
    = Done {| mA := Some (two_d (evec 1 a)); mB := b'; merror := Fin err;
              mite := 1 |}
    /\ (forall i, (i < 1)%nat ->
          Rsum 1 (fun j => a i * exp (zero_phi i j / 1) * ones j) = ones i)
    /\ err = Rmaxn 1 (fun j =>
               Rabs (Rsum 1 (fun i => a i * exp (zero_phi i j / 1) * ones j)
                     / ones j - 1)).
Proof.
  assert (Hv : valid 1 1 ones ones 1) by (apply valid_unit; lra).
  split; [exact Hv|]. split; [apply ones_positive|].
  exact (matrix_rows_exact_before_b 1 1 zero_phi ones ones 1 ones None (Fin 1) 0
           Hv (ones_positive 1)).
Defined.

(** ** The cap on the number of turns *)

(** X10.  Whatever the values in Phi, p, q and sigma, when the shapes fit
    and the tolerance is below 2^53 in size, cell 7 takes at least one
    turn and at most [maxite] turns, and it reports that the maximum
    number of iterations was reached exactly when it took [maxite] turns,
    whether or not the error has come below the tolerance on that last
    turn. *)
Theorem lse_iteration_cap n m F p q sigma tol maxite :
  (0 < n)%nat -> (0 < m)%nat -> (0 < maxite)%nat -> entering_tol tol ->
  exists r,
    lse_IPFP (tab2 n m F) (tabv n p) (tabv m q) n m (Fin tol) maxite sigma
    = Done r
    /\ (1 <= l_ite r <= maxite)%nat
    /\ (l_status r = MaxIterationsExceeded <-> l_ite r = maxite).
Proof.
  intros Hn Hm Hmax _. unfold lse_IPFP. cbv zeta.
  rewrite !neg_sigma_log_tabv.
  set (mu := fun i => xmul (xneg sigma) (xlog (p i))).
  set (nu := fun i => xmul (xneg sigma) (xlog (q i))).
  unfold lse_loop.
  destruct (while_total (lse_guard (Fin tol) maxite)
              (lse_body (tab2 n m F) (tabv n mu) (tabv m nu) n sigma)
              (fun s => lse_shaped n m s /\ (site s <= maxite)%nat
                        /\ (site s = 0%nat -> s = lse_init m (Fin tol)))
              site maxite)
    with (fuel := S maxite) (s := lse_init m (Fin tol))
    as (r & Hr & (Hsh & Hle & Hz) & Hg & _).
  - intros s (Hs & _ & _) Hgs.
    destruct (lse_body_shaped n m F mu nu sigma s Hn Hm Hs) as (s' & Hb & Hs' & Ht).
    exists s'. split; [exact Hb|]. split; [|exact Ht].
    split; [exact Hs'|]. apply lse_guard_cap in Hgs. split; [lia|].
    intros E. lia.
  - apply lse_guard_cap.
  - split; [apply lse_init_shaped|]. cbn [lse_init site]. split; [lia|].
    intros _. reflexivity.
  - cbn [lse_init site]. lia.
  - rewrite Hr. cbn [bind].
    assert (Hpos : (0 < site r)%nat).
    { destruct (Nat.eq_dec (site r) 0) as [E|E]; [|lia].
      rewrite (Hz E) in Hg. unfold lse_guard, lse_init in Hg.
      cbn [serror site] in Hg. rewrite guard_starts in Hg by assumption.
      discriminate. }
    destruct Hsh as ((v & Hv) & _ & Hu).
    destruct (Hu Hpos) as (U & HU).
    rewrite HU, Hv. cbn [bind].
    rewrite coupling_tab by assumption. cbn [bind].
    destruct (objective_tab n n m F
                (fun i j => xexp (xdiv (xsub (xsub (F i j) (U i)) (v j)) sigma))
                sigma Hn Hn (bdim_refl n)) as (val & Hval).
    rewrite Hval. cbn [bind]. eexists. split; [reflexivity|].
    cbn [l_ite l_status]. split; [lia|].
    unfold status_of. destruct (Nat.leb_spec maxite (site r)); split;
      intros; try reflexivity; try discriminate; lia.
Qed.

(** X10 on arrays of NaN. *)
Lemma lse_iteration_cap_witness :
  exists r,
    lse_IPFP (tab2 2 3 (fun _ _ => NaN)) (tabv 2 (fun _ => NaN))
      (tabv 3 (fun _ => NaN)) 2 3 (Fin 0) 7 NaN = Done r
    /\ (1 <= l_ite r <= 7)%nat
    /\ (l_status r = MaxIterationsExceeded <-> l_ite r = 7%nat).
Proof.
  exact (lse_iteration_cap 2 3 (fun _ _ => NaN) (fun _ => NaN) (fun _ => NaN)
           NaN 0 7 ltac:(lia) ltac:(lia) ltac:(lia)
           (entering_tol_small 0 ltac:(rewrite Rabs_R0; lra))).
Defined.

(** ** A zero entry in q, in cell 6 *)

(** The body of the loop of cell 6, index by index. *)
Lemma log_body_tab n m F q mu nu sigma v u0 e0 t :
  (0 < n)%nat -> (0 < m)%nat ->
  let U := x_log_u m F mu v sigma in
  log_body (tab2 n m F) (tabv m q) (tabv n mu) (tabv m nu) n sigma
    {| lu := u0; lv := tabv m v; lerror := e0; lite := t |}
  = Done {| lu := Some (tabv n U);
            lv := tabv m (x_log_v n F nu U sigma);
            lerror := x_log_error n m F q U v sigma;
            lite := S t |}.
Proof.
  intros Hn Hm U. unfold log_body. cbn [lv lite]. numpy. reflexivity.
Qed.

Lemma exp_of_minus_inf a v sigma :
  0 < sigma -> pinf_or_nan v ->
  let x := xexp (xdiv (xsub a v) (Fin sigma)) in
  x = Fin 0 \/ x = NaN.
Proof.
  intros Hs Hv. cbv zeta. unfold xsub.
  destruct Hv as [->| ->]; [|right; destruct a; reflexivity].
  destruct a; cbn [xneg xadd xdiv]; try (now right);
    destruct (Rlt_dec sigma 0); try lra; now left.
Qed.

Lemma x_log_v_pinf n F nu u sigma j :
  nu j = PInf -> pinf_or_nan (x_log_v n F nu u sigma j).
Proof.
  intros H. unfold x_log_v. rewrite H. apply xadd_pinf. now left.
Qed.

(** In the turn after v_j has become infinite, the error is not a
    number. *)
Lemma x_log_error_nan n m F q u v sigma j :
  (j < m)%nat -> 0 < sigma -> q j = Fin 0 -> pinf_or_nan (v j) ->
  x_log_error n m F q u v (Fin sigma) = NaN.
Proof.
  intros Hj Hs Hq Hv. unfold x_log_error. apply fold_max_nan.
  set (g := fun j => xabs (xsub (xdiv (xmul (x_log_col n F u (Fin sigma) j)
                                        (xexp (xdiv (xneg (v j)) (Fin sigma))))
                                  (q j)) (Fin 1))).
  replace NaN with (g j).
  - unfold tabv. apply (in_map g). apply in_seq. lia.
  - unfold g. rewrite Hq.
    assert (E : xexp (xdiv (xneg (v j)) (Fin sigma)) = Fin 0
                \/ xexp (xdiv (xneg (v j)) (Fin sigma)) = NaN).
    { destruct Hv as [->| ->]; cbn [xneg xdiv xexp]; [|now right].
      destruct (Rlt_dec sigma 0); [lra|]. now left. }
    destruct E as [->| ->].
    + destruct (x_log_col n F u (Fin sigma) j) as [x| | |]; cbn [xmul].
      * unfold xdiv. destruct (Req_dec_T 0 0) as [_|F0]; [|contradiction].
        destruct (Rlt_dec 0 (x * 0)); [lra|].
        destruct (Rlt_dec (x * 0) 0); [lra|]. reflexivity.
      * unfold scale_inf. destruct (Rlt_dec 0 0); [lra|]. reflexivity.
      * unfold scale_inf. destruct (Rlt_dec 0 0); [lra|]. reflexivity.
      * reflexivity.
    + destruct (x_log_col n F u (Fin sigma) j); reflexivity.
Qed.

(** X25.  With a zero entry in q, cell 6 stops after two turns at most
    and reports convergence, whatever Phi and p, at any tolerance below
    2^53 in size: v is infinite at that entry after the first turn, the
    error of the second turn is 0 / 0, and [error > tol] is false of a
    NaN.  The objective returned is NaN. *)
Theorem log_zero_in_q n m F p q sigma tol maxite j :
  (0 < n)%nat -> (0 < m)%nat -> (j < m)%nat ->
  q j = Fin 0 -> 0 < sigma -> entering_tol tol -> (3 <= maxite)%nat ->
  exists r,
    log_IPFP (tab2 n m F) (tabv n p) (tabv m q) n m (Fin tol) maxite (Fin sigma)
    = Done r
    /\ (1 <= l_ite r <= 2)%nat /\ l_status r = Converged /\ l_val r = NaN.
Proof.
  intros Hn Hm Hj Hq Hs _ Hmax.
  set (mu := fun i => xmul (xneg (Fin sigma)) (xlog (p i))).
  set (nu := fun j => xmul (xneg (Fin sigma)) (xlog (q j))).
  assert (Hnu : nu j = PInf) by (unfold nu; rewrite Hq; now apply mu_zero).
  set (U1 := x_log_u m F mu (fun _ => Fin 0) (Fin sigma)).
  set (V1 := x_log_v n F nu U1 (Fin sigma)).
  set (U2 := x_log_u m F mu V1 (Fin sigma)).
  set (V2 := x_log_v n F nu U2 (Fin sigma)).
  set (s1 := {| lu := Some (tabv n U1); lv := tabv m V1;
                lerror := x_log_error n m F q U1 (fun _ => Fin 0) (Fin sigma);
                lite := 1 |}).
  set (s2 := {| lu := Some (tabv n U2); lv := tabv m V2;
                lerror := NaN; lite := 2 |}).
  set (body := log_body (tab2 n m F) (tabv m q) (tabv n mu) (tabv m nu) n
                 (Fin sigma)).
  assert (HV1 : pinf_or_nan (V1 j)) by now apply x_log_v_pinf.
  assert (HV2 : pinf_or_nan (V2 j)) by now apply x_log_v_pinf.
  assert (B1 : body (log_init m (Fin tol)) = Done s1).
  { unfold body, log_init. rewrite np_repeat_tabv.
    now rewrite log_body_tab by assumption. }
  assert (B2 : body s1 = Done s2).
  { unfold body, s1. rewrite log_body_tab by assumption. unfold s2.
    do 2 f_equal. now apply (x_log_error_nan n m F q U2 V1 sigma j). }
  assert (G0 : log_guard (Fin tol) maxite (log_init m (Fin tol)) = true).
  { unfold log_guard, log_init. cbn [lerror lite]. apply guard_starts. lia. }
  assert (L : log_loop (S maxite) (tab2 n m F) (tabv m q) (tabv n mu) (tabv m nu)
                n (Fin sigma) (Fin tol) maxite (log_init m (Fin tol))
              = Done (if log_guard (Fin tol) maxite s1 then s2 else s1)).
  { unfold log_loop. fold body.
    replace (S maxite) with (3 + (maxite - 2))%nat by lia.
    now apply while_two. }
  unfold log_IPFP. cbv zeta. rewrite !neg_sigma_log_tabv. fold mu nu.
  rewrite L. cbn [bind].
  assert (Hfin : forall U V k,
            pinf_or_nan (V j) -> (1 <= k <= 2)%nat ->
            exists r,
              (u <- (match lu {| lu := Some (tabv n U); lv := tabv m V;
                                 lerror := NaN; lite := k |} with
                     | Some u => Done u
                     | None => Raise NameError
                     end) ;;
               pi <- coupling (tab2 n m F) u (tabv m V) n (Fin sigma) ;;
               val <- objective (tab2 n m F) pi (Fin sigma) ;;
               Done {| l_u := u; l_v := tabv m V; l_pi := pi; l_val := val;
                       l_ite := k; l_status := status_of k maxite |}) = Done r
              /\ (1 <= l_ite r <= 2)%nat /\ l_status r = Converged
              /\ l_val r = NaN).
  { intros U V k HV Hk. cbn [lu bind].
    rewrite coupling_tab by assumption. cbn [bind].
    rewrite (objective_nan n m F _ (Fin sigma) 0 j) by
      (try assumption; now apply exp_of_minus_inf).
    cbn [bind]. eexists. split; [reflexivity|]. cbn [l_ite l_status l_val].
    split; [exact Hk|]. split; [|reflexivity].
    unfold status_of. destruct (Nat.leb_spec maxite k); [lia|reflexivity]. }
  destruct (log_guard (Fin tol) maxite s1).
  - unfold s2. cbn [lu lv lite]. 
    destruct (Hfin U2 V2 2%nat HV2 ltac:(lia)) as (r & Hr & Hrest).
    cbn [lu] in Hr. exists r. split; [exact Hr|exact Hrest].
  - unfold s1. cbn [lu lv lite].
    destruct (Hfin U1 V1 1%nat HV1 ltac:(lia)) as (r & Hr & Hrest).
    cbn [lu] in Hr. exists r. split; [exact Hr|exact Hrest].
Qed.

(** X25 on one row and two columns, q = (0, 1). *)
Lemma log_zero_in_q_witness :
  exists r,
    log_IPFP (tab2 1 2 (fun _ _ => Fin 0)) (tabv 1 (fun _ => Fin 1))
      (tabv 2 (fun j => match j with O => Fin 0 | S _ => Fin 1 end)) 1 2
      (Fin (1 / 1000000000)) 100 (Fin (1 / 100)) = Done r
    /\ (1 <= l_ite r <= 2)%nat /\ l_status r = Converged /\ l_val r = NaN.
Proof.
  assert (Ht : entering_tol (1 / 1000000000))
    by (apply entering_tol_small; rewrite Rabs_pos_eq; lra).
  exact (log_zero_in_q 1 2 (fun _ _ => Fin 0) (fun _ => Fin 1)
           (fun j => match j with O => Fin 0 | S _ => Fin 1 end)
           (1 / 100) (1 / 1000000000) 100 0
           ltac:(lia) ltac:(lia) ltac:(lia) eq_refl ltac:(lra) Ht ltac:(lia)).
Defined.

(** ** The value and the surplus the cells print *)

Lemma ln_le_minus_one y : 0 < y -> ln y <= y - 1.
Proof.
  intros Hy. pose proof (exp_ineq1_le (ln y)) as H.
  rewrite exp_ln in H by assumption. lra.
Qed.

(** The entropy of a table of positive numbers of total mass 1, none
    above 1, lies between 0 and the log of the number of its cells. *)
Lemma entropy_bounds r c (P : nat -> nat -> R) :
  (0 < r)%nat -> (0 < c)%nat ->
  (forall i j, (i < r)%nat -> (j < c)%nat -> 0 < P i j <= 1) ->
  Rsum r (fun i => Rsum c (fun j => P i j)) = 1 ->
  0 <= - Rsum r (fun i => Rsum c (fun j => P i j * ln (P i j)))
    <= ln (INR (r * c)).
Proof.
  intros Hr Hc HP Hone.
  assert (Hrc : 0 < INR (r * c)) by (apply lt_0_INR; nia).
  split.
  - assert (Rsum r (fun i => Rsum c (fun j => P i j * ln (P i j))) <= 0); [|lra].
    rewrite <- (Rsum_zero r). apply Rsum_le. intros i Hi.
    rewrite <- (Rsum_zero c). apply Rsum_le. intros j Hj.
    destruct (HP i j Hi Hj) as [H0 H1].
    assert (ln (P i j) <= 0).
    { rewrite <- ln_1. destruct (Req_dec (P i j) 1) as [->|Hne]; [lra|].
      apply Rlt_le, ln_increasing; lra. }
    nra.
  - assert (H : Rsum r (fun i => Rsum c (fun j =>
                  P i j * (- ln (INR (r * c)) - ln (P i j))))
                <= Rsum r (fun i => Rsum c (fun j => / INR (r * c) - P i j))).
    { apply Rsum_le. intros i Hi. apply Rsum_le. intros j Hj.
      destruct (HP i j Hi Hj) as [H0 _].
      assert (E : - ln (INR (r * c)) - ln (P i j) = ln (/ (INR (r * c) * P i j))).
      { rewrite ln_Rinv by nra. rewrite ln_mult by assumption. ring. }
      rewrite E.
      assert (Hpos : 0 < / (INR (r * c) * P i j))
        by (apply Rinv_0_lt_compat; nra).
      pose proof (ln_le_minus_one _ Hpos) as Hln.
      assert (P i j * ln (/ (INR (r * c) * P i j))
              <= P i j * (/ (INR (r * c) * P i j) - 1))
        by (apply Rmult_le_compat_l; lra).
      replace (/ INR (r * c) - P i j)
        with (P i j * (/ (INR (r * c) * P i j) - 1)) by (field; lra).
      assumption. }
    rewrite (Rsum_ext r (fun i => Rsum c (fun j => / INR (r * c) - P i j))
               (fun i => INR c * / INR (r * c) - Rsum c (fun j => P i j))) in H.
    2:{ intros i _. now rewrite Rsum_minus, Rsum_const. }
    rewrite Rsum_minus, Rsum_const, Hone in H.
    rewrite (Rsum_ext r (fun i => Rsum c (fun j =>
               P i j * (- ln (INR (r * c)) - ln (P i j))))
               (fun i => - ln (INR (r * c)) * Rsum c (fun j => P i j)
                         - Rsum c (fun j => P i j * ln (P i j)))) in H.
    2:{ intros i _. rewrite <- Rsum_scal_l, <- Rsum_minus.
        apply Rsum_ext. intros; ring. }
    rewrite Rsum_minus, Rsum_scal_l, Hone in H.
    assert (Ecount : INR r * (INR c * / INR (r * c)) = 1).
    { rewrite mult_INR. field. split; apply not_0_INR; lia. }
    rewrite Ecount in H. lra.
Qed.

(** On a coupling exp((Phi - u - v) / sigma) whose columns sum to a q
    of total mass 1. *)
Lemma gibbs_gap n m phi q sigma u v :
  (0 < n)%nat -> (0 < m)%nat -> 0 < sigma ->
  (forall j, (j < m)%nat -> 0 < q j) -> Rsum m q = 1 ->
  (forall j, (j < m)%nat -> Rsum n (fun i => gibbs phi sigma u v i j) = q j) ->
  0 <= Robjective n m phi (gibbs phi sigma u v) sigma
       - Rsum n (fun i => Rsum m (fun j => gibbs phi sigma u v i j * phi i j))
    <= sigma * ln (INR (n * m)).
Proof.
  intros Hn Hm Hs Hq Hone Hcol.
  assert (Hle : forall i j, (i < n)%nat -> (j < m)%nat ->
            0 < gibbs phi sigma u v i j <= 1).
  { intros i j Hi Hj. split; [apply gibbs_pos|].
    eapply Rle_trans.
    - apply (Rsum_single_le n (fun i => gibbs phi sigma u v i j) i Hi).
      intros k _. apply Rlt_le, gibbs_pos.
    - rewrite (Hcol j Hj), <- Hone.
      apply (Rsum_single_le m q j Hj). intros k Hk. apply Rlt_le. now apply Hq. }
  assert (Hmass : Rsum n (fun i => Rsum m (fun j => gibbs phi sigma u v i j)) = 1).
  { rewrite Rsum_swap, <- Hone. apply Rsum_ext. intros j Hj. now apply Hcol. }
  pose proof (entropy_bounds n m (gibbs phi sigma u v) Hn Hm Hle Hmass) as [H0 H1].
  unfold Robjective.
  set (E := Rsum n (fun i => Rsum m (fun j =>
              gibbs phi sigma u v i j * ln (gibbs phi sigma u v i j)))) in *.
  split; nra.
Qed.

(** X26.  The two numbers cell 7 prints, the value of the problem and
    sum(pi * Phi), on a valid problem whose q sums to 1: the value is the
    larger, by the entropy term, and by no more than
    sigma * log(nbX * nbY).  This is so as long as no entry of the
    returned coupling is below exp(-700): a smaller entry can come out of
    [np.exp] as 0, and the value is then printed as nan. *)
Theorem value_above_surplus n m phi p q sigma tol maxite :
  valid n m p q sigma -> Rsum m q = 1 -> entering_tol tol -> (0 < maxite)%nat ->
  let Phi := emat n m phi in
  exists r pi surplus,
    lse_IPFP Phi (evec n p) (evec m q) n m (Fin tol) maxite (Fin sigma) = Done r
    /\ l_pi r = emat n m pi
    /\ (forall j, (j < m)%nat -> Rsum n (fun i => pi i j) = q j)
    /\ (t <- bcast2 xmul (l_pi r) Phi ;; Done (np_sum t)) = Done (Fin surplus)
    /\ ((forall i j, (i < n)%nat -> (j < m)%nat -> exp (-700) <= pi i j) ->
        exists val,
          l_val r = Fin val
          /\ 0 <= val - surplus <= sigma * ln (INR (n * m))).
Proof.
  intros H Hone _ Hmax Phi. pose proof H as (Hn & Hm & Hp & Hq & Hs).
  destruct (lse_returns n m phi p q sigma tol maxite H Hmax)
    as (u & v & ite & Hr & Hcol).
  eexists. exists (gibbs phi sigma u v). eexists.
  split; [exact Hr|]. cbn [l_pi l_val].
  split; [reflexivity|]. split; [exact Hcol|]. split.
  - unfold Phi, emat. rewrite bcast2_same by assumption.
    cbn [bind xmul]. now rewrite np_sum_fin.
  - intros _. eexists. split; [reflexivity|].
    now apply (gibbs_gap n m phi q).
Qed.

(** X26 on the smallest problem, where the coupling is (1). *)
Lemma value_above_surplus_witness :
  valid 1 1 ones ones 1 /\ Rsum 1 ones = 1 /\ entering_tol 0 /\ (0 < 3)%nat /\
  exists r pi surplus val,
    lse_IPFP (emat 1 1 zero_phi) (evec 1 ones) (evec 1 ones) 1 1 (Fin 0) 3 (Fin 1)
    = Done r
    /\ l_pi r = emat 1 1 pi
    /\ (forall i j, (i < 1)%nat -> (j < 1)%nat -> exp (-700) <= pi i j)
    /\ l_val r = Fin val
    /\ 0 <= val - surplus <= 1 * ln (INR (1 * 1)).
Proof.
  assert (Hv : valid 1 1 ones ones 1) by (apply valid_unit; lra).
  assert (H1 : Rsum 1 ones = 1) by (rewrite Rsum_one; reflexivity).
  assert (Ht : entering_tol 0)
    by (apply entering_tol_small; rewrite Rabs_R0; lra).
  split; [exact Hv|]. split; [exact H1|]. split; [exact Ht|]. split; [lia|].
  destruct (value_above_surplus 1 1 zero_phi ones ones 1 0 3 Hv H1 Ht
              ltac:(lia)) as (r & pi & surplus & Hr & Hpi & Hcol & _ & Hval).
  assert (Hbig : forall i j, (i < 1)%nat -> (j < 1)%nat -> exp (-700) <= pi i j).
  { intros i j Hi Hj. assert (i = 0%nat) as -> by lia.
    assert (j = 0%nat) as -> by lia.
    pose proof (Hcol 0%nat ltac:(lia)) as Hc. rewrite Rsum_one in Hc.
    rewrite Hc. unfold ones. rewrite <- exp_0. apply Rlt_le.
    apply exp_increasing. lra. }
  destruct (Hval Hbig) as (val & Hl & Hgap).
  exists r, pi, surplus, val. repeat (split; [assumption|]). exact Hgap.
Defined.

(** * The linear programs *)

(** ** Sums over a product range *)

Lemma Rsum_prod a b h :
  Rsum (a * b) h = Rsum a (fun i => Rsum b (fun j => h (i * b + j)%nat)).
Proof.
  induction a as [|a IH] in h |- *; [reflexivity|].
  change (S a * b)%nat with (b + a * b)%nat.
  rewrite Rsum_app, Rsum_S, IH. f_equal.
  apply Rsum_ext. intros i _. apply Rsum_ext. intros j _.
  f_equal. lia.
Qed.

(** A sum against the indicator of one index picks that index. *)
Lemma Rsum_pick n i0 f :
  (i0 < n)%nat ->
  Rsum n (fun i => (if (i0 =? i)%nat then 1 else 0) * f i) = f i0.
Proof.
  revert i0 f. induction n as [|n IH]; intros i0 f Hi; [lia|].
  rewrite Rsum_S. destruct i0 as [|i0]; cbn [Nat.eqb].
  - rewrite (Rsum_ext n _ (fun _ => 0)) by (intros; ring).
    rewrite Rsum_zero. ring.
  - rewrite (IH i0 (fun i => f (S i))) by lia. ring.
Qed.

(** ** Arrays glued and flattened *)

Lemma seq_from a b : seq a b = map (fun k => (a + k)%nat) (seq 0 b).
Proof.
  induction a as [|a IH].
  - rewrite map_id. reflexivity.
  - rewrite <- seq_shift, IH, map_map. reflexivity.
Qed.

Lemma tabv_app {X} a b (h : nat -> X) :
  tabv (a + b) h = tabv a h ++ tabv b (fun k => h (a + k)%nat).
Proof.
  unfold tabv. rewrite seq_app, map_app. f_equal.
  cbn [Nat.add]. rewrite (seq_from a b), map_map. reflexivity.
Qed.

Lemma concat_tab2 {X} r c (f : nat -> nat -> X) :
  (0 < c)%nat ->
  concat (tab2 r c f) = tabv (r * c) (fun k => f (k / c) (k mod c))%nat.
Proof.
  intros Hc. revert f. induction r as [|r IH]; intros f; [reflexivity|].
  unfold tab2. rewrite tabv_S. cbn [concat].
  change (tabv r (fun i => tabv c (f (S i)))) with (tab2 r c (fun i => f (S i))).
  rewrite IH. change (S r * c)%nat with (c + r * c)%nat. rewrite tabv_app.
  f_equal.
  - apply tabv_ext. intros k Hk.
    rewrite Nat.div_small, Nat.mod_small by assumption. reflexivity.
  - apply tabv_ext. intros k _.
    replace (c + k)%nat with (k + 1 * c)%nat by lia.
    rewrite Nat.div_add, Nat.Div0.mod_add by lia.
    replace (k / c + 1)%nat with (S (k / c)) by lia. reflexivity.
Qed.

(** Row-major and column-major flattening, entry by entry. *)
Lemma flatten_tab2 n m (f : nat -> nat -> xreal) :
  (0 < m)%nat ->
  flatten (tab2 n m f) = tabv (n * m) (fun k => f (k / m) (k mod m))%nat.
Proof. intros Hm. unfold flatten. now apply concat_tab2. Qed.

Lemma flattenF_tab2 n m (f : nat -> nat -> xreal) :
  (0 < n)%nat ->
  flattenF (tab2 n m f) = tabv (m * n) (fun k => f (k mod n) (k / n))%nat.
Proof.
  intros Hn. unfold flattenF. rewrite transpose_tab2 by assumption.
  now apply concat_tab2.
Qed.

Lemma tab2_app n m c (f : nat -> nat -> xreal) :
  tab2 (n + m) c f = tab2 n c f ++ tab2 m c (fun i => f (n + i)%nat).
Proof. unfold tab2. apply tabv_app. Qed.

Lemma app_eq_parts {X} (l1 l1' l2 l2' : list X) :
  length l1 = length l1' ->
  l1 ++ l2 = l1' ++ l2' <-> l1 = l1' /\ l2 = l2'.
Proof.
  intros Hlen. split; [|intros [-> ->]; reflexivity].
  revert l1' Hlen. induction l1 as [|x l1 IH]; intros [|y l1'] Hlen H;
    try discriminate.
  - now split.
  - injection H as -> H. destruct (IH l1') as [-> ->]; auto.
Qed.

Lemma evec_eq n f g :
  evec n f = evec n g <-> forall i, (i < n)%nat -> f i = g i.
Proof.
  split; [|apply evec_ext].
  intros H i Hi. apply (f_equal (fun v => vget v i)) in H.
  unfold evec in H. rewrite !tabv_vget in H by assumption. now injection H.
Qed.

(** ** Kronecker products and the product with a vector *)

Lemma kron_tab2 a b c d (f g : nat -> nat -> xreal) :
  (0 < a)%nat -> (0 < c)%nat ->
  kron (tab2 a b f) (tab2 c d g)
  = tab2 (a * c) (b * d) (fun i j =>
      xmul (f (i / c) (j / d)) (g (i mod c) (j mod d)))%nat.
Proof.
  intros Ha Hc. unfold kron.
  rewrite !tab2_nrows, !tab2_ncols by assumption.
  apply tab2_ext. intros i j Hi Hj.
  assert (Hd : (0 < d)%nat) by (destruct d; [lia|lia]).
  rewrite !tab2_get; try reflexivity.
  - apply Nat.mod_upper_bound; lia.
  - apply Nat.mod_upper_bound; lia.
  - apply Nat.Div0.div_lt_upper_bound. lia.
  - apply Nat.Div0.div_lt_upper_bound. lia.
Qed.

Lemma matvec_tab r c (f : nat -> nat -> xreal) (x : nat -> xreal) :
  (0 < r)%nat ->
  matvec (tab2 r c f) (tabv c x)
  = Done (tabv r (fun i => xsum (tabv c (fun l => xmul (f i l) (x l))))).
Proof.
  intros Hr. unfold matvec.
  rewrite tab2_ncols, tab2_nrows, tabv_length, Nat.eqb_refl by assumption.
  f_equal. apply tabv_ext. intros i Hi. f_equal. apply tabv_ext. intros l Hl.
  rewrite tab2_get, tabv_vget by assumption. reflexivity.
Qed.

Lemma dot_fin k (a b : nat -> R) :
  dot (evec k a) (evec k b) = Done (Fin (Rsum k (fun l => a l * b l))).
Proof.
  unfold dot, evec. rewrite !tabv_length, Nat.eqb_refl. f_equal.
  rewrite <- xsum_fin. f_equal. apply tabv_ext. intros l Hl.
  rewrite !tabv_vget by assumption. reflexivity.
Qed.

Lemma matvec_app A B x :
  (0 < nrows A)%nat -> ncols A = ncols B ->
  matvec (A ++ B) x
  = (a <- matvec A x ;; b <- matvec B x ;; Done (hstack a b)).
Proof.
  intros HA Hc. unfold matvec.
  assert (E : ncols (A ++ B) = ncols A).
  { unfold ncols. destruct A; [simpl in HA; lia|reflexivity]. }
  rewrite E, <- Hc. destruct (ncols A =? length x)%nat; [|reflexivity].
  cbn [bind]. unfold hstack, nrows. rewrite length_app, tabv_app.
  apply f_equal. apply f_equal2.
  - apply tabv_ext. intros i Hi. f_equal. apply tabv_ext. intros l _.
    unfold get. now rewrite app_nth1.
  - apply tabv_ext. intros i Hi. f_equal. apply tabv_ext. intros l _.
    unfold get. rewrite app_nth2 by lia. do 3 f_equal. lia.
Qed.

Lemma indicator_fin (c : bool) x :
  xmul (if c then Fin 1 else Fin 0) (Fin x) = Fin ((if c then 1 else 0) * x).
Proof. destruct c; reflexivity. Qed.

Lemma split_index n i j :
  (i < n)%nat -> ((j * n + i) mod n = i /\ (j * n + i) / n = j)%nat.
Proof.
  intros Hi. rewrite Nat.add_comm. split.
  - rewrite Nat.Div0.mod_add. now apply Nat.mod_small.
  - rewrite Nat.div_add by lia. rewrite Nat.div_small by assumption. lia.
Qed.

(** The rows of [kron(ones(1, m), identity(n))] sum the rows of a matrix
    out of its column-major flattening ... *)
Lemma pick_rows_F n m pi :
  (0 < n)%nat -> (0 < m)%nat ->
  matvec (kron (np_ones 1 m) (identity n)) (flattenF (emat n m pi))
  = Done (evec n (fun i => Rsum m (pi i))).
Proof.
  intros Hn Hm. unfold np_ones, identity, emat.
  rewrite kron_tab2, flattenF_tab2 by lia.
  rewrite matvec_tab by lia. rewrite Nat.mul_1_l. apply f_equal.
  unfold evec. apply tabv_ext. intros i Hi.
  rewrite (tabv_ext (m * n) _ (fun c =>
             Fin ((if (i =? c mod n)%nat then 1 else 0) * pi (c mod n) (c / n)%nat))).
  2:{ intros c _. rewrite (Nat.mod_small i n) by assumption.
      destruct (i =? c mod n)%nat; cbn [xmul]; f_equal; ring. }
  rewrite xsum_fin, Rsum_prod. f_equal. apply Rsum_ext. intros j _.
  rewrite (Rsum_ext n _ (fun i' => (if (i =? i')%nat then 1 else 0) * pi i' j)).
  2:{ intros i' Hi'. destruct (split_index n i' j Hi') as [-> ->]. reflexivity. }
  now apply (Rsum_pick n i (fun i' => pi i' j)).
Qed.

(** ... and those of [kron(identity(m), ones(1, n))] its columns. *)
Lemma pick_cols_F n m pi :
  (0 < n)%nat -> (0 < m)%nat ->
  matvec (kron (identity m) (np_ones 1 n)) (flattenF (emat n m pi))
  = Done (evec m (fun j => Rsum n (fun i => pi i j))).
Proof.
  intros Hn Hm. unfold np_ones, identity, emat.
  rewrite kron_tab2, flattenF_tab2 by lia.
  rewrite matvec_tab by lia. rewrite Nat.mul_1_r. apply f_equal.
  unfold evec. apply tabv_ext. intros j Hj.
  rewrite (tabv_ext (m * n) _ (fun c =>
             Fin ((if (j =? c / n)%nat then 1 else 0) * pi (c mod n) (c / n)%nat))).
  2:{ intros c _. rewrite Nat.div_1_r.
      destruct (j =? c / n)%nat; cbn [xmul]; f_equal; ring. }
  rewrite xsum_fin, Rsum_prod.
  rewrite (Rsum_ext m _ (fun j' => (if (j =? j')%nat then 1 else 0)
                                   * Rsum n (fun i => pi i j'))).
  2:{ intros j' _. rewrite <- Rsum_scal_l. apply Rsum_ext. intros i' Hi'.
      destruct (split_index n i' j' Hi') as [-> ->]. reflexivity. }
  f_equal. now apply (Rsum_pick m j (fun j' => Rsum n (fun i => pi i j'))).
Qed.

Lemma kron_nrows A B : nrows (kron A B) = (nrows A * nrows B)%nat.
Proof. unfold kron. apply tab2_nrows. Qed.

Lemma kron_ncols A B :
  (0 < nrows A)%nat -> (0 < nrows B)%nat ->
  ncols (kron A B) = (ncols A * ncols B)%nat.
Proof. intros HA HB. unfold kron. apply tab2_ncols. lia. Qed.

(** X11.  The linear program of the regularization notebook is the
    transport problem: at a point x that is the column-major flattening
    of a matrix pi, [obj @ x] is the sum of Phi_ij pi_ij, the first nbX
    entries of [A @ x] are the row sums of pi and the next nbY its column
    sums, so that [A @ x == rhs] says that pi has the marginals p and q. *)
Theorem transport_lp_marginals n m phi pi p q :
  (0 < n)%nat -> (0 < m)%nat ->
  let x := flattenF (emat n m pi) in
  let Ax := A <- transport_A n m ;; matvec A x in
  dot (transport_obj (emat n m phi)) x
  = Done (Fin (Rsum n (fun i => Rsum m (fun j => phi i j * pi i j))))
  /\ Ax = Done (hstack (evec n (fun i => Rsum m (pi i)))
                  (evec m (fun j => Rsum n (fun i => pi i j))))
  /\ (Ax = Done (transport_rhs (evec n p) (evec m q))
      <-> (forall i, (i < n)%nat -> Rsum m (pi i) = p i)
          /\ (forall j, (j < m)%nat -> Rsum n (fun i => pi i j) = q j)).
Proof.
  intros Hn Hm x Ax.
  assert (HAx : Ax = Done (hstack (evec n (fun i => Rsum m (pi i)))
                             (evec m (fun j => Rsum n (fun i => pi i j))))).
  { unfold Ax, transport_A, vstack.
    assert (H1 : nrows (np_ones 1 m) = 1%nat) by apply tab2_nrows.
    assert (H2 : nrows (identity n) = n) by apply tab2_nrows.
    assert (H3 : nrows (np_ones 1 n) = 1%nat) by apply tab2_nrows.
    assert (H4 : nrows (identity m) = m) by apply tab2_nrows.
    assert (C1 : ncols (np_ones 1 m) = m) by (apply tab2_ncols; lia).
    assert (C2 : ncols (identity n) = n) by (apply tab2_ncols; lia).
    assert (C3 : ncols (np_ones 1 n) = n) by (apply tab2_ncols; lia).
    assert (C4 : ncols (identity m) = m) by (apply tab2_ncols; lia).
    rewrite !kron_ncols by lia. rewrite C1, C2, C3, C4, Nat.eqb_refl.
    cbn [bind]. rewrite matvec_app.
    - unfold x. rewrite pick_rows_F, pick_cols_F by assumption. reflexivity.
    - rewrite kron_nrows. lia.
    - rewrite !kron_ncols by lia. lia. }
  split; [|split; [exact HAx|]].
  - unfold transport_obj, x, emat. rewrite !flattenF_tab2 by assumption.
    change (tabv (m * n) (fun k => Fin (phi (k mod n) (k / n))%nat))
      with (evec (m * n) (fun k => phi (k mod n) (k / n))%nat).
    change (tabv (m * n) (fun k => Fin (pi (k mod n) (k / n))%nat))
      with (evec (m * n) (fun k => pi (k mod n) (k / n))%nat).
    rewrite dot_fin, Rsum_prod, Rsum_swap. do 2 f_equal.
    apply Rsum_ext. intros i Hi. apply Rsum_ext. intros j _.
    destruct (split_index n i j Hi) as [-> ->]. reflexivity.
  - rewrite HAx. unfold transport_rhs, hstack. split.
    + intros E. injection E as E.
      apply app_eq_parts in E; [|unfold evec; now rewrite !tabv_length].
      destruct E as [E1 E2]. split; [now apply evec_eq|now apply evec_eq].
    + intros [E1 E2]. f_equal. f_equal; now apply evec_ext.
Qed.

(** X11 on a coupling of two rows and two columns. *)
Lemma transport_lp_marginals_witness :
  (A <- transport_A 2 2 ;; matvec A (flattenF (emat 2 2 (fun i j => INR (i + 2 * j)))))
  = Done (hstack (evec 2 (fun i => Rsum 2 (fun j => INR (i + 2 * j))))
            (evec 2 (fun j => Rsum 2 (fun i => INR (i + 2 * j))))).
Proof.
  exact (proj1 (proj2 (transport_lp_marginals 2 2 zero_phi
                         (fun i j => INR (i + 2 * j)) ones ones
                         ltac:(lia) ltac:(lia)))).
Defined.

(** X12.  [x.reshape([nbX, nbY])] does not undo the
    [flatten(order = 'F')] the program was written with: when x is the
    column-major flattening of pi, entry (i, j) of the reshaped array is
    the entry of pi at row (i nbY + j) mod nbX and column
    (i nbY + j) / nbX, so with two rows and two columns or more its entry
    (0, 1) is pi_10.  Reshaping to (nbY, nbX) and transposing gives pi
    back. *)
Theorem transport_solution_reshape n m pi :
  (0 < n)%nat -> (0 < m)%nat ->
  let x := flattenF (emat n m pi) in
  reshape x n m
  = Done (emat n m (fun i j => pi ((i * m + j) mod n) ((i * m + j) / n))%nat)
  /\ (M <- reshape x m n ;; Done (transpose M)) = Done (emat n m pi)
  /\ ((2 <= n)%nat -> (2 <= m)%nat ->
      exists M, reshape x n m = Done M /\ get M 0 1 = Fin (pi 1 0)%nat).
Proof.
  intros Hn Hm x.
  assert (Hx : x = tabv (m * n) (fun k => Fin (pi (k mod n) (k / n))%nat)).
  { unfold x, emat. now apply flattenF_tab2. }
  assert (E1 : reshape x n m
               = Done (emat n m (fun i j =>
                         pi ((i * m + j) mod n) ((i * m + j) / n))%nat)).
  { unfold reshape. rewrite Hx, tabv_length.
    replace (m * n =? n * m)%nat with true by (symmetry; apply Nat.eqb_eq; lia).
    apply f_equal. unfold emat. apply tab2_ext. intros i j Hi Hj.
    rewrite tabv_vget by nia. reflexivity. }
  split; [exact E1|]. split.
  - unfold reshape. rewrite Hx, tabv_length, Nat.eqb_refl. cbn [bind].
    rewrite transpose_tab2 by assumption. apply f_equal. unfold emat.
    apply tab2_ext. intros i j Hi Hj.
    rewrite tabv_vget by nia.
    destruct (split_index n i j Hi) as [-> ->]. reflexivity.
  - intros Hn2 Hm2. eexists. split; [exact E1|].
    unfold emat. rewrite tab2_get by lia. cbn [Nat.mul Nat.add].
    rewrite Nat.mod_small, Nat.div_small by lia. reflexivity.
Qed.

(** X12 on two rows and two columns. *)
Lemma transport_solution_reshape_witness :
  exists M,
    reshape (flattenF (emat 2 2 (fun i j => INR (i + 2 * j)))) 2 2 = Done M
    /\ get M 0 1 = Fin (INR (1 + 2 * 0)).
Proof.
  exact (proj2 (proj2 (transport_solution_reshape 2 2 (fun i j => INR (i + 2 * j))
                         ltac:(lia) ltac:(lia))) ltac:(lia) ltac:(lia)).
Defined.

(** ** The assignment notebook *)

Lemma assignment_rows n m pi :
  (0 < n)%nat -> (0 < m)%nat ->
  matvec (kron (identity n) (as_row (np_repeat (Fin 1) m)))
    (flatten (emat n m pi))
  = Done (evec n (fun i => Rsum m (pi i))).
Proof.
  intros Hn Hm. rewrite np_repeat_tabv, as_row_tabv. unfold identity, emat.
  rewrite kron_tab2, flatten_tab2 by lia.
  rewrite matvec_tab by lia. rewrite Nat.mul_1_r. apply f_equal.
  unfold evec. apply tabv_ext. intros i Hi.
  rewrite (tabv_ext (n * m) _ (fun c =>
             Fin ((if (i =? c / m)%nat then 1 else 0) * pi (c / m)%nat (c mod m)))).
  2:{ intros c _. rewrite Nat.div_1_r.
      destruct (i =? c / m)%nat; cbn [xmul]; f_equal; ring. }
  rewrite xsum_fin, Rsum_prod. f_equal.
  rewrite (Rsum_ext n _ (fun i' => (if (i =? i')%nat then 1 else 0)
                                   * Rsum m (pi i'))).
  2:{ intros i' _. rewrite <- Rsum_scal_l. apply Rsum_ext. intros j' Hj'.
      destruct (split_index m j' i' Hj') as [-> ->]. reflexivity. }
  now apply (Rsum_pick n i (fun i' => Rsum m (pi i'))).
Qed.

Lemma assignment_cols n m pi :
  (0 < n)%nat -> (0 < m)%nat ->
  matvec (kron (as_row (np_repeat (Fin 1) n)) (identity m))
    (flatten (emat n m pi))
  = Done (evec m (fun j => Rsum n (fun i => pi i j))).
Proof.
  intros Hn Hm. rewrite np_repeat_tabv, as_row_tabv. unfold identity, emat.
  rewrite kron_tab2, flatten_tab2 by lia.
  rewrite matvec_tab by lia. rewrite Nat.mul_1_l. apply f_equal.
  unfold evec. apply tabv_ext. intros j Hj.
  rewrite (tabv_ext (n * m) _ (fun c =>
             Fin ((if (j =? c mod m)%nat then 1 else 0) * pi (c / m)%nat (c mod m)))).
  2:{ intros c _. rewrite (Nat.mod_small j m) by assumption.
      destruct (j =? c mod m)%nat; cbn [xmul]; f_equal; ring. }
  rewrite xsum_fin, Rsum_prod. f_equal. apply Rsum_ext. intros i _.
  rewrite (Rsum_ext m _ (fun j' => (if (j =? j')%nat then 1 else 0) * pi i j')).
  2:{ intros j' Hj'. destruct (split_index m j' i Hj') as [-> ->]. reflexivity. }
  now apply (Rsum_pick m j (fun j' => pi i j')).
Qed.

(** X13.  The linear program of the assignment notebook is the same
    transport problem written on the row-major flattening: at x =
    pi.flatten(), [obj @ x] is the sum of Phi_ij pi_ij, [A @ x] holds the
    row sums of pi and then its column sums, and reshaping x to the shape
    of Phi gives pi back. *)
Theorem assignment_lp_marginals n m phi pi p q :
  (0 < n)%nat -> (0 < m)%nat ->
  let Phi := emat n m phi in
  let x := flatten (emat n m pi) in
  let Ax := A <- assignment_A Phi ;; matvec A x in
  dot (assignment_obj Phi) x
  = Done (Fin (Rsum n (fun i => Rsum m (fun j => phi i j * pi i j))))
  /\ Ax = Done (hstack (evec n (fun i => Rsum m (pi i)))
                  (evec m (fun j => Rsum n (fun i => pi i j))))
  /\ (Ax = Done (hstack (evec n p) (evec m q))
      <-> (forall i, (i < n)%nat -> Rsum m (pi i) = p i)
          /\ (forall j, (j < m)%nat -> Rsum n (fun i => pi i j) = q j))
  /\ assignment_solution Phi x = Done (emat n m pi).
Proof.
  intros Hn Hm Phi x Ax.
  assert (RN : nrows Phi = n) by apply tab2_nrows.
  assert (CM : ncols Phi = m) by (apply tab2_ncols; assumption).
  assert (Hx : x = tabv (n * m) (fun k => Fin (pi (k / m) (k mod m))%nat)).
  { unfold x, emat. now apply flatten_tab2. }
  assert (HAx : Ax = Done (hstack (evec n (fun i => Rsum m (pi i)))
                             (evec m (fun j => Rsum n (fun i => pi i j))))).
  { unfold Ax, assignment_A, vstack. cbv zeta. rewrite RN, CM.
    assert (H1 : nrows (as_row (np_repeat (Fin 1) m)) = 1%nat) by reflexivity.
    assert (H2 : nrows (identity n) = n) by apply tab2_nrows.
    assert (H3 : nrows (as_row (np_repeat (Fin 1) n)) = 1%nat) by reflexivity.
    assert (H4 : nrows (identity m) = m) by apply tab2_nrows.
    assert (C1 : ncols (as_row (np_repeat (Fin 1) m)) = m)
      by (unfold ncols, as_row, np_repeat; cbn [hd]; apply repeat_length).
    assert (C2 : ncols (identity n) = n) by (apply tab2_ncols; lia).
    assert (C3 : ncols (as_row (np_repeat (Fin 1) n)) = n)
      by (unfold ncols, as_row, np_repeat; cbn [hd]; apply repeat_length).
    assert (C4 : ncols (identity m) = m) by (apply tab2_ncols; lia).
    rewrite !kron_ncols by lia. rewrite C1, C2, C3, C4, Nat.eqb_refl.
    cbn [bind]. rewrite matvec_app.
    - unfold x. rewrite assignment_rows, assignment_cols by assumption.
      reflexivity.
    - rewrite kron_nrows. lia.
    - rewrite !kron_ncols by lia. lia. }
  split; [|split; [exact HAx|split]].
  - unfold assignment_obj, Phi, emat. rewrite Hx, flatten_tab2 by assumption.
    change (tabv (n * m) (fun k => Fin (phi (k / m) (k mod m))%nat))
      with (evec (n * m) (fun k => phi (k / m) (k mod m))%nat).
    change (tabv (n * m) (fun k => Fin (pi (k / m) (k mod m))%nat))
      with (evec (n * m) (fun k => pi (k / m) (k mod m))%nat).
    rewrite dot_fin, Rsum_prod. do 2 f_equal.
    apply Rsum_ext. intros i _. apply Rsum_ext. intros j Hj.
    destruct (split_index m j i Hj) as [-> ->]. reflexivity.
  - rewrite HAx. unfold hstack. split.
    + intros E. injection E as E.
      apply app_eq_parts in E; [|unfold evec; now rewrite !tabv_length].
      destruct E as [E1 E2]. split; [now apply evec_eq|now apply evec_eq].
    + intros [E1 E2]. f_equal. f_equal; now apply evec_ext.
  - unfold assignment_solution, reshape. rewrite RN, CM, Hx, tabv_length.
    rewrite Nat.eqb_refl. apply f_equal. unfold emat.
    apply tab2_ext. intros i j Hi Hj. rewrite tabv_vget by nia.
    destruct (split_index m j i Hj) as [-> ->]. reflexivity.
Qed.

(** X13 on a coupling of two rows and two columns. *)
Lemma assignment_lp_marginals_witness :
  assignment_solution (emat 2 2 zero_phi)
    (flatten (emat 2 2 (fun i j => INR (i + 2 * j))))
  = Done (emat 2 2 (fun i j => INR (i + 2 * j))).
Proof.
  exact (proj2 (proj2 (proj2 (assignment_lp_marginals 2 2 zero_phi
                                (fun i j => INR (i + 2 * j)) ones ones
                                ltac:(lia) ltac:(lia))))).
Defined.

(** ** The partner printed for the first row *)

Lemma first_nonzero_spec row :
  match first_nonzero row with
  | Some k => (k < length row)%nat /\ is_zero (vget row k) = false
              /\ forall j, (j < k)%nat -> is_zero (vget row j) = true
  | None => forall j, (j < length row)%nat -> is_zero (vget row j) = true
  end.
Proof.
  induction row as [|x row IH]; [intros j Hj; simpl in Hj; lia|].
  simpl. destruct (is_zero x) eqn:Ex.
  - destruct (first_nonzero row) as [k|]; cbn [option_map].
    + destruct IH as (Hk & Hnz & Hz). split; [simpl; lia|]. split; [exact Hnz|].
      intros [|j] Hj; [exact Ex|]. apply Hz. lia.
    + intros [|j] Hj; [exact Ex|]. apply IH. simpl in Hj. lia.
  - split; [simpl; lia|]. split; [exact Ex|]. intros j Hj. lia.
Qed.

Lemma is_zero_fin x : is_zero (Fin x) = true <-> x = 0.
Proof.
  unfold is_zero. destruct (Req_dec_T x 0); split; intros; try assumption;
    try reflexivity; try discriminate; contradiction.
Qed.

(** X14.  The last cell of the assignment notebook prints, counted from
    1, the first column where row 0 of the solution is not zero: the
    entries before it are zero.  It raises IndexError when the row is all
    zeros, which cannot happen when the row sums to a p_0 that is not
    zero, as it does at every point that satisfies the constraints. *)
Theorem partner_of_first_row n m pi :
  (0 < n)%nat ->
  ((forall j, (j < m)%nat -> pi 0%nat j = 0) -> partner (emat n m pi) = None)
  /\ (Rsum m (pi 0%nat) <> 0 ->
      exists k, partner (emat n m pi) = Some (S k) /\ (k < m)%nat
                /\ pi 0%nat k <> 0
                /\ forall j, (j < k)%nat -> pi 0%nat j = 0).
Proof.
  intros Hn. unfold partner.
  assert (Erow : nth 0 (emat n m pi) [] = evec m (pi 0%nat)).
  { unfold emat, tab2. now rewrite tabv_nth. }
  rewrite Erow.
  pose proof (first_nonzero_spec (evec m (pi 0%nat))) as Hspec.
  unfold evec in Hspec. rewrite tabv_length in Hspec. unfold evec.
  split.
  - intros Hz. destruct (first_nonzero (tabv m (fun i => Fin (pi 0%nat i))))
      as [k|]; [|reflexivity].
    destruct Hspec as (Hk & Hnz & _). rewrite tabv_vget in Hnz by assumption.
    rewrite (Hz k Hk) in Hnz. unfold is_zero in Hnz.
    destruct (Req_dec_T 0 0); [discriminate|contradiction].
  - intros Hsum.
    destruct (first_nonzero (tabv m (fun i => Fin (pi 0%nat i)))) as [k|].
    + destruct Hspec as (Hk & Hnz & Hz). exists k.
      split; [reflexivity|]. split; [exact Hk|]. split.
      * rewrite tabv_vget in Hnz by assumption. intros E.
        apply is_zero_fin in E. congruence.
      * intros j Hj. specialize (Hz j Hj).
        rewrite tabv_vget in Hz by lia. now apply is_zero_fin.
    + exfalso. apply Hsum.
      rewrite (Rsum_ext m _ (fun _ => 0)); [apply Rsum_zero|].
      intros j Hj. specialize (Hspec j Hj).
      rewrite tabv_vget in Hspec by assumption. now apply is_zero_fin.
Qed.

(** X14 on the identity of two rows. *)
Lemma partner_of_first_row_witness :
  exists k,
    partner (emat 2 2 (fun i j => if (i =? j)%nat then 1 else 0)) = Some (S k)
    /\ (k < 2)%nat.
Proof.
  destruct (proj2 (partner_of_first_row 2 2
                     (fun i j => if (i =? j)%nat then 1 else 0) ltac:(lia)))
    as (k & Hk & Hlt & _).
  - unfold Rsum. simpl. lra.
  - exists k. split; assumption.
Defined.

(** * The likelihood of the logit model *)

(** ** More numpy on tabulated arrays *)

Lemma matvec_fin r c (f : nat -> nat -> R) (x : nat -> R) :
  (0 < r)%nat ->
  matvec (emat r c f) (evec c x)
  = Done (evec r (fun i => Rsum c (fun l => f i l * x l))).
Proof.
  intros Hr. unfold emat, evec. rewrite matvec_tab by assumption.
  apply f_equal. apply tabv_ext. intros i _. apply xsum_fin.
Qed.

Lemma reshape_tabv r c (g : nat -> xreal) :
  reshape (tabv (r * c) g) r c = Done (tab2 r c (fun i j => g (i * c + j)%nat)).
Proof.
  unfold reshape. rewrite tabv_length, Nat.eqb_refl. apply f_equal.
  apply tab2_ext. intros i j Hi Hj. rewrite tabv_vget by nia. reflexivity.
Qed.

Lemma reshape_mismatch k r c (g : nat -> xreal) :
  k <> (r * c)%nat -> reshape (tabv k g) r c = Raise ValueError.
Proof.
  intros H. unfold reshape. rewrite tabv_length.
  destruct (Nat.eqb_spec k (r * c)); [contradiction|reflexivity].
Qed.

Lemma max_axis1_fin n m (f : nat -> nat -> R) :
  (0 < n)%nat -> (0 < m)%nat ->
  max_axis1 (emat n m f) = Done (evec n (fun i => Rmaxn m (f i))).
Proof.
  intros Hn Hm. unfold max_axis1, emat.
  rewrite tab2_ncols by assumption.
  destruct (Nat.eqb_spec m 0); [lia|]. apply f_equal.
  unfold tab2, evec. rewrite tabv_map. apply tabv_ext. intros i _.
  now apply fold_max_fin.
Qed.

Lemma bcast2_row op n m (f : nat -> nat -> xreal) (g : nat -> xreal) :
  (0 < n)%nat ->
  bcast2 op (tab2 n m f) (as_row (tabv m g))
  = Done (tab2 n m (fun i j => op (f i j) (g j))).
Proof.
  intros Hn. rewrite as_row_tabv.
  rewrite (bcast2_tab2 op n m f 1 m _ n m Hn ltac:(lia)
             (bdim_one_r n) (bdim_refl m)).
  apply f_equal. apply tab2_ext. intros i j Hi Hj.
  rewrite (bidx_lt n i), (bidx_lt m j) by assumption. reflexivity.
Qed.

Lemma firstn_tabv {X} k n (h : nat -> X) :
  (k <= n)%nat -> firstn k (tabv n h) = tabv k h.
Proof.
  intros H. replace n with (k + (n - k))%nat by lia.
  rewrite tabv_app. rewrite firstn_app, tabv_length, Nat.sub_diag.
  cbn [firstn]. rewrite app_nil_r. apply firstn_all2.
  rewrite tabv_length. lia.
Qed.

Lemma skipn_tabv {X} k n (h : nat -> X) :
  (k <= n)%nat -> skipn k (tabv n h) = tabv (n - k) (fun i => h (k + i)%nat).
Proof.
  intros H. replace n with (k + (n - k))%nat at 1 by lia.
  rewrite tabv_app. rewrite skipn_app, tabv_length, Nat.sub_diag.
  cbn [skipn]. rewrite skipn_all2 by (rewrite tabv_length; lia).
  reflexivity.
Qed.

(** The block of alternative [y] in an array whose rows go alternative
    by alternative. *)
Lemma slice_block C N K (f : nat -> nat -> xreal) y :
  (y < C)%nat ->
  slice_rows (tab2 (C * N) K f) (y * N) ((y + 1) * N)
  = tab2 N K (fun i k => f (y * N + i)%nat k).
Proof.
  intros Hy. unfold slice_rows, tab2.
  rewrite skipn_tabv by nia. rewrite firstn_tabv by nia.
  replace ((y + 1) * N - y * N)%nat with N by lia. reflexivity.
Qed.

Lemma add_same_fin n m (f g : nat -> nat -> R) :
  (0 < n)%nat ->
  add_same (emat n m f) (emat n m g) = Done (emat n m (fun i j => f i j + g i j)).
Proof.
  intros Hn. unfold add_same, emat.
  rewrite !tab2_nrows, !tab2_ncols, !Nat.eqb_refl by assumption.
  cbn [andb]. apply f_equal. apply tab2_ext. intros i j Hi Hj.
  rewrite !tab2_get by assumption. reflexivity.
Qed.

Lemma sum_stack_run n m (g : nat -> nat -> nat -> R) c :
  (0 < n)%nat -> forall acc,
  fold_left (fun acc B => A <- acc ;; add_same A B)
    (map (fun y => emat n m (g y)) (seq (S acc) c))
    (Done (emat n m (fun i j => Rsum (S acc) (fun y => g y i j))))
  = Done (emat n m (fun i j => Rsum (S acc + c) (fun y => g y i j))).
Proof.
  intros Hn. induction c as [|c IH]; intros acc.
  - cbn [seq map fold_left]. rewrite Nat.add_0_r. reflexivity.
  - cbn [seq map fold_left bind]. rewrite add_same_fin by assumption.
    rewrite (emat_ext n m _ (fun i j => Rsum (S (S acc)) (fun y => g y i j))).
    2:{ intros i j _ _. now rewrite (Rsum_last (S acc)). }
    rewrite IH. f_equal. apply emat_ext. intros i j _ _. f_equal. lia.
Qed.

Lemma sum_stack_fin n m C (g : nat -> nat -> nat -> R) :
  (0 < n)%nat -> (0 < C)%nat ->
  sum_stack (map (fun y => emat n m (g y)) (seq 0 C))
  = Done (emat n m (fun i j => Rsum C (fun y => g y i j))).
Proof.
  intros Hn HC. destruct C as [|C]; [lia|]. cbn [seq map sum_stack].
  rewrite (emat_ext n m (g 0%nat) (fun i j => Rsum 1 (fun y => g y i j)))
    by (intros; now rewrite Rsum_one).
  apply (sum_stack_run n m g C Hn 0).
Qed.

(** ** The two functions on finite data *)

Section LogitFacts.

Variables C N K : nat.
Variable phi : nat -> nat -> R.
Variable mu : nat -> R.
Variable s : R.

Hypothesis HC : (0 < C)%nat.
Hypothesis HN : (0 < N)%nat.
Hypothesis Hs : s <> 0.

Lemma best_ge theta i y :
  (y < C)%nat -> utility_of N K phi s theta i y <= best C N K phi s theta i.
Proof.
  intros Hy. unfold best.
  apply (Rmaxn_ub C (utility_of N K phi s theta i) y Hy).
Qed.

Lemma Rmaxn_attained n f :
  (0 < n)%nat -> exists i, (i < n)%nat /\ Rmaxn n f = f i.
Proof.
  intros Hn. unfold Rmaxn. destruct n as [|n]; [lia|]. simpl.
  assert (G : forall l x,
            (exists y, (y = x \/ In y l) /\ fold_left Rmax l x = y)).
  { induction l as [|y l IH]; intros x; simpl.
    - exists x. split; [now left|reflexivity].
    - destruct (IH (Rmax x y)) as (z & [Hz|Hz] & E).
      + exists z. split; [|exact E]. subst z.
        unfold Rmax. destruct (Rle_dec x y); [right; now left|now left].
      + exists z. split; [|exact E]. right. now right. }
  destruct (G (map f (seq 1 n)) (f 0%nat)) as (z & [Hz|Hz] & E).
  - exists 0%nat. split; [lia|]. now rewrite E.
  - apply in_map_iff in Hz. destruct Hz as (i & Hi & Hin).
    apply in_seq in Hin. exists i. split; [lia|]. now rewrite E.
Qed.

(** The weights are at most 1, one of them is 1, and their sum lies
    between 1 and the number of alternatives. *)
Lemma weight_le_one theta i y :
  (y < C)%nat -> 0 < weight C N K phi s theta i y <= 1.
Proof.
  intros Hy. unfold weight. split; [apply exp_pos|].
  pose proof (best_ge theta i y Hy).
  rewrite <- exp_0.
  destruct (Req_dec (utility_of N K phi s theta i y - best C N K phi s theta i) 0)
    as [->|Hne]; [lra|].
  apply Rlt_le, exp_increasing. lra.
Qed.

Lemma weight_sum_bounds theta i :
  1 <= weight_sum C N K phi s theta i <= INR C.
Proof.
  unfold weight_sum. split.
  - destruct (Rmaxn_attained C (utility_of N K phi s theta i) HC) as (y & Hy & E).
    assert (W : weight C N K phi s theta i y = 1).
    { unfold weight, best. rewrite E, Rminus_diag. apply exp_0. }
    rewrite <- W.
    apply (Rsum_single_le C (weight C N K phi s theta i) y Hy).
    intros y' Hy'. apply Rlt_le. now apply weight_le_one.
  - eapply Rle_trans.
    + apply (Rsum_le C _ (fun _ => 1)). intros y Hy. now apply weight_le_one.
    + clear. induction C as [|c IH].
      * unfold Rsum. simpl. lra.
      * rewrite Rsum_last, S_INR. lra.
Qed.

Lemma weight_sum_pos theta i : 0 < weight_sum C N K phi s theta i.
Proof. pose proof (weight_sum_bounds theta i). lra. Qed.

Lemma choice_terms_fin theta :
  choice_terms (emat (C * N) K phi) (Fin s) C N (evec K theta)
  = Done (evec (C * N) (utility K phi s theta),
          evec N (best C N K phi s theta),
          emat N C (weight C N K phi s theta),
          evec N (weight_sum C N K phi s theta)).
Proof.
  unfold choice_terms.
  rewrite matvec_fin by nia. cbn [bind]. cbv zeta.
  assert (E : map (fun x => xdiv x (Fin s))
                (evec (C * N) (fun i => Rsum K (fun l => phi i l * theta l)))
              = evec (C * N) (utility K phi s theta)).
  { unfold evec. rewrite tabv_map. apply tabv_ext. intros r _.
    now apply xdiv_fin. }
  rewrite E. unfold evec at 1. rewrite reshape_tabv. cbn [bind].
  rewrite transpose_tab2 by assumption.
  change (tab2 N C (fun j i => Fin (utility K phi s theta (i * N + j))))
    with (emat N C (utility_of N K phi s theta)).
  rewrite max_axis1_fin by assumption. cbn [bind].
  unfold emat at 1. rewrite transpose_tab2 by assumption.
  unfold evec at 1. rewrite bcast2_row by assumption. cbn [bind].
  rewrite transpose_tab2 by assumption. rewrite map_mat_tab2.
  rewrite (tab2_ext N C _ (fun i y => Fin (weight C N K phi s theta i y)))
    by (intros; reflexivity).
  rewrite sum_axis1_fin. reflexivity.
Qed.

Lemma log_likelihood_fin theta :
  log_likelihood (emat (C * N) K phi) (Fin s) C N (evec (C * N) mu) (evec K theta)
  = Done (Fin (neg_log_lik C N K phi mu s theta)).
Proof.
  unfold log_likelihood. rewrite (choice_terms_fin theta).
  cbn [bind]. unfold evec at 1 2. rewrite bcast1_tabv. cbn [bind xmul].
  unfold evec. rewrite !xsum_fin, tabv_map.
  rewrite (tabv_ext N _ (fun i => Fin (ln (weight_sum C N K phi s theta i))))
    by (intros i _; apply xlog_fin, weight_sum_pos).
  rewrite xsum_fin. reflexivity.
Qed.

Lemma grad_log_likelihood_fin theta :
  (0 < K)%nat ->
  grad_log_likelihood (emat (C * N) K phi) (Fin s) C N (evec (C * N) mu)
    (evec K theta)
  = Done (evec K (neg_grad C N K phi mu s theta)).
Proof.
  intros HK. unfold grad_log_likelihood.
  rewrite (choice_terms_fin theta). cbn [bind].
  unfold emat at 2. rewrite transpose_tab2 by assumption.
  rewrite flatten_tab2 by assumption.
  unfold emat at 1. rewrite transpose_tab2 by nia.
  rewrite bcast2_row by assumption. cbn [bind].
  rewrite transpose_tab2 by assumption.
  rewrite (map_ext_in _ (fun y => emat N K (fun i k =>
             phi (y * N + i)%nat k * weight C N K phi s theta i y))).
  2:{ intros y Hy. apply in_seq in Hy. rewrite slice_block by lia.
      apply tab2_ext. intros i k Hi Hk. cbn [xmul]. f_equal. f_equal.
      destruct (split_index N i y Hi) as [-> ->]. reflexivity. }
  rewrite (sum_stack_fin N K C
             (fun y i k => phi (y * N + i)%nat k * weight C N K phi s theta i y))
    by assumption.
  cbn [bind]. unfold evec at 1.
  replace (C * N)%nat with (1 * (C * N))%nat at 1 by lia.
  rewrite reshape_tabv. cbn [bind].
  unfold emat at 1. rewrite matmul_tab2 by nia. cbn [bind].
  unfold emat at 1. rewrite transpose_tab2 by assumption.
  unfold evec at 1. rewrite bcast2_row by assumption. cbn [bind].
  rewrite flatten_row.
  rewrite (tab2_ext K N _ (fun k i => Fin (
             Rsum C (fun y => phi (y * N + i)%nat k * weight C N K phi s theta i y)
             / weight_sum C N K phi s theta i))).
  2:{ intros k i _ _. apply xdiv_fin.
      pose proof (weight_sum_pos theta i). lra. }
  rewrite sum_axis1_fin.
  rewrite (tabv_ext K _ (fun k => Fin (Rsum (C * N) (fun r => mu r * phi r k)))).
  2:{ intros k _. cbn [Nat.mul Nat.add]. apply xsum_fin. }
  rewrite bcast1_tabv. cbn [bind]. rewrite tabv_map. reflexivity.
Qed.

End LogitFacts.

(** ** The gradient *)

Lemma dlim_Rsum n (f : nat -> R -> R) (l : nat -> R) x :
  (forall i, (i < n)%nat -> derivable_pt_lim (f i) x (l i)) ->
  derivable_pt_lim (fun t => Rsum n (fun i => f i t)) x (Rsum n l).
Proof.
  revert f l. induction n as [|n IH]; intros f l H.
  - apply (derivable_pt_lim_ext (fct_cte 0)); [intros; reflexivity|].
    apply derivable_pt_lim_const.
  - apply (derivable_pt_lim_ext
             (f 0%nat + (fun t => Rsum n (fun i => f (S i) t)))%F).
    + intros t. unfold plus_fct. now rewrite Rsum_S.
    + rewrite Rsum_S. apply derivable_pt_lim_plus.
      * apply H. lia.
      * apply (IH (fun i => f (S i)) (fun i => l (S i))).
        intros i Hi. apply H. lia.
Qed.

Lemma dlim_line a w : derivable_pt_lim (fun t => a + t * w) 0 w.
Proof.
  apply (derivable_pt_lim_ext (fct_cte a + mult_real_fct w id)%F).
  - intros t. unfold plus_fct, fct_cte, mult_real_fct, id. ring.
  - replace w with (0 + w * 1) at 2 by ring.
    apply derivable_pt_lim_plus; [apply derivable_pt_lim_const|].
    apply derivable_pt_lim_scal, derivable_pt_lim_id.
Qed.

Lemma dlim_exp_line a w : derivable_pt_lim (fun t => exp (a + t * w)) 0 (w * exp a).
Proof.
  apply (derivable_pt_lim_ext (comp exp (fun t => a + t * w))).
  - intros t. reflexivity.
  - rewrite Rmult_comm. apply derivable_pt_lim_comp; [apply dlim_line|].
    replace (a + 0 * w) with a by ring. apply derivable_pt_lim_exp.
Qed.

Lemma dlim_ln g x l :
  0 < g x -> derivable_pt_lim g x l ->
  derivable_pt_lim (fun t => ln (g t)) x (l / g x).
Proof.
  intros Hpos Hg.
  apply (derivable_pt_lim_ext (comp ln g)); [intros; reflexivity|].
  unfold Rdiv. rewrite Rmult_comm.
  apply derivable_pt_lim_comp; [assumption|]. now apply derivable_pt_lim_ln.
Qed.

Section Gradient.

Variables C N K : nat.
Variable phi : nat -> nat -> R.
Variable mu : nat -> R.
Variable s : R.

Hypothesis HC : (0 < C)%nat.
Hypothesis HN : (0 < N)%nat.
Hypothesis Hs : s <> 0.

Lemma weight_sum_plain theta i :
  weight_sum C N K phi s theta i
  = Rsum C (fun y => exp (utility_of N K phi s theta i y))
    * exp (- best C N K phi s theta i).
Proof.
  unfold weight_sum. rewrite <- Rsum_scal. apply Rsum_ext. intros y _.
  unfold weight. rewrite <- exp_plus. reflexivity.
Qed.

Lemma ln_weight_sum theta i :
  ln (weight_sum C N K phi s theta i)
  = log_sum_utilities C N K phi s theta i - best C N K phi s theta i.
Proof.
  rewrite weight_sum_plain, ln_mult, ln_exp;
    [reflexivity|now apply Rsum_exp_pos|apply exp_pos].
Qed.

(** The value without the maxima: they cancel when sigma is 1. *)
Lemma neg_log_lik_plain theta :
  neg_log_lik C N K phi mu s theta
  = s * Rsum N (log_sum_utilities C N K phi s theta)
    + (1 - s) * Rsum N (best C N K phi s theta)
    - Rsum (C * N) (fun r => utility K phi s theta r * mu r).
Proof.
  unfold neg_log_lik.
  rewrite (Rsum_ext N (fun i => ln (weight_sum C N K phi s theta i))
             (fun i => log_sum_utilities C N K phi s theta i
                       - best C N K phi s theta i))
    by (intros i _; apply ln_weight_sum).
  rewrite Rsum_minus. ring.
Qed.

Lemma utility_bump theta k t r :
  (k < K)%nat ->
  utility K phi s (bump theta k t) r
  = utility K phi s theta r + t * (phi r k / s).
Proof.
  intros Hk. unfold utility, bump.
  rewrite (Rsum_ext K _ (fun k' => phi r k' * theta k'
             + (if (k =? k')%nat then 1 else 0) * (phi r k' * t))).
  2:{ intros k' _. rewrite (Nat.eqb_sym k' k).
      destruct (k =? k')%nat; ring. }
  rewrite Rsum_plus, (Rsum_pick K k (fun k' => phi r k' * t)) by assumption.
  field. assumption.
Qed.

Lemma weight_ratio theta i (w : nat -> R) :
  Rsum C (fun y => w y * weight C N K phi s theta i y)
  / weight_sum C N K phi s theta i
  = Rsum C (fun y => w y * exp (utility_of N K phi s theta i y))
    / Rsum C (fun y => exp (utility_of N K phi s theta i y)).
Proof.
  rewrite weight_sum_plain.
  rewrite (Rsum_ext C (fun y => w y * weight C N K phi s theta i y)
             (fun y => w y * exp (utility_of N K phi s theta i y)
                       * exp (- best C N K phi s theta i))).
  2:{ intros y _. unfold weight. rewrite Rmult_assoc, <- exp_plus. reflexivity. }
  rewrite Rsum_scal.
  pose proof (Rsum_exp_pos C (utility_of N K phi s theta i) HC).
  pose proof (exp_pos (- best C N K phi s theta i)).
  field. split; lra.
Qed.

End Gradient.

(** With sigma = 1 the value is a smooth function of theta, and what
    [grad_log_likelihood] computes is its gradient. *)
Lemma neg_grad_is_derivative C N K phi mu theta k :
  (0 < C)%nat -> (0 < N)%nat -> (k < K)%nat ->
  derivable_pt_lim (fun t => neg_log_lik C N K phi mu 1 (bump theta k t)) 0
    (neg_grad C N K phi mu 1 theta k).
Proof.
  intros HC HN Hk.
  assert (H1 : (1 : R) <> 0) by lra.
  set (u := utility K phi 1 theta).
  set (w := fun r => phi r k / 1).
  apply (derivable_pt_lim_ext
           (fun t => Rsum N (fun i =>
                       ln (Rsum C (fun y => exp (u (y * N + i)%nat
                                                 + t * w (y * N + i)%nat))))
                     - Rsum (C * N) (fun r => (u r + t * w r) * mu r))).
  { intros t. symmetry. rewrite (neg_log_lik_plain C N K phi mu 1 HC).
    unfold log_sum_utilities, utility_of.
    rewrite (Rsum_ext N
               (fun i => ln (Rsum C (fun y =>
                  exp (utility K phi 1 (bump theta k t) (y * N + i)%nat))))
               (fun i => ln (Rsum C (fun y =>
                  exp (u (y * N + i)%nat + t * w (y * N + i)%nat))))).
    2:{ intros i _. f_equal. apply Rsum_ext. intros y _. f_equal.
        now apply utility_bump. }
    rewrite (Rsum_ext (C * N) (fun r => utility K phi 1 (bump theta k t) r * mu r)
               (fun r => (u r + t * w r) * mu r)).
    2:{ intros r _. f_equal. now apply utility_bump. }
    ring. }
  replace (neg_grad C N K phi mu 1 theta k)
    with (Rsum N (fun i =>
            Rsum C (fun y => w (y * N + i)%nat * exp (u (y * N + i)%nat))
            / Rsum C (fun y => exp (u (y * N + i)%nat + 0 * w (y * N + i)%nat)))
          - Rsum (C * N) (fun r => w r * mu r)).
  - apply (derivable_pt_lim_minus
             (fun t => Rsum N (fun i =>
                ln (Rsum C (fun y => exp (u (y * N + i)%nat
                                          + t * w (y * N + i)%nat)))))
             (fun t => Rsum (C * N) (fun r => (u r + t * w r) * mu r))).
    + apply (dlim_Rsum N (fun i t =>
               ln (Rsum C (fun y => exp (u (y * N + i)%nat
                                         + t * w (y * N + i)%nat))))).
      intros i _.
      apply (dlim_ln (fun t => Rsum C (fun y =>
               exp (u (y * N + i)%nat + t * w (y * N + i)%nat)))).
      * now apply Rsum_exp_pos.
      * apply (dlim_Rsum C (fun y t =>
                 exp (u (y * N + i)%nat + t * w (y * N + i)%nat))).
        intros y _. apply dlim_exp_line.
    + apply (dlim_Rsum (C * N) (fun r t => (u r + t * w r) * mu r)).
      intros r _.
      apply (derivable_pt_lim_ext (fun t => u r * mu r + t * (w r * mu r))).
      * intros t. ring.
      * apply dlim_line.
  - unfold neg_grad.
    rewrite (Rsum_ext N (fun i =>
               Rsum C (fun y => phi (y * N + i)%nat k * weight C N K phi 1 theta i y)
               / weight_sum C N K phi 1 theta i)
               (fun i =>
                  Rsum C (fun y => w (y * N + i)%nat * exp (u (y * N + i)%nat))
                  / Rsum C (fun y => exp (u (y * N + i)%nat
                                          + 0 * w (y * N + i)%nat)))).
    2:{ intros i _.
        rewrite (weight_ratio C N K phi 1 HC theta i
                   (fun y => phi (y * N + i)%nat k)).
        unfold utility_of. fold u. f_equal.
        - apply Rsum_ext. intros y _. unfold w. f_equal. field.
        - apply Rsum_ext. intros y _. f_equal. ring. }
    rewrite (Rsum_ext (C * N) (fun r => mu r * phi r k) (fun r => w r * mu r)).
    2:{ intros r _. unfold w. field. }
    ring.
Qed.



(** X16.  What [log_likelihood] returns, with the maxima put back:
    sigma * sum_i log sum_y exp(X_iy) + (1 - sigma) * sum_i max_y X_iy
    - sum X * muhat, where X = Phi theta / sigma.  With sigma = 1, the
    value the notebook sets, it is the negative log-likelihood of the
    logit model, sum_i log sum_y exp(X_iy) - sum X * muhat. *)
Theorem log_likelihood_is_logit C N K phi mu s theta :
  (0 < C)%nat -> (0 < N)%nat -> s <> 0 ->
  let Phi := emat (C * N) K phi in
  let X := fun r => Rsum K (fun k => phi r k * theta k) / s in
  let lse := fun i => ln (Rsum C (fun y => exp (X (y * N + i)%nat))) in
  let top := fun i => Rmaxn C (fun y => X (y * N + i)%nat) in
  let fit := Rsum (C * N) (fun r => X r * mu r) in
  log_likelihood Phi (Fin s) C N (evec (C * N) mu) (evec K theta)
  = Done (Fin (s * Rsum N lse + (1 - s) * Rsum N top - fit))
  /\ (s = 1 ->
      log_likelihood Phi (Fin s) C N (evec (C * N) mu) (evec K theta)
      = Done (Fin (Rsum N lse - fit))).
Proof.
  intros HC HN Hs Phi X lse top fit.
  assert (E : log_likelihood Phi (Fin s) C N (evec (C * N) mu) (evec K theta)
              = Done (Fin (s * Rsum N lse + (1 - s) * Rsum N top - fit))).
  { unfold Phi. rewrite log_likelihood_fin by assumption.
    rewrite neg_log_lik_plain by assumption. reflexivity. }
  split; [exact E|]. intros ->. rewrite E. do 2 f_equal. ring.
Qed.

(** X16 on two alternatives, one individual and one column. *)
Lemma log_likelihood_is_logit_witness :
  log_likelihood (emat (2 * 1) 1 (fun r _ => INR r)) (Fin 1) 2 1
    (evec (2 * 1) ones) (evec 1 ones)
  = Done (Fin (Rsum 1 (fun i => ln (Rsum 2 (fun y =>
                 exp (Rsum 1 (fun k => INR (y * 1 + i) * ones k) / 1))))
               - Rsum (2 * 1) (fun r =>
                   Rsum 1 (fun k => INR r * ones k) / 1 * ones r))).
Proof.
  exact (proj2 (log_likelihood_is_logit 2 1 1 (fun r _ => INR r) ones 1 ones
                  ltac:(lia) ltac:(lia) ltac:(lra)) eq_refl).
Defined.

(** X17.  With sigma = 1, [grad_log_likelihood] is the gradient of
    [log_likelihood]: on finite data both return finite values, and the
    k-th entry of the one is the derivative of the other with respect to
    the k-th entry of theta. *)
Theorem grad_is_gradient C N K phi mu theta k :
  (0 < C)%nat -> (0 < N)%nat -> (k < K)%nat ->
  let Phi := emat (C * N) K phi in
  let muhat := evec (C * N) mu in
  exists (L : (nat -> R) -> R) (G : nat -> R),
    (forall th, log_likelihood Phi (Fin 1) C N muhat (evec K th) = Done (Fin (L th)))
    /\ grad_log_likelihood Phi (Fin 1) C N muhat (evec K theta) = Done (evec K G)
    /\ derivable_pt_lim (fun t => L (bump theta k t)) 0 (G k).
Proof.
  intros HC HN Hk Phi muhat.
  exists (neg_log_lik C N K phi mu 1), (neg_grad C N K phi mu 1 theta).
  split; [|split].
  - intros th. apply log_likelihood_fin; try assumption. lra.
  - apply grad_log_likelihood_fin; try assumption; [lra|lia].
  - now apply neg_grad_is_derivative.
Qed.

(** X17 on two alternatives, one individual and one column. *)
Lemma grad_is_gradient_witness :
  exists (L : (nat -> R) -> R) (G : nat -> R),
    (forall th,
       log_likelihood (emat (2 * 1) 1 (fun r _ => INR r)) (Fin 1) 2 1
         (evec (2 * 1) ones) (evec 1 th) = Done (Fin (L th)))
    /\ grad_log_likelihood (emat (2 * 1) 1 (fun r _ => INR r)) (Fin 1) 2 1
         (evec (2 * 1) ones) (evec 1 ones) = Done (evec 1 G)
    /\ derivable_pt_lim (fun t => L (bump ones 0 t)) 0 (G 0%nat).
Proof.
  exact (grad_is_gradient 2 1 1 (fun r _ => INR r) ones ones 0
           ltac:(lia) ltac:(lia) ltac:(lia)).
Defined.

(** ** The likelihood at a fixed temperature *)

Section LogitExt.

Variables C N K : nat.
Variable phi : nat -> nat -> R.
Variable mu : nat -> R.
Variable s : R.
Variables th th' : nat -> R.

Hypothesis Hth : forall j, th j = th' j.

Lemma utility_ext r : utility K phi s th r = utility K phi s th' r.
Proof.
  unfold utility. f_equal. apply Rsum_ext. intros k _. now rewrite Hth.
Qed.

Lemma best_ext i : best C N K phi s th i = best C N K phi s th' i.
Proof.
  unfold best. apply Rmaxn_ext. intros y _. unfold utility_of. apply utility_ext.
Qed.

Lemma weight_ext i y : weight C N K phi s th i y = weight C N K phi s th' i y.
Proof.
  unfold weight, utility_of. now rewrite utility_ext, best_ext.
Qed.

Lemma weight_sum_ext i :
  weight_sum C N K phi s th i = weight_sum C N K phi s th' i.
Proof.
  unfold weight_sum. apply Rsum_ext. intros y _. apply weight_ext.
Qed.

Lemma neg_log_lik_ext :
  neg_log_lik C N K phi mu s th = neg_log_lik C N K phi mu s th'.
Proof.
  unfold neg_log_lik. f_equal. f_equal; [f_equal|f_equal].
  - apply Rsum_ext. intros r _. now rewrite utility_ext.
  - apply Rsum_ext. intros i _. apply best_ext.
  - apply Rsum_ext. intros i _. now rewrite weight_sum_ext.
Qed.

End LogitExt.

Lemma np_append_fin k sub x :
  np_append (evec k sub) (Fin x) = evec (S k) (appended k sub x).
Proof.
  unfold np_append, evec. replace (S k) with (k + 1)%nat by lia.
  rewrite tabv_app. f_equal.
  - apply tabv_ext. intros j Hj. unfold appended.
    destruct (Nat.ltb_spec j k); [reflexivity|lia].
  - cbn. unfold appended. rewrite Nat.add_0_r, Nat.ltb_irrefl. reflexivity.
Qed.

Lemma drop_last_fin k g : drop_last (evec (S k) g) = evec k g.
Proof.
  unfold drop_last, evec. replace (S k) with (k + 1)%nat by lia.
  rewrite tabv_app. cbn [tabv seq map]. apply removelast_last.
Qed.

(** X18.  The two functions at a fixed temperature, with sigma = 1 and
    a temperature that is not zero: [log_likelihood_fixedtemp] is
    [log_likelihood] at theta = (subsetoftheta, 1 / temp), and
    [grad_log_likelihood_fixedtemp], the full gradient without its last
    entry, is the gradient of [log_likelihood_fixedtemp] with respect to
    subsetoftheta. *)
Theorem fixedtemp_gradient C N K phi mu sub temp k :
  (0 < C)%nat -> (0 < N)%nat -> temp <> 0 -> (k < K)%nat ->
  let Phi := emat (C * N) (S K) phi in
  let muhat := evec (C * N) mu in
  exists (L : (nat -> R) -> R) (G : nat -> R),
    (forall th,
       log_likelihood_fixedtemp Phi (Fin 1) C N muhat (evec K th) (Fin temp)
       = Done (Fin (L th))
       /\ log_likelihood Phi (Fin 1) C N muhat
            (evec (S K) (appended K th (1 / temp))) = Done (Fin (L th)))
    /\ grad_log_likelihood Phi (Fin 1) C N muhat
         (evec (S K) (appended K sub (1 / temp))) = Done (evec (S K) G)
    /\ grad_log_likelihood_fixedtemp Phi (Fin 1) C N muhat (evec K sub) (Fin temp)
       = Done (evec K G)
    /\ derivable_pt_lim (fun t => L (bump sub k t)) 0 (G k).
Proof.
  intros HC HN Ht Hk Phi muhat.
  assert (H1 : (1 : R) <> 0) by lra.
  exists (fun th => neg_log_lik C N (S K) phi mu 1 (appended K th (1 / temp))),
         (neg_grad C N (S K) phi mu 1 (appended K sub (1 / temp))).
  assert (EL : forall th,
            log_likelihood Phi (Fin 1) C N muhat
              (evec (S K) (appended K th (1 / temp)))
            = Done (Fin (neg_log_lik C N (S K) phi mu 1
                           (appended K th (1 / temp))))).
  { intros th. now apply log_likelihood_fin. }
  assert (EG : grad_log_likelihood Phi (Fin 1) C N muhat
                 (evec (S K) (appended K sub (1 / temp)))
               = Done (evec (S K) (neg_grad C N (S K) phi mu 1
                                     (appended K sub (1 / temp))))).
  { apply grad_log_likelihood_fin; try assumption. lia. }
  split; [|split; [exact EG|split]].
  - intros th. split; [|apply EL].
    unfold log_likelihood_fixedtemp. rewrite xdiv_fin by assumption.
    rewrite np_append_fin. apply EL.
  - unfold grad_log_likelihood_fixedtemp. rewrite xdiv_fin by assumption.
    rewrite np_append_fin, EG. cbn [bind]. now rewrite drop_last_fin.
  - apply (derivable_pt_lim_ext
             (fun t => neg_log_lik C N (S K) phi mu 1
                         (bump (appended K sub (1 / temp)) k t))).
    + intros t. apply neg_log_lik_ext. intros j. unfold bump, appended.
      destruct (Nat.eqb_spec j k) as [->|Hne].
      * destruct (Nat.ltb_spec k K); [reflexivity|lia].
      * reflexivity.
    + apply neg_grad_is_derivative; try assumption. lia.
Qed.

(** X18 on two alternatives, one individual and two columns. *)
Lemma fixedtemp_gradient_witness :
  exists (L : (nat -> R) -> R) (G : nat -> R),
    (forall th,
       log_likelihood_fixedtemp (emat (2 * 1) 2 (fun r _ => INR r)) (Fin 1) 2 1
         (evec (2 * 1) ones) (evec 1 th) (Fin 2) = Done (Fin (L th))
       /\ log_likelihood (emat (2 * 1) 2 (fun r _ => INR r)) (Fin 1) 2 1
            (evec (2 * 1) ones) (evec 2 (appended 1 th (1 / 2)))
          = Done (Fin (L th)))
    /\ grad_log_likelihood (emat (2 * 1) 2 (fun r _ => INR r)) (Fin 1) 2 1
         (evec (2 * 1) ones) (evec 2 (appended 1 ones (1 / 2)))
       = Done (evec 2 G)
    /\ grad_log_likelihood_fixedtemp (emat (2 * 1) 2 (fun r _ => INR r)) (Fin 1)
         2 1 (evec (2 * 1) ones) (evec 1 ones) (Fin 2) = Done (evec 1 G)
    /\ derivable_pt_lim (fun t => L (bump ones 0 t)) 0 (G 0%nat).
Proof.
  exact (fixedtemp_gradient 2 1 1 (fun r _ => INR r) ones ones 2 0
           ltac:(lia) ltac:(lia) ltac:(lra) ltac:(lia)).
Defined.

(** X19.  Neither function checks its argument or the data.  A theta
    whose length is not the number of columns of [Phi_iy_k] makes both
    raise ValueError, from the product with theta; so do data whose
    number of rows is not nbchoices * ninds, from the reshape. *)
Theorem likelihood_shape_errors rows K phi sigma C N muhat k theta :
  (0 < rows)%nat ->
  let Phi := tab2 rows K phi in
  (k <> K ->
   log_likelihood Phi sigma C N muhat (tabv k theta) = Raise ValueError
   /\ grad_log_likelihood Phi sigma C N muhat (tabv k theta) = Raise ValueError)
  /\ (k = K -> rows <> (C * N)%nat ->
      log_likelihood Phi sigma C N muhat (tabv k theta) = Raise ValueError
      /\ grad_log_likelihood Phi sigma C N muhat (tabv k theta)
         = Raise ValueError).
Proof.
  intros HR Phi. split.
  - intros Hk.
    assert (E : choice_terms Phi sigma C N (tabv k theta) = Raise ValueError).
    { unfold choice_terms, matvec, Phi.
      rewrite tab2_ncols, tabv_length by assumption.
      destruct (Nat.eqb_spec K k); [congruence|reflexivity]. }
    unfold log_likelihood, grad_log_likelihood. rewrite E. split; reflexivity.
  - intros -> HRC.
    assert (E : choice_terms Phi sigma C N (tabv K theta) = Raise ValueError).
    { unfold choice_terms, Phi. rewrite matvec_tab by assumption.
      cbn [bind]. rewrite tabv_map, reshape_mismatch by assumption.
      reflexivity. }
    unfold log_likelihood, grad_log_likelihood. rewrite E. split; reflexivity.
Qed.

(** X19 on a theta of three entries for data of two columns. *)
Lemma likelihood_shape_errors_witness :
  log_likelihood (tab2 2 2 (fun _ _ => Fin 0)) (Fin 1) 2 1 (tabv 2 (fun _ => Fin 1))
    (tabv 3 (fun _ => Fin 0)) = Raise ValueError.
Proof.
  exact (proj1 (proj1 (likelihood_shape_errors 2 2 (fun _ _ => Fin 0) (Fin 1) 2 1
                         (tabv 2 (fun _ => Fin 1)) 3 (fun _ => Fin 0)
                         ltac:(lia)) ltac:(lia))).
Defined.

(** ** The standardized columns *)

Lemma squares_nonneg rows col : 0 <= squares_of rows col.
Proof.
  unfold squares_of. apply Rsum_nonneg. intros r _.
  exact (Rle_0_sqr (col r - mean_of rows col)).
Qed.

Lemma xsqrt_fin x : 0 <= x -> xsqrt (Fin x) = Fin (sqrt x).
Proof. intros H. unfold xsqrt. destruct (Rlt_dec x 0); [lra|reflexivity]. Qed.

Lemma mean_axis0_fin rows K phi :
  (0 < rows)%nat ->
  mean_axis0 (emat rows K phi)
  = evec K (fun k => mean_of rows (fun r => phi r k)).
Proof.
  intros HR. unfold mean_axis0, emat.
  rewrite tab2_ncols, tab2_nrows by assumption.
  apply tabv_ext. intros k Hk. rewrite column_tab2 by assumption.
  rewrite xsum_fin. apply xdiv_fin.
  apply not_0_INR. lia.
Qed.

Lemma std_axis0_fin rows K phi :
  (2 <= rows)%nat ->
  std_axis0 (emat rows K phi) 1
  = evec K (fun k => deviation_of rows (fun r => phi r k)).
Proof.
  intros HR. unfold std_axis0, emat.
  rewrite tab2_ncols, tab2_nrows by lia.
  apply tabv_ext. intros k Hk. cbv zeta. rewrite column_tab2 by assumption.
  rewrite xsum_fin, xdiv_fin by (apply not_0_INR; lia).
  fold (mean_of rows (fun r => phi r k)).
  rewrite !tabv_map.
  rewrite (tabv_ext rows _ (fun r => Fin
             ((phi r k - mean_of rows (fun r => phi r k))
              * (phi r k - mean_of rows (fun r => phi r k)))))
    by (intros; reflexivity).
  rewrite xsum_fin. fold (squares_of rows (fun r => phi r k)).
  rewrite xdiv_fin by (apply not_0_INR; lia).
  apply xsqrt_fin.
  pose proof (squares_nonneg rows (fun r => phi r k)).
  assert (0 < INR (rows - 1)) by (apply lt_0_INR; lia).
  apply Rmult_le_pos; [assumption|]. apply Rlt_le. now apply Rinv_0_lt_compat.
Qed.

(** The cell, entry by entry. *)
Lemma standardize_tab rows K phi :
  (2 <= rows)%nat -> (0 < K)%nat ->
  standardize (emat rows K phi)
  = Done (tab2 rows K (fun r k =>
            xdiv (Fin (phi r k - mean_of rows (fun r => phi r k)))
                 (Fin (deviation_of rows (fun r => phi r k))))).
Proof.
  intros HR HK. unfold standardize. cbv zeta.
  rewrite mean_axis0_fin, std_axis0_fin by lia.
  unfold emat, evec. rewrite bcast2_row by lia. cbn [bind].
  rewrite transpose_tab2 by lia. rewrite two_d_tabv.
  rewrite bcast2_col by assumption. cbn [bind].
  rewrite transpose_tab2 by assumption. reflexivity.
Qed.

Lemma deviation_pos rows col :
  (2 <= rows)%nat -> 0 < squares_of rows col -> 0 < deviation_of rows col.
Proof.
  intros HR Hsq. unfold deviation_of. apply sqrt_lt_R0.
  assert (0 < INR (rows - 1)) by (apply lt_0_INR; lia).
  apply Rmult_lt_0_compat; [assumption|]. now apply Rinv_0_lt_compat.
Qed.

Section Standardized.

Variable rows : nat.
Variable col : nat -> R.

Hypothesis Hrows : (2 <= rows)%nat.
Hypothesis Hsq : 0 < squares_of rows col.

Lemma standardized_sum : Rsum rows (standardized rows col) = 0.
Proof.
  pose proof (deviation_pos rows col Hrows Hsq) as Hd.
  unfold standardized. unfold Rdiv. rewrite Rsum_scal, Rsum_minus, Rsum_const.
  unfold mean_of.
  assert (INR rows <> 0) by (apply not_0_INR; lia).
  field. split; [lra|assumption].
Qed.

Lemma standardized_squares :
  Rsum rows (fun r => standardized rows col r * standardized rows col r)
  = INR (rows - 1).
Proof.
  pose proof (deviation_pos rows col Hrows Hsq) as Hd.
  assert (Hn : 0 < INR (rows - 1)) by (apply lt_0_INR; lia).
  assert (Hdd : deviation_of rows col * deviation_of rows col
                = squares_of rows col / INR (rows - 1)).
  { unfold deviation_of. apply sqrt_sqrt.
    apply Rmult_le_pos; [lra|]. apply Rlt_le. now apply Rinv_0_lt_compat. }
  rewrite (Rsum_ext rows _ (fun r =>
             (col r - mean_of rows col) * (col r - mean_of rows col)
             * / (deviation_of rows col * deviation_of rows col))).
  2:{ intros r _. unfold standardized. field. lra. }
  rewrite Rsum_scal. fold (squares_of rows col). rewrite Hdd.
  field. split; lra.
Qed.

Lemma standardized_mean : mean_of rows (standardized rows col) = 0.
Proof. unfold mean_of. rewrite standardized_sum. unfold Rdiv. ring. Qed.

Lemma standardized_squares_of :
  squares_of rows (standardized rows col) = INR (rows - 1).
Proof.
  unfold squares_of. rewrite standardized_mean.
  rewrite <- standardized_squares. apply Rsum_ext. intros r _. ring.
Qed.

Lemma standardized_deviation : deviation_of rows (standardized rows col) = 1.
Proof.
  unfold deviation_of. rewrite standardized_squares_of.
  assert (Hn : 0 < INR (rows - 1)) by (apply lt_0_INR; lia).
  replace (INR (rows - 1) / INR (rows - 1)) with 1 by (field; lra).
  apply sqrt_1.
Qed.

End Standardized.

(** X20.  The standardization of the data, on two rows or more and
    columns none of which is constant: every column of the result has sum
    0, so mean 0, and squares that sum to the number of rows less 1, so
    deviation 1 with ddof = 1; standardizing the result again changes
    nothing. *)
Theorem standardized_columns rows K phi :
  (2 <= rows)%nat -> (0 < K)%nat ->
  (forall k, (k < K)%nat -> 0 < squares_of rows (fun r => phi r k)) ->
  exists z,
    standardize (emat rows K phi) = Done (emat rows K z)
    /\ (forall k, (k < K)%nat ->
          Rsum rows (fun r => z r k) = 0
          /\ Rsum rows (fun r => z r k * z r k) = INR (rows - 1))
    /\ mean_axis0 (emat rows K z) = evec K (fun _ => 0)
    /\ std_axis0 (emat rows K z) 1 = evec K (fun _ => 1)
    /\ standardize (emat rows K z) = Done (emat rows K z).
Proof.
  intros HR HK Hsq.
  set (z := fun r k => standardized rows (fun r' => phi r' k) r).
  exists z.
  assert (E : forall f, (forall k, (k < K)%nat ->
                           0 < deviation_of rows (fun r => f r k)) ->
              standardize (emat rows K f)
              = Done (emat rows K (fun r k =>
                        (f r k - mean_of rows (fun r => f r k))
                        / deviation_of rows (fun r => f r k)))).
  { intros f Hf. rewrite standardize_tab by assumption. apply f_equal.
    apply tab2_ext. intros r k Hr Hk. apply xdiv_fin.
    specialize (Hf k Hk). lra. }
  assert (Hm : forall k, (k < K)%nat -> mean_of rows (fun r => z r k) = 0).
  { intros k Hk.
    exact (standardized_mean rows (fun r => phi r k) HR (Hsq k Hk)). }
  assert (Hd : forall k, (k < K)%nat -> deviation_of rows (fun r => z r k) = 1).
  { intros k Hk.
    exact (standardized_deviation rows (fun r => phi r k) HR (Hsq k Hk)). }
  split; [|split; [|split; [|split]]].
  - apply E. intros k Hk. apply deviation_pos; [assumption|now apply Hsq].
  - intros k Hk. split.
    + exact (standardized_sum rows (fun r => phi r k) HR (Hsq k Hk)).
    + exact (standardized_squares rows (fun r => phi r k) HR (Hsq k Hk)).
  - rewrite mean_axis0_fin by lia. apply evec_ext. exact Hm.
  - rewrite std_axis0_fin by lia. apply evec_ext. exact Hd.
  - rewrite E.
    + apply f_equal. apply emat_ext. intros r k Hr Hk.
      rewrite (Hm k Hk), (Hd k Hk). unfold Rdiv. rewrite Rinv_1. ring.
    + intros k Hk. rewrite (Hd k Hk). lra.
Qed.

(** X20 on the column (0, 1). *)
Lemma standardized_columns_witness :
  exists z,
    standardize (emat 2 1 (fun r _ => INR r)) = Done (emat 2 1 z)
    /\ standardize (emat 2 1 z) = Done (emat 2 1 z).
Proof.
  destruct (standardized_columns 2 1 (fun r _ => INR r) ltac:(lia) ltac:(lia))
    as (z & H1 & _ & _ & _ & H2).
  - intros k _. unfold squares_of, mean_of, Rsum. simpl. lra.
  - exists z. split; assumption.
Defined.

(** X21.  A column that holds one whole number all along, as a dummy
    that is always 0 or always 1 does, does not survive the
    standardization: its deviation is 0, every entry of it becomes 0 / 0,
    and the result holds NaN all along that column.  The whole number z
    is taken with |z| * rows below 2^53, where the sums of the column,
    and so its mean, are exact in doubles as they are here. *)
Theorem constant_column_is_nan rows K phi k z :
  (2 <= rows)%nat -> (k < K)%nat ->
  (Z.abs z * Z.of_nat rows < 2 ^ 53)%Z ->
  (forall r, (r < rows)%nat -> phi r k = IZR z) ->
  exists M,
    standardize (emat rows K phi) = Done M
    /\ forall r, (r < rows)%nat -> get M r k = NaN.
Proof.
  intros HR Hk _ Hc. eexists. split; [apply standardize_tab; lia|].
  intros r Hr. rewrite tab2_get by assumption.
  assert (Hm : mean_of rows (fun r => phi r k) = IZR z).
  { unfold mean_of. rewrite (Rsum_ext rows _ (fun _ => IZR z)) by assumption.
    rewrite Rsum_const. field. apply not_0_INR. lia. }
  assert (Hd : deviation_of rows (fun r => phi r k) = 0).
  { unfold deviation_of, squares_of. rewrite Hm.
    rewrite (Rsum_ext rows _ (fun _ => 0)).
    - rewrite Rsum_zero. unfold Rdiv. rewrite Rmult_0_l. apply sqrt_0.
    - intros r' Hr'. rewrite (Hc r' Hr'). ring. }
  rewrite Hm, Hd, (Hc r Hr). unfold xdiv.
  destruct (Req_dec_T 0 0) as [_|F]; [|contradiction].
  replace (IZR z - IZR z) with 0 by ring.
  destruct (Rlt_dec 0 0); [lra|reflexivity].
Qed.

(** X21 on a column of ones. *)
Lemma constant_column_is_nan_witness :
  (Z.abs 1 * Z.of_nat 2 < 2 ^ 53)%Z /\
  exists M,
    standardize (emat 2 1 (fun _ _ => 1)) = Done M
    /\ forall r, (r < 2)%nat -> get M r 0 = NaN.
Proof.
  split; [reflexivity|].
  exact (constant_column_is_nan 2 1 (fun _ _ => 1) 0 1 ltac:(lia) ltac:(lia)
           eq_refl (fun _ _ => eq_refl)).
Defined.

(** ** The layout of the data *)

(** X23.  The discrete choice notebook lays its data out alternative by
    alternative: [muhat_iy] puts the choice of individual i about
    alternative y, read at place i * nbchoices + y of the file, at place
    y * ninds + i; and the k-th dummy column of [Phi_iy_k] is 1 exactly
    on the rows y * ninds + i of alternative y = k + 1, the first
    alternative having no dummy. *)
Theorem alternative_major_layout N C choice :
  (0 < N)%nat -> (0 < C)%nat ->
  (exists mu,
     muhat_of (evec (N * C) choice) N C = Done (evec (C * N) mu)
     /\ forall i y, (i < N)%nat -> (y < C)%nat ->
          mu (y * N + i)%nat = choice (i * C + y)%nat)
  /\ (exists D,
        alternative_dummies N = emat (4 * N) 3 D
        /\ forall i y k, (i < N)%nat -> (y < 4)%nat -> (k < 3)%nat ->
             D (y * N + i)%nat k = if (y =? S k)%nat then 1 else 0).
Proof.
  intros HN HC. split.
  - exists (fun r => choice ((r mod N) * C + r / N)%nat). split.
    + unfold muhat_of, evec. rewrite reshape_tabv. cbn [bind].
      rewrite transpose_tab2 by assumption.
      rewrite flatten_tab2 by assumption. reflexivity.
    + intros i y Hi Hy. destruct (split_index N i y Hi) as [-> ->]. reflexivity.
  - exists (fun r k => if (r / N =? S k)%nat then 1 else 0). split.
    + unfold alternative_dummies.
      replace (slice_cols (slice_rows (identity 4) 0 4) 1 4)
        with (tab2 4 3 (fun y k => if (y =? S k)%nat then Fin 1 else Fin 0))
        by reflexivity.
      rewrite np_repeat_tabv, two_d_tabv, kron_tab2 by lia.
      rewrite Nat.mul_1_r. unfold emat. apply tab2_ext. intros r k Hr Hk.
      rewrite Nat.div_1_r.
      destruct (r / N =? S k)%nat; cbn [xmul]; f_equal; ring.
    + intros i y k Hi Hy Hk. destruct (split_index N i y Hi) as [_ ->].
      reflexivity.
Qed.

(** X23 on two individuals and four alternatives. *)
Lemma alternative_major_layout_witness :
  exists mu,
    muhat_of (evec (2 * 4) INR) 2 4 = Done (evec (4 * 2) mu)
    /\ forall i y, (i < 2)%nat -> (y < 4)%nat ->
         mu (y * 2 + i)%nat = INR (i * 4 + y).
Proof.
  exact (proj1 (alternative_major_layout 2 4 INR ltac:(lia) ltac:(lia))).
Defined.

(** ** The linear program of the discrete choice notebook *)

Lemma hstack_fin a b (f g : nat -> R) :
  hstack (evec a f) (evec b g)
  = evec (a + b) (fun j => if (j <? a)%nat then f j else g (j - a)%nat).
Proof.
  unfold hstack, evec. rewrite tabv_app. f_equal.
  - apply tabv_ext. intros j Hj.
    destruct (Nat.ltb_spec j a); [reflexivity|lia].
  - apply tabv_ext. intros j _.
    destruct (Nat.ltb_spec (a + j) a); [lia|]. do 2 f_equal. lia.
Qed.

Lemma Rsum_two_parts a b (f g : nat -> R) :
  Rsum (a + b) (fun j => if (j <? a)%nat then f j else g (j - a)%nat)
  = Rsum a f + Rsum b g.
Proof.
  rewrite Rsum_app. f_equal.
  - apply Rsum_ext. intros j Hj.
    destruct (Nat.ltb_spec j a); [reflexivity|lia].
  - apply Rsum_ext. intros j _.
    destruct (Nat.ltb_spec (a + j) a); [lia|]. f_equal. lia.
Qed.

Lemma mat_hstack_tab r a b (f g : nat -> nat -> xreal) :
  (0 < r)%nat ->
  mat_hstack (tab2 r a f) (tab2 r b g)
  = Done (tab2 r (a + b) (fun i j =>
            if (j <? a)%nat then f i j else g i (j - a)%nat)).
Proof.
  intros Hr. unfold mat_hstack.
  rewrite !tab2_nrows, !tab2_ncols, Nat.eqb_refl by assumption.
  apply f_equal. apply tab2_ext. intros i j Hi Hj.
  destruct (Nat.ltb_spec j a).
  - now rewrite tab2_get.
  - rewrite tab2_get by lia. reflexivity.
Qed.

Section ChoiceProgramFacts.

Variables C N K : nat.
Variable phi : nat -> nat -> R.
Variable mu : nat -> R.
Variables theta u : nat -> R.

Hypothesis HC : (0 < C)%nat.
Hypothesis HN : (0 < N)%nat.
Hypothesis HK : (0 < K)%nat.

Lemma choice_c_fin :
  choice_c (emat (C * N) K phi) C N (evec (C * N) mu)
  = Done (hstack (evec K (fun k => Rsum (C * N) (fun r => mu r * phi r k)))
            (evec N (fun _ => -1))).
Proof.
  unfold choice_c, evec at 1.
  replace (C * N)%nat with (1 * (C * N))%nat at 1 by lia.
  rewrite reshape_tabv. cbn [bind].
  unfold emat. rewrite matmul_tab2 by nia. cbn [bind].
  rewrite flatten_row, np_repeat_tabv. do 2 f_equal.
  apply tabv_ext. intros k _. cbn [Nat.mul Nat.add]. apply xsum_fin.
Qed.

Lemma choice_cstMat_rows :
  (A <- choice_cstMat (emat (C * N) K phi) C N ;;
   matvec A (hstack (evec K theta) (evec N u)))
  = Done (evec (C * N) (fun r =>
            u (r mod N) - Rsum K (fun k => phi r k * theta k))).
Proof.
  unfold choice_cstMat, emat, identity.
  rewrite map_mat_tab2, np_repeat_tabv, two_d_tabv, kron_tab2 by lia.
  rewrite Nat.mul_1_l, mat_hstack_tab by nia. cbn [bind].
  rewrite hstack_fin. unfold evec at 1. rewrite matvec_tab by nia.
  apply f_equal. unfold evec. apply tabv_ext. intros r Hr.
  rewrite (tabv_ext (K + N) _ (fun j => Fin (
             if (j <? K)%nat then (- phi r j) * theta j
             else (if (r mod N =? j - K)%nat then 1 else 0) * u (j - K)%nat))).
  2:{ intros j Hj. destruct (Nat.ltb_spec j K); [reflexivity|].
      rewrite (Nat.mod_small (j - K) N) by lia.
      destruct (r mod N =? j - K)%nat; cbn [xmul]; f_equal; ring. }
  rewrite xsum_fin.
  rewrite (Rsum_two_parts K N (fun j => - phi r j * theta j)
             (fun j => (if (r mod N =? j)%nat then 1 else 0) * u j)).
  rewrite (Rsum_pick N (r mod N) u) by (apply Nat.mod_upper_bound; lia).
  f_equal.
  rewrite (Rsum_ext K _ (fun k => phi r k * theta k * -1)) by (intros; ring).
  rewrite Rsum_scal. ring.
Qed.

Lemma choice_const_2_fin :
  choice_const_2 N K
  = evec (K + N) (fun j => if (K - 1 =? j)%nat then 1 else 0).
Proof.
  clear HC HN.
  set (h := fun j => if (K - 1 =? j)%nat then 1 else 0).
  replace (evec (K + N) h) with (evec ((K - 1) + (1 + N)) h)
    by (f_equal; lia).
  unfold choice_const_2, evec. rewrite !np_repeat_tabv, !tabv_app.
  f_equal; [|f_equal].
  - apply tabv_ext. intros j Hj. unfold h.
    destruct (Nat.eqb_spec (K - 1) j); [lia|reflexivity].
  - cbn [tabv seq map]. unfold h. rewrite Nat.add_0_r, Nat.eqb_refl.
    reflexivity.
  - apply tabv_ext. intros j Hj. unfold h.
    destruct (Nat.eqb_spec (K - 1) (K - 1 + (1 + j))); [lia|reflexivity].
Qed.

End ChoiceProgramFacts.

(** X24.  The linear program of the discrete choice notebook, read at
    x = (theta, u): the rows of [cstMat @ x] are u_i - (Phi theta) at row
    y * ninds + i, so that [cstMat @ x >= 0] says that u_i is at least the
    utility of every alternative; [const_2 @ x] is the last entry of
    theta; and [c @ x] is sum muhat * (Phi theta) - sum_i u_i.  At the
    least u the constraints allow, u_i = max_y (Phi theta), the objective
    is minus [log_likelihood(theta)] taken with sigma = 1, up to
    ninds * log(nbchoices). *)
Theorem choice_program C N K phi mu theta u :
  (0 < C)%nat -> (0 < N)%nat -> (0 < K)%nat ->
  let Phi := emat (C * N) K phi in
  let muhat := evec (C * N) mu in
  let U := fun r => Rsum K (fun k => phi r k * theta k) in
  let value := fun w => Rsum (C * N) (fun r => mu r * U r) - Rsum N w in
  let top := fun i => Rmaxn C (fun y => U (y * N + i)%nat) in
  (c <- choice_c Phi C N muhat ;; dot c (hstack (evec K theta) (evec N u)))
  = Done (Fin (value u))
  /\ (A <- choice_cstMat Phi C N ;; matvec A (hstack (evec K theta) (evec N u)))
     = Done (evec (C * N) (fun r => u (r mod N) - U r))
  /\ dot (choice_const_2 N K) (hstack (evec K theta) (evec N u))
     = Done (Fin (theta (K - 1)%nat))
  /\ ((forall i y, (i < N)%nat -> (y < C)%nat -> 0 <= u i - U (y * N + i)%nat) ->
      value u <= value top)
  /\ (forall i y, (i < N)%nat -> (y < C)%nat -> 0 <= top i - U (y * N + i)%nat)
  /\ exists L,
       log_likelihood Phi (Fin 1) C N muhat (evec K theta) = Done (Fin L)
       /\ - value top <= L <= - value top + INR N * ln (INR C).
Proof.
  intros HC HN HK Phi muhat U value top.
  assert (H1 : (1 : R) <> 0) by lra.
  assert (Htop : forall i y, (y < C)%nat -> U (y * N + i)%nat <= top i).
  { intros i y Hy. unfold top.
    apply (Rmaxn_ub C (fun y => U (y * N + i)%nat) y Hy). }
  split; [|split; [|split; [|split; [|split]]]].
  - unfold Phi, muhat. rewrite choice_c_fin by assumption. cbn [bind].
    rewrite !hstack_fin, dot_fin. do 2 f_equal.
    rewrite (Rsum_ext (K + N) _ (fun j =>
               if (j <? K)%nat
               then Rsum (C * N) (fun r => mu r * phi r j) * theta j
               else -1 * u (j - K)%nat)).
    2:{ intros j _. destruct (j <? K)%nat; reflexivity. }
    rewrite (Rsum_two_parts K N
               (fun j => Rsum (C * N) (fun r => mu r * phi r j) * theta j)
               (fun j => -1 * u j)).
    rewrite Rsum_scal_l. unfold value.
    replace (Rsum K (fun j => Rsum (C * N) (fun r => mu r * phi r j) * theta j))
      with (Rsum (C * N) (fun r => mu r * U r)); [ring|].
    unfold U.
    rewrite (Rsum_ext (C * N) _ (fun r =>
               Rsum K (fun k => mu r * phi r k * theta k))).
    2:{ intros r _. rewrite <- Rsum_scal_l. apply Rsum_ext. intros; ring. }
    rewrite Rsum_swap. apply Rsum_ext. intros k _.
    now rewrite Rsum_scal.
  - now apply choice_cstMat_rows.
  - rewrite choice_const_2_fin, hstack_fin, dot_fin by assumption.
    do 2 f_equal.
    rewrite (Rsum_pick (K + N) (K - 1)
               (fun j => if (j <? K)%nat then theta j else u (j - K)%nat))
      by lia.
    destruct (Nat.ltb_spec (K - 1) K); [reflexivity|lia].
  - intros Hfeas. unfold value.
    assert (Rsum N top <= Rsum N u); [|lra].
    apply Rsum_le. intros i Hi. unfold top.
    apply Rmaxn_bound; [assumption|]. intros y Hy.
    specialize (Hfeas i y Hi Hy). lra.
  - intros i y Hi Hy. specialize (Htop i y Hy). lra.
  - exists (neg_log_lik C N K phi mu 1 theta).
    split; [now apply log_likelihood_fin|].
    assert (EU : forall r, utility K phi 1 theta r = U r).
    { intros r. unfold utility, U. field. }
    assert (Eb : forall i, best C N K phi 1 theta i = top i).
    { intros i. unfold best, top. apply Rmaxn_ext. intros y _.
      unfold utility_of. apply EU. }
    assert (EL : neg_log_lik C N K phi mu 1 theta
                 = - value top
                   + Rsum N (fun i => ln (weight_sum C N K phi 1 theta i))).
    { unfold neg_log_lik, value.
      rewrite (Rsum_ext (C * N) (fun r => utility K phi 1 theta r * mu r)
                 (fun r => mu r * U r)) by (intros r _; rewrite EU; ring).
      rewrite (Rsum_ext N (best C N K phi 1 theta) top)
        by (intros i _; apply Eb).
      ring. }
    rewrite EL.
    assert (Hlo : 0 <= Rsum N (fun i => ln (weight_sum C N K phi 1 theta i))).
    { apply Rsum_nonneg. intros i _.
      pose proof (weight_sum_bounds C N K phi 1 HC HN theta i) as [Hd _].
      rewrite <- ln_1.
      destruct (Req_dec 1 (weight_sum C N K phi 1 theta i)) as [<-|Hne]; [lra|].
      apply Rlt_le, ln_increasing; lra. }
    assert (Hhi : Rsum N (fun i => ln (weight_sum C N K phi 1 theta i))
                  <= INR N * ln (INR C)).
    { rewrite <- Rsum_const. apply Rsum_le. intros i _.
      pose proof (weight_sum_bounds C N K phi 1 HC HN theta i) as [Hd Hd'].
      destruct (Req_dec (weight_sum C N K phi 1 theta i) (INR C)) as [->|Hne];
        [lra|].
      apply Rlt_le, ln_increasing; lra. }
    lra.
Qed.

(** X24 on two alternatives, one individual and one column. *)
Lemma choice_program_witness :
  (A <- choice_cstMat (emat (2 * 1) 1 (fun r _ => INR r)) 2 1 ;;
   matvec A (hstack (evec 1 ones) (evec 1 ones)))
  = Done (evec (2 * 1) (fun r =>
            ones (r mod 1) - Rsum 1 (fun k => INR r * ones k))).
Proof.
  exact (proj1 (proj2 (choice_program 2 1 1 (fun r _ => INR r) ones ones ones
                         ltac:(lia) ltac:(lia) ltac:(lia)))).
Defined.

(** * The marginals the notebook sets up *)

(** X22.  The marginals the regularization notebook builds,
    [np.repeat(1 / nbX, nbX)] and [np.repeat(1 / nbY, nbY)], are what the
    three cells need: every entry is positive and each sums to 1, so
    that with any positive sigma the problem is a valid one. *)
Theorem setup_marginals_valid nbX nbY sigma :
  (0 < nbX)%nat -> (0 < nbY)%nat -> 0 < sigma ->
  exists p q,
    uniform_marginal nbX = Some (evec nbX p)
    /\ uniform_marginal nbY = Some (evec nbY q)
    /\ valid nbX nbY p q sigma
    /\ Rsum nbX p = 1 /\ Rsum nbY q = 1.
Proof.
  intros HX HY Hs.
  exists (fun _ => 1 / INR nbX), (fun _ => 1 / INR nbY).
  assert (PX : 0 < INR nbX) by (apply lt_0_INR; lia).
  assert (PY : 0 < INR nbY) by (apply lt_0_INR; lia).
  unfold uniform_marginal.
  destruct (Nat.eqb_spec nbX 0); [lia|]. destruct (Nat.eqb_spec nbY 0); [lia|].
  rewrite !np_repeat_tabv. split; [reflexivity|]. split; [reflexivity|].
  split; [|split].
  - repeat split; try assumption.
    + intros i _. apply Rdiv_lt_0_compat; lra.
    + intros j _. apply Rdiv_lt_0_compat; lra.
  - rewrite Rsum_const. field. lra.
  - rewrite Rsum_const. field. lra.
Qed.

(** X22 on the sizes of the notebook, nbX = 5 and nbY = 3. *)
Lemma setup_marginals_valid_witness :
  exists p q,
    uniform_marginal 5 = Some (evec 5 p)
    /\ uniform_marginal 3 = Some (evec 3 q)
    /\ valid 5 3 p q (1 / 10)
    /\ Rsum 5 p = 1 /\ Rsum 3 q = 1.
Proof.
  exact (setup_marginals_valid 5 3 (1 / 10) ltac:(lia) ltac:(lia) ltac:(lra)).
Defined.
